(** * Tristero: the adaptive knowledge-graph engine

    A shallow embedding of [backend/app/models/database.py],
    [backend/app/services/entities.py], [backend/app/services/graph.py], the
    route [/clear] of [backend/app/api/routes.py] and the connection manager
    of [backend/app/api/websocket.py], with the properties of the graph
    store, the entity resolver, the ontology manager and the query engine
    that the specification states, and further properties of the same code.

    Conventions of the embedding:
    - a SQLite table without a usable key order is a list of rows in insertion
      order (a full scan returns rows in that order); [schema_types], whose
      primary key is [name] and whose row order no caller relies on, is a
      finite map from the name to the rest of the row;
    - [str(uuid.uuid4())] is modelled by the index of its generation, so a
      fresh identifier never repeats an earlier one;
    - [datetime.utcnow()] and [time.perf_counter()] are oracles read in
      sequence; each reading is passed to the [Database] method that makes it;
    - REAL columns and Python floats are exact rationals ([Q]): rounding,
      infinities and NaN are not modelled;
    - a text is the sequence of its code points, restricted to code points
      below 256. *)

From Stdlib Require Import ZArith QArith Qminmax String Ascii List Lia Lqa.
From Stdlib Require Import DecimalString Sorted Permutation.
From stdpp Require Import base gmap strings list.
Local Close Scope Q_scope.
Local Open Scope Z_scope.

(** ** Text *)

Module Text.

Definition code (c : ascii) : nat := nat_of_ascii c.

Definition between (lo hi n : nat) : bool := (lo <=? n)%nat && (n <=? hi)%nat.

Fixpoint map_chars (f : ascii -> ascii) (s : string) : string :=
  match s with
  | EmptyString => EmptyString
  | String c rest => String (f c) (map_chars f rest)
  end.

(** SQLite's built-in [LOWER]: only the ASCII letters are folded. *)
Definition sql_lower_char (c : ascii) : ascii :=
  if between 65 90 (code c) then ascii_of_nat (code c + 32) else c.

Definition LOWER (s : string) : string := map_chars sql_lower_char s.

(** Python's [str.lower] on code points below 256: the ASCII letters and
    the Latin-1 capitals U+00C0..U+00DE, the sign U+00D7 apart. *)
Definition py_lower_char (c : ascii) : ascii :=
  let n := code c in
  if between 65 90 n || (between 192 222 n && negb (n =? 215)%nat)
  then ascii_of_nat (n + 32) else c.

Definition lower (s : string) : string := map_chars py_lower_char s.

(** The characters [str.split()] treats as white space, below 256. *)
Definition isspace (c : ascii) : bool :=
  let n := code c in
  between 9 13 n || between 28 32 n || (n =? 133)%nat || (n =? 160)%nat.

Definition is_empty (s : string) : bool :=
  match s with EmptyString => true | _ => false end.

(** [s.split()]: the maximal runs of non-space characters; [word] is the
    run being read. *)
Fixpoint split_from (word : string) (s : string) : list string :=
  match s with
  | EmptyString => if is_empty word then [] else [word]
  | String c rest =>
      if isspace c
      then (if is_empty word then split_from EmptyString rest
            else word :: split_from EmptyString rest)
      else split_from (word ++ String c EmptyString)%string rest
  end.

Definition split (s : string) : list string := split_from EmptyString s.

(** [sep.join(words)] *)
Fixpoint join (sep : string) (words : list string) : string :=
  match words with
  | [] => EmptyString
  | [w] => w
  | w :: ws => (w ++ sep ++ join sep ws)%string
  end.

(** [s.strip()] *)
Fixpoint lstrip (s : string) : string :=
  match s with
  | String c rest => if isspace c then lstrip rest else s
  | EmptyString => EmptyString
  end.

Fixpoint rstrip (s : string) : string :=
  match s with
  | EmptyString => EmptyString
  | String c rest =>
      let rest' := rstrip rest in
      if is_empty rest' && isspace c then EmptyString else String c rest'
  end.

Definition strip (s : string) : string := rstrip (lstrip s).

(** [str(n)] for an [int]. *)
Definition str_int (n : Z) : string := NilZero.string_of_int (Z.to_int n).

(** [s[:n]] for [n >= 0]. *)
Fixpoint prefix (n : nat) (s : string) : string :=
  match n, s with
  | S n', String c rest => String c (prefix n' rest)
  | _, _ => EmptyString
  end.

End Text.

(** [entities.normalize_entity_text] *)
Definition normalize_entity_text (text : string) : string :=
  Text.join " " (Text.split (Text.lower text)).

(** ** Schema ([models/schema.py]) *)

Definition Id := nat.
Definition Time := Z.
Bind Scope nat_scope with Id.

(** The JSON values the code stores in [metadata] and [details]. *)
Inductive json : Type :=
| JNull
| JStr (s : string)
| JInt (n : Z)
| JFloat (q : Q)
| JId (i : Id)
| JStrs (l : list string)
| JIds (l : list Id).

Definition Dict := list (string * json).

Record Node := mkNode {
  node_id : Id;
  node_name : string;
  node_entity_type : string;
  node_content : option string;
  node_metadata : Dict;
  node_created_at : Time;
  node_updated_at : Time;
  node_access_count : Z
}.

Record Edge := mkEdge {
  edge_id : Id;
  edge_source_id : Id;
  edge_target_id : Id;
  edge_relation_type : string;
  edge_weight : Q;
  edge_metadata : Dict;
  edge_created_at : Time;
  edge_last_traversed : option Time;
  edge_traversal_count : Z
}.

Record Note := mkNote {
  note_content : string;
  note_title : option string;
  note_tags : list string
}.

Record ExtractedEntity := mkEntity {
  ent_text : string;
  ent_label : string;
  ent_start : Z;
  ent_end : Z;
  ent_score : Q
}.

(** A row of [schema_types], its primary key [name] apart. *)
Record SchemaRow := mkSchemaRow {
  st_count : Z;
  st_is_seed : bool;
  st_evolved_from : option string;
  st_created_at : Time
}.

Record SchemaType := mkSchemaType {
  stype_name : string;
  stype_count : Z;
  stype_is_seed : bool;
  stype_evolved_from : option string;
  stype_created_at : Time
}.

Record AdaptationEvent := mkAdaptation {
  ev_event_type : string;
  ev_description : string;
  ev_timestamp : Time;
  ev_details : Dict
}.

Record Metrics := mkMetrics {
  total_queries : Z;
  llm_calls : Z;
  total_latency_ms : Q
}.

Record QueryResult := mkQueryResult {
  qr_nodes : list Node;
  qr_edges : list Edge;
  qr_traversed_path : list Id;
  qr_response : option string;
  qr_latency_ms : Q;
  qr_used_llm : bool
}.

(** ** The graph store ([models/database.py]) *)

Record Database := mkDatabase {
  nodes : list Node;
  edges : list Edge;
  schema_types : gmap string SchemaRow;
  adaptation_events : list AdaptationEvent;
  metrics : Metrics
}.

Definition opt_json (o : option string) : json :=
  match o with Some s => JStr s | None => JNull end.

(** [metadata or {}] *)
Definition or_empty (metadata : option Dict) : Dict :=
  match metadata with Some d => d | None => [] end.

Definition set_nodes (db : Database) (l : list Node) : Database :=
  mkDatabase l (edges db) (schema_types db) (adaptation_events db) (metrics db).

Definition set_edges (db : Database) (l : list Edge) : Database :=
  mkDatabase (nodes db) l (schema_types db) (adaptation_events db) (metrics db).

Definition set_schema_types (db : Database) (m : gmap string SchemaRow) : Database :=
  mkDatabase (nodes db) (edges db) m (adaptation_events db) (metrics db).

Definition set_adaptation_events (db : Database) (l : list AdaptationEvent) : Database :=
  mkDatabase (nodes db) (edges db) (schema_types db) l (metrics db).

Definition set_metrics (db : Database) (m : Metrics) : Database :=
  mkDatabase (nodes db) (edges db) (schema_types db) (adaptation_events db) m.

Definition seed_types : list string := ["note"; "person"; "place"; "thing"]%string.

(** A database file that does not exist yet: every table is empty. The one
    row of [metrics] is the record itself, which [_init_schema] leaves as it
    is when present and creates with zeros otherwise. *)
Definition empty_database : Database :=
  mkDatabase [] [] ∅ [] (mkMetrics 0 0 0%Q).

(** [INSERT OR IGNORE INTO schema_types]: a row whose name is taken is left
    alone. *)
Definition insert_or_ignore (name : string) (row : SchemaRow)
    (m : gmap string SchemaRow) : gmap string SchemaRow :=
  match m !! name with
  | Some _ => m
  | None => <[name := row]> m
  end.

(** [Database._init_schema]; [now] gives the clock reading made for each
    seed type. *)
Definition _init_schema (now : string -> Time) (db : Database) : Database :=
  set_schema_types db
    (fold_left (fun m t => insert_or_ignore t (mkSchemaRow 0 true None (now t)) m)
               seed_types (schema_types db)).

(** [INSERT ... ON CONFLICT(name) DO UPDATE SET count = count + 1] *)
Definition upsert_count (name : string) (now : Time)
    (m : gmap string SchemaRow) : gmap string SchemaRow :=
  match m !! name with
  | Some r =>
      <[name := mkSchemaRow (st_count r + 1) (st_is_seed r) (st_evolved_from r)
                            (st_created_at r)]> m
  | None => <[name := mkSchemaRow 1 false None now]> m
  end.

(** [Database.create_node]; [new_id] is the uuid drawn, [now] the clock
    reading. The inserted row has the column default [access_count = 0]. *)
Definition create_node (new_id : Id) (now : Time) (name entity_type : string)
    (content : option string) (metadata : option Dict) (db : Database)
    : Database * Node :=
  let node := mkNode new_id name entity_type content (or_empty metadata) now now 0 in
  (mkDatabase (nodes db ++ [node]) (edges db)
              (upsert_count entity_type now (schema_types db))
              (adaptation_events db) (metrics db),
   node).

(** [Database.get_node] *)
Definition get_node (node_id0 : Id) (db : Database) : option Node :=
  List.find (fun n => Nat.eqb (node_id n) node_id0) (nodes db).

(** [Database.get_all_nodes] *)
Definition get_all_nodes (db : Database) : list Node := nodes db.

(** [Database.update_node_access] *)
Definition update_node_access (now : Time) (node_id0 : Id) (db : Database) : Database :=
  set_nodes db
    (List.map (fun n =>
       if Nat.eqb (node_id n) node_id0
       then mkNode (node_id n) (node_name n) (node_entity_type n) (node_content n)
                   (node_metadata n) (node_created_at n) now (node_access_count n + 1)
       else n) (nodes db)).

(** [Database.find_node_by_name]: the first row whose name matches under
    SQLite's [LOWER]; the type filter applies when [entity_type] is given and
    not empty. *)
Definition find_node_by_name (name : string) (entity_type : option string)
    (db : Database) : option Node :=
  let same_name n := String.eqb (Text.LOWER (node_name n)) (Text.LOWER name) in
  match entity_type with
  | Some t =>
      if Text.is_empty t then List.find same_name (nodes db)
      else List.find (fun n => same_name n && String.eqb (node_entity_type n) t) (nodes db)
  | None => List.find same_name (nodes db)
  end.

(** [Database.create_edge]; the row has the column defaults
    [last_traversed = NULL] and [traversal_count = 0]. *)
Definition create_edge (new_id : Id) (now : Time) (source_id target_id : Id)
    (relation_type : string) (weight : Q) (metadata : option Dict) (db : Database)
    : Database * Edge :=
  let edge := mkEdge new_id source_id target_id relation_type weight
                     (or_empty metadata) now None 0 in
  (set_edges db (edges db ++ [edge]), edge).

(** [Database.get_edges_for_node] *)
Definition get_edges_for_node (node_id0 : Id) (db : Database) : list Edge :=
  List.filter (fun e => Nat.eqb (edge_source_id e) node_id0
                        || Nat.eqb (edge_target_id e) node_id0) (edges db).

(** [Database.get_all_edges] *)
Definition get_all_edges (db : Database) : list Edge := edges db.

(** [Database.find_edge] *)
Definition find_edge (source_id target_id : Id) (db : Database) : option Edge :=
  List.find (fun e =>
     (Nat.eqb (edge_source_id e) source_id && Nat.eqb (edge_target_id e) target_id)
     || (Nat.eqb (edge_source_id e) target_id && Nat.eqb (edge_target_id e) source_id))
    (edges db).

Definition boosted (now : Time) (boost_amount : Q) (e : Edge) : Edge :=
  mkEdge (edge_id e) (edge_source_id e) (edge_target_id e) (edge_relation_type e)
         (Qmin (edge_weight e + boost_amount) 10)
         (edge_metadata e) (edge_created_at e) (Some now) (edge_traversal_count e + 1).

(** [Database.boost_edge] *)
Definition boost_edge (now : Time) (edge_id0 : Id) (boost_amount : Q)
    (db : Database) : Database :=
  set_edges db
    (List.map (fun e => if Nat.eqb (edge_id e) edge_id0 then boosted now boost_amount e else e)
              (edges db)).

Definition decayed (decay_factor : Q) (e : Edge) : Edge :=
  mkEdge (edge_id e) (edge_source_id e) (edge_target_id e) (edge_relation_type e)
         (Qmax (edge_weight e * decay_factor) 0.1)
         (edge_metadata e) (edge_created_at e) (edge_last_traversed e)
         (edge_traversal_count e).

(** [Database.decay_edges] *)
Definition decay_edges (decay_factor : Q) (db : Database) : Database :=
  set_edges db (List.map (decayed decay_factor) (edges db)).

(** [Database.get_schema_types], as the rows in the order the map lists
    them; SQL fixes the order only up to ties in [count], and no caller in
    the engine depends on it. *)
Definition get_schema_types (db : Database) : list SchemaType :=
  List.map (fun kv => mkSchemaType kv.1 (st_count kv.2) (st_is_seed kv.2)
                                    (st_evolved_from kv.2) (st_created_at kv.2))
           (map_to_list (schema_types db)).

(** [Database.log_adaptation] *)
Definition log_adaptation (now : Time) (event_type description : string)
    (details : option Dict) (db : Database) : Database :=
  set_adaptation_events db
    (adaptation_events db ++ [mkAdaptation event_type description now (or_empty details)]).

(** [Database.create_schema_type]; [now] is the reading stored in the row,
    [now_log] the one [log_adaptation] makes. *)
Definition create_schema_type (now now_log : Time) (name : string)
    (evolved_from : option string) (db : Database) : Database * SchemaType :=
  let db1 :=
    set_schema_types db
      (insert_or_ignore name (mkSchemaRow 0 false evolved_from now) (schema_types db)) in
  let suffix :=
    match evolved_from with
    | Some p => if Text.is_empty p then ""%string
                else (" (evolved from " ++ p ++ ")")%string
    | None => ""%string
    end in
  let db2 :=
    log_adaptation now_log "type_created"
      ("New entity type '" ++ name ++ "' created" ++ suffix)%string
      (Some [("type_name"%string, JStr name);
             ("evolved_from"%string, opt_json evolved_from)]) db1 in
  (db2, mkSchemaType name 0 false evolved_from now).

(** [Database.record_query] *)
Definition record_query (latency_ms : Q) (used_llm : bool) (db : Database) : Database :=
  set_metrics db
    (mkMetrics (total_queries (metrics db) + 1)
               (llm_calls (metrics db) + (if used_llm then 1 else 0))
               (total_latency_ms (metrics db) + latency_ms)%Q).

(** [Database.clear_all], statement by statement. *)
Definition reset_seed_count (r : SchemaRow) : SchemaRow :=
  if st_is_seed r
  then mkSchemaRow 0 (st_is_seed r) (st_evolved_from r) (st_created_at r)
  else r.

Definition clear_all (db : Database) : Database :=
  let updated := reset_seed_count <$> schema_types db in
  let kept := filter (fun kv : string * SchemaRow => st_is_seed kv.2 = true) updated in
  mkDatabase [] [] kept [] (mkMetrics 0 0 0%Q).

(** ** The entity resolver ([services/entities.py]) *)

Module EntityExtractor.

Definition DEFAULT_LABELS : list string :=
  ["person"; "organization"; "location"; "concept";
   "project"; "technology"; "date"; "event"]%string.

(** [w in s] for strings *)
Fixpoint starts_with (w s : string) : bool :=
  match w, s with
  | EmptyString, _ => true
  | String a w', String b s' => Ascii.eqb a b && starts_with w' s'
  | String _ _, EmptyString => false
  end.

Fixpoint contains (w s : string) : bool :=
  starts_with w s
  || match s with
     | EmptyString => false
     | String _ s' => contains w s'
     end.

(** [[x for x in labels if not (x in seen or seen.add(x))]] *)
Fixpoint dedup (seen : list string) (labels : list string) : list string :=
  match labels with
  | [] => []
  | x :: rest =>
      if existsb (String.eqb x) seen then dedup seen rest
      else x :: dedup (x :: seen) rest
  end.

(** The sort key [(e.start, -e.score)] and its order on tuples. *)
Definition key (e : ExtractedEntity) : Z * Q := (ent_start e, (- ent_score e)%Q).

Definition key_leb (a b : Z * Q) : bool :=
  (a.1 <? b.1) || ((a.1 =? b.1) && Qle_bool a.2 b.2).

Fixpoint insert_sorted (x : ExtractedEntity) (l : list ExtractedEntity)
    : list ExtractedEntity :=
  match l with
  | [] => [x]
  | y :: l' => if key_leb (key x) (key y) then x :: y :: l'
               else y :: insert_sorted x l'
  end.

(** [sorted(entities, key=lambda e: (e.start, -e.score))]: a stable sort,
    here by insertion from the right. *)
Definition sorted (entities : list ExtractedEntity) : list ExtractedEntity :=
  fold_right insert_sorted [] entities.

(** The body of the sweep of [merge_overlapping], on the local variables
    [(merged, current)]. *)
Definition sweep_step (st : list ExtractedEntity * ExtractedEntity)
    (ent : ExtractedEntity) : list ExtractedEntity * ExtractedEntity :=
  let '(merged, current) := st in
  if ent_start ent <? ent_end current then
    if Qlt_le_dec (ent_score current) (ent_score ent) then (merged, ent)
    else (merged, current)
  else (merged ++ [current], ent).

(** [EntityExtractor.merge_overlapping] *)
Definition merge_overlapping (entities : list ExtractedEntity)
    : list ExtractedEntity :=
  match entities with
  | [] => []
  | _ =>
      match sorted entities with
      | [] => []
      | first :: rest =>
          let '(merged, current) := fold_left sweep_step rest ([], first) in
          merged ++ [current]
      end
  end.

Section Model.

(** [GLiNER.predict_entities], the external recognizer, already turned
    into [ExtractedEntity] values. *)
Variable predict_entities : string -> list string -> Q -> list ExtractedEntity.

(** [EntityExtractor.extract] *)
Definition extract (text : string) (labels : option (list string))
    (threshold : Q) : list ExtractedEntity :=
  let labels :=
    match labels with
    | Some (x :: l) => x :: l
    | _ => DEFAULT_LABELS
    end in
  predict_entities text labels threshold.

(** [EntityExtractor.extract_with_context] *)
Definition extract_with_context (text : string) (query_context : option string)
    (threshold : Q) : list ExtractedEntity :=
  let labels := DEFAULT_LABELS in
  let labels :=
    match query_context with
    | Some ctx =>
        if Text.is_empty ctx then labels
        else
          let query_lower := Text.lower ctx in
          let any ws := existsb (fun w => contains w query_lower) ws in
          let labels :=
            if any ["who"; "person"; "people"]%string
            then ["person"; "organization"]%string ++ labels
            else if any ["where"; "place"; "location"]%string
            then ["location"; "organization"]%string ++ labels
            else if any ["when"; "date"; "time"]%string
            then ["date"; "event"]%string ++ labels
            else labels in
          dedup [] labels
    | None => labels
    end in
  extract text (Some labels) threshold.

(** [EntityExtractor.extract_clean] *)
Definition extract_clean (text : string) (labels : option (list string))
    (threshold : Q) : list ExtractedEntity :=
  merge_overlapping (extract text labels threshold).

End Model.

End EntityExtractor.

(** ** The collaborators and the state of a [GraphService] *)

(** A hit of [EmbeddingService.search] or [get_similar_nodes]: the keys
    ["id"] and ["similarity"] of the dictionary; both methods always set
    them. *)
Record SearchHit := mkHit {
  hit_id : Id;
  hit_similarity : Q
}.

(** The dictionaries [query] hands to the generation service. *)
Record ContextNode := mkContextNode {
  cn_name : string;
  cn_entity_type : string;
  cn_content : string
}.

Record ContextEdge := mkContextEdge {
  ce_source_name : string;
  ce_target_name : string;
  ce_relation_type : string
}.

(** The services behind the engine that are not part of it: the ChromaDB
    collection and the sentence encoder behind [EmbeddingService], the
    recognizer behind [EntityExtractor], the Ollama daemon behind
    [LLMService], and the two clocks. *)
Record Collaborators := mkCollaborators {
  Collection : Type;
  emb_add_node : Id -> string -> Dict -> Collection -> Collection;
  emb_search : string -> Z -> Collection -> list SearchHit;
  emb_get_similar_nodes : Id -> Z -> Collection -> list SearchHit;
  emb_delete_node : Id -> Collection -> Collection;
  emb_compute_similarity : string -> string -> Q;
  predict_entities : string -> list string -> Q -> list ExtractedEntity;
  llm_is_available : bool;
  llm_generate_response : string -> list ContextNode -> list ContextEdge -> string;
  utcnow_at : nat -> Time;
  perf_counter_at : nat -> Q
}.

(** A message passed to [broadcast] by [query_streaming]; a key the
    dictionary does not have is [None]. *)
Record Message := mkMessage {
  msg_type : string;
  msg_phase : string;
  msg_node_id : option Id;
  msg_edge_id : option Id;
  msg_score : option Q;
  msg_delay_ms : Z
}.

Record GenerateCall := mkGenerateCall {
  gen_query : string;
  gen_context_nodes : list ContextNode;
  gen_context_edges : list ContextEdge
}.

Section World.

Context (C : Collaborators).

(** The fields of a [GraphService] and what it has done to the outside:
    [w_uuids] identifiers drawn, [w_ticks] clock readings made, [w_sent]
    the messages broadcast so far and [w_generated] the calls of
    [generate_response], both oldest first. *)
Record World := mkWorld {
  w_db : Database;
  w_embeddings : Collection C;
  w_type_counts : gmap string Z;
  w_uuids : nat;
  w_ticks : nat;
  w_sent : list Message;
  w_generated : list GenerateCall
}.

Definition M (A : Type) : Type := World -> A * World.

Definition ret {A} (a : A) : M A := fun w => (a, w).

Definition bind {A B} (m : M A) (k : A -> M B) : M B :=
  fun w => let '(a, w') := m w in k a w'.

Definition run {A} (m : M A) (w : World) : World := (m w).2.

Definition value {A} (m : M A) (w : World) : A := (m w).1.

End World.

Arguments mkWorld {C}.
Arguments w_db {C}.
Arguments w_embeddings {C}.
Arguments w_type_counts {C}.
Arguments w_uuids {C}.
Arguments w_ticks {C}.
Arguments w_sent {C}.
Arguments w_generated {C}.
Arguments ret {C A}.
Arguments bind {C A B}.
Arguments run {C A}.
Arguments value {C A}.

Declare Scope service_scope.
Delimit Scope service_scope with service.
Notation "'let*' x ':=' m 'in' k" := (bind m (fun x => k))
  (at level 10, x pattern, m at level 100, k at level 200) : service_scope.
Notation "m ';;' k" := (bind m (fun _ => k))
  (at level 100, k at level 200, right associativity) : service_scope.

(** [collections.Counter(keys)]: the keys in the order they are first seen,
    each with its number of occurrences. *)
Fixpoint counter_add (k : string) (c : list (string * Z)) : list (string * Z) :=
  match c with
  | [] => [(k, 1)]
  | (k', n) :: c' =>
      if String.eqb k' k then (k', n + 1) :: c' else (k', n) :: counter_add k c'
  end.

Definition Counter (keys : list string) : list (string * Z) :=
  fold_left (fun c k => counter_add k c) keys [].

(** ** The graph service ([services/graph.py]) *)

Module GraphService.

Definition SIMILARITY_THRESHOLD : Q := 0.7.
Definition MERGE_SIMILARITY_THRESHOLD : Q := 0.85.
Definition TYPE_PROMOTION_THRESHOLD : Z := 5.

(** [title or default] and similar: an absent or empty string is false. *)
Definition str_or (s : option string) (default : string) : string :=
  match s with
  | Some t => if Text.is_empty t then default else t
  | None => default
  end.

(** The dictionary [type_mapping] of [_find_or_create_entity]. *)
Definition type_mapping : list (string * string) :=
  [("person", "person"); ("organization", "thing"); ("location", "place");
   ("concept", "concept"); ("project", "project"); ("technology", "concept");
   ("date", "thing"); ("event", "thing")]%string.

(** [d.get(k, default)] *)
Fixpoint dict_get (d : list (string * string)) (k default : string) : string :=
  match d with
  | [] => default
  | (k', v) :: d' => if String.eqb k' k then v else dict_get d' k default
  end.

Section Service.

Context (C : Collaborators).
Local Open Scope service_scope.

#[local] Abbreviation M := (M C).

(** *** Reading the outside and writing the fields *)

Definition uuid4 : M Id := fun w =>
  (w_uuids w,
   mkWorld (w_db w) (w_embeddings w) (w_type_counts w) (S (w_uuids w))
           (w_ticks w) (w_sent w) (w_generated w)).

Definition utcnow : M Time := fun w =>
  (utcnow_at C (w_ticks w),
   mkWorld (w_db w) (w_embeddings w) (w_type_counts w) (w_uuids w)
           (S (w_ticks w)) (w_sent w) (w_generated w)).

Definition perf_counter : M Q := fun w =>
  (perf_counter_at C (w_ticks w),
   mkWorld (w_db w) (w_embeddings w) (w_type_counts w) (w_uuids w)
           (S (w_ticks w)) (w_sent w) (w_generated w)).

Definition get_db : M Database := fun w => (w_db w, w).

Definition put_db (db : Database) : M unit := fun w =>
  (tt, mkWorld db (w_embeddings w) (w_type_counts w) (w_uuids w)
               (w_ticks w) (w_sent w) (w_generated w)).

Definition get_embeddings : M (Collection C) := fun w => (w_embeddings w, w).

Definition put_embeddings (e : Collection C) : M unit := fun w =>
  (tt, mkWorld (w_db w) e (w_type_counts w) (w_uuids w)
               (w_ticks w) (w_sent w) (w_generated w)).

Definition get_type_counts : M (gmap string Z) := fun w => (w_type_counts w, w).

Definition put_type_counts (c : gmap string Z) : M unit := fun w =>
  (tt, mkWorld (w_db w) (w_embeddings w) c (w_uuids w)
               (w_ticks w) (w_sent w) (w_generated w)).

(** [await broadcast(message)]; the pause [asyncio.sleep] that follows
    it has no effect on the state. *)
Definition broadcast (m : Message) : M unit := fun w =>
  (tt, mkWorld (w_db w) (w_embeddings w) (w_type_counts w) (w_uuids w)
               (w_ticks w) (w_sent w ++ [m]) (w_generated w)).

(** [self.llm.generate_response(...)] *)
Definition generate_response (query : string) (context_nodes : list ContextNode)
    (context_edges : list ContextEdge) : M string := fun w =>
  (llm_generate_response C query context_nodes context_edges,
   mkWorld (w_db w) (w_embeddings w) (w_type_counts w) (w_uuids w)
           (w_ticks w) (w_sent w)
           (w_generated w ++ [mkGenerateCall query context_nodes context_edges])).

(** A [for] loop whose body updates the local variables [s]. *)
Fixpoint for_each {A S : Type} (l : list A) (body : S -> A -> M S) (s : S) : M S :=
  match l with
  | [] => ret s
  | x :: l' => let* s' := body s x in for_each l' body s'
  end.

(** *** The methods of [self.db], each making its own readings *)

Definition db_create_node (name entity_type : string) (content : option string)
    (metadata : option Dict) : M Node :=
  let* new_id := uuid4 in
  let* now := utcnow in
  let* db := get_db in
  let r := create_node new_id now name entity_type content metadata db in
  put_db r.1 ;; ret r.2.

Definition db_get_node (node_id0 : Id) : M (option Node) :=
  let* db := get_db in ret (get_node node_id0 db).

Definition db_update_node_access (node_id0 : Id) : M unit :=
  let* now := utcnow in
  let* db := get_db in
  put_db (update_node_access now node_id0 db).

Definition db_find_node_by_name (name : string) : M (option Node) :=
  let* db := get_db in ret (find_node_by_name name None db).

Definition db_create_edge (source_id target_id : Id) (relation_type : string)
    (weight : Q) (metadata : option Dict) : M Edge :=
  let* new_id := uuid4 in
  let* now := utcnow in
  let* db := get_db in
  let r := create_edge new_id now source_id target_id relation_type weight metadata db in
  put_db r.1 ;; ret r.2.

Definition db_get_edges_for_node (node_id0 : Id) : M (list Edge) :=
  let* db := get_db in ret (get_edges_for_node node_id0 db).

Definition db_find_edge (source_id target_id : Id) : M (option Edge) :=
  let* db := get_db in ret (find_edge source_id target_id db).

Definition db_boost_edge (edge_id0 : Id) (boost_amount : Q) : M unit :=
  let* now := utcnow in
  let* db := get_db in
  put_db (boost_edge now edge_id0 boost_amount db).

Definition db_decay_edges (decay_factor : Q) : M unit :=
  let* db := get_db in put_db (decay_edges decay_factor db).

Definition db_get_schema_types : M (list SchemaType) :=
  let* db := get_db in ret (get_schema_types db).

Definition db_log_adaptation (event_type description : string)
    (details : option Dict) : M unit :=
  let* now := utcnow in
  let* db := get_db in
  put_db (log_adaptation now event_type description details db).

Definition db_create_schema_type (name : string) (evolved_from : option string)
    : M SchemaType :=
  let* now := utcnow in
  let* now_log := utcnow in
  let* db := get_db in
  let r := create_schema_type now now_log name evolved_from db in
  put_db r.1 ;; ret r.2.

Definition db_record_query (latency_ms : Q) (used_llm : bool) : M unit :=
  let* db := get_db in put_db (record_query latency_ms used_llm db).

Definition db_clear_all : M unit :=
  let* db := get_db in put_db (clear_all db).

(** [self.embeddings.add_node] *)
Definition embeddings_add_node (node_id0 : Id) (text : string) (metadata : Dict)
    : M unit :=
  let* e := get_embeddings in
  put_embeddings (emb_add_node C node_id0 text metadata e).

(** [self.embeddings.delete_node] *)
Definition embeddings_delete_node (node_id0 : Id) : M unit :=
  let* e := get_embeddings in
  put_embeddings (emb_delete_node C node_id0 e).

(** [self._type_counts[k] += n]; a [Counter] reads 0 for a missing key. *)
Definition type_counts_add (k : string) (n : Z) : M unit :=
  let* c := get_type_counts in
  put_type_counts (<[k := default 0 (c !! k) + n]> c).

(** *** Ingestion *)

(** [GraphService._find_or_create_entity] *)
Definition _find_or_create_entity (extracted : ExtractedEntity) : M Node :=
  let normalized := normalize_entity_text (ent_text extracted) in
  let* existing := db_find_node_by_name normalized in
  match existing with
  | Some existing =>
      db_update_node_access (node_id existing) ;;
      ret existing
  | None =>
      let entity_type := dict_get type_mapping (ent_label extracted) "thing" in
      let* node :=
        db_create_node (ent_text extracted) entity_type None
          (Some [("original_label"%string, JStr (ent_label extracted));
                 ("extraction_score"%string, JFloat (ent_score extracted))]) in
      embeddings_add_node (node_id node) (ent_text extracted)
        [("entity_type"%string, JStr entity_type)] ;;
      type_counts_add entity_type 1 ;;
      ret node
  end.

(** The inner loop of [_auto_link_similar], for one [node_a]. *)
Definition auto_link_pair (node_a : Node) (edges : list Edge) (node_b : Node)
    : M (list Edge) :=
  let* existing := db_find_edge (node_id node_a) (node_id node_b) in
  match existing with
  | Some existing =>
      db_boost_edge (edge_id existing) 0.2 ;;
      ret edges
  | None =>
      let similarity := emb_compute_similarity C (node_name node_a) (node_name node_b) in
      if Qlt_le_dec SIMILARITY_THRESHOLD similarity then
        let* edge :=
          db_create_edge (node_id node_a) (node_id node_b) "co_occurs" similarity
            (Some [("similarity"%string, JFloat similarity)]) in
        ret (edges ++ [edge])
      else ret edges
  end.

(** The outer loop of [_auto_link_similar]: [node_a] with the nodes after it,
    [entity_nodes[i+1:]]. *)
Fixpoint auto_link_loop (entity_nodes : list Node) (edges : list Edge)
    : M (list Edge) :=
  match entity_nodes with
  | [] => ret edges
  | node_a :: rest =>
      let* edges' := for_each rest (auto_link_pair node_a) edges in
      auto_link_loop rest edges'
  end.

(** [GraphService._auto_link_similar] *)
Definition _auto_link_similar (source_node : Node) (entity_nodes : list Node)
    : M (list Edge) :=
  auto_link_loop entity_nodes [].

(** [GraphService._link_to_similar_notes] *)
Definition _link_to_similar_notes (note_node : Node) : M (list Edge) :=
  let* e := get_embeddings in
  let similar := emb_get_similar_nodes C (node_id note_node) 3 e in
  for_each similar
    (fun edges sim =>
       if Qlt_le_dec SIMILARITY_THRESHOLD (hit_similarity sim) then
         let* similar_node := db_get_node (hit_id sim) in
         match similar_node with
         | Some similar_node =>
             if String.eqb (node_entity_type similar_node) "note" then
               let* edge :=
                 db_create_edge (node_id note_node) (hit_id sim) "similar_to"
                   (hit_similarity sim)
                   (Some [("similarity"%string, JFloat (hit_similarity sim))]) in
               ret (edges ++ [edge])
             else ret edges
         | None => ret edges
         end
       else ret edges)
    [].

(** The body of the loop of [_check_type_promotions]; [schema_types] is the
    set of names read before the loop. *)
Definition promote_if_due (schema_types : list string) (_ : unit)
    (item : string * Z) : M unit :=
  let '(entity_type, count) := item in
  if negb (existsb (String.eqb entity_type) schema_types)
     && (TYPE_PROMOTION_THRESHOLD <=? count) then
    db_create_schema_type entity_type None ;;
    db_log_adaptation "type_promoted"
      ("Entity type '" ++ entity_type ++ "' promoted to schema type ("
       ++ Text.str_int count ++ " entities)")%string
      (Some [("type"%string, JStr entity_type); ("count"%string, JInt count)])
  else ret tt.

(** [GraphService._check_type_promotions] *)
Definition _check_type_promotions : M unit :=
  let* types := db_get_schema_types in
  let schema_types := List.map stype_name types in
  let* db := get_db in
  let all_nodes := get_all_nodes db in
  let type_counts := Counter (List.map node_entity_type all_nodes) in
  for_each type_counts (promote_if_due schema_types) tt.

(** [GraphService._check_adaptations] *)
Definition _check_adaptations : M unit :=
  _check_type_promotions ;;
  db_decay_edges 0.995.

(** The first part of [add_note], up to the linking of the note's entities:
    the start reading, the note node, the entities with their "mentions"
    edges, and the two automatic linkers. It returns the local variables
    [start] and [(note_node, entity_nodes, created_edges)]. *)
Definition add_note_link (note : Note) : M (Q * (Node * list Node * list Edge)) :=
  let* start := perf_counter in
  let note_text :=
    Text.strip (str_or (note_title note) "" ++ String "010" (note_content note))%string in
  let* note_node :=
    db_create_node
      (str_or (note_title note) (Text.prefix 50 (note_content note) ++ "...")%string)
      "note" (Some (note_content note))
      (Some [("tags"%string, JStrs (note_tags note))]) in
  embeddings_add_node (node_id note_node) note_text
    [("entity_type"%string, JStr "note")] ;;
  let extracted :=
    EntityExtractor.extract_clean (predict_entities C) (note_content note) None 0.3 in
  let* linked :=
    for_each extracted
      (fun (st : list Node * list Edge) ent =>
         let* entity_node := _find_or_create_entity ent in
         let* edge :=
           db_create_edge (node_id note_node) (node_id entity_node) "mentions"
             (ent_score ent)
             (Some [("extraction_score"%string, JFloat (ent_score ent))]) in
         ret (st.1 ++ [entity_node], st.2 ++ [edge]))
      ([], []) in
  let entity_nodes := linked.1 in
  let created_edges := linked.2 in
  let* auto_edges := _auto_link_similar note_node entity_nodes in
  let created_edges := created_edges ++ auto_edges in
  let* similar_edges := _link_to_similar_notes note_node in
  let created_edges := created_edges ++ similar_edges in
  ret (start, (note_node, entity_nodes, created_edges)).

(** [GraphService.add_note] *)
Definition add_note (note : Note) : M (Node * list Node * list Edge) :=
  let* linked := add_note_link note in
  let '(start, (note_node, entity_nodes, created_edges)) := linked in
  _check_adaptations ;;
  let* stop := perf_counter in
  let latency_ms := ((stop - start) * 1000)%Q in
  db_log_adaptation "note_added"
    ("Added note '" ++ node_name note_node ++ "' with "
     ++ Text.str_int (Z.of_nat (length entity_nodes)) ++ " entities")%string
    (Some [("latency_ms"%string, JFloat latency_ms);
           ("entity_count"%string, JInt (Z.of_nat (length entity_nodes)))]) ;;
  ret (note_node, entity_nodes, created_edges).

(** *** Query *)

(** The local variables of [query] and [query_streaming]. *)
Record Locals := mkLocals {
  l_nodes : list Node;
  l_traversed_path : list Id;
  l_expanded_nodes : gset Id;
  l_edges : list Edge
}.

Definition traversal_message (phase : string) (node : option Id) (edge : option Id)
    (score : option Q) (delay_ms : Z) : Message :=
  mkMessage "query_traversal" phase node edge score delay_ms.

(** The loop over [search_results] of [query]; [acc] is
    [(nodes, traversed_path)]. *)
Definition search_step (acc : list Node * list Id) (result : SearchHit)
    : M (list Node * list Id) :=
  let* node := db_get_node (hit_id result) in
  match node with
  | Some node =>
      db_update_node_access (node_id node) ;;
      ret (acc.1 ++ [node], acc.2 ++ [node_id node])
  | None => ret acc
  end.

(** The same loop in [query_streaming]. *)
Definition search_step_streaming (acc : list Node * list Id) (result : SearchHit)
    : M (list Node * list Id) :=
  let* node := db_get_node (hit_id result) in
  match node with
  | Some node =>
      db_update_node_access (node_id node) ;;
      broadcast (traversal_message "embedding_search" (Some (node_id node)) None
                   (Some (hit_similarity result)) 120) ;;
      ret (acc.1 ++ [node], acc.2 ++ [node_id node])
  | None => ret acc
  end.

(** [edge.target_id if edge.source_id == node.id else edge.source_id] *)
Definition other_end (node : Node) (edge : Edge) : Id :=
  if Nat.eqb (edge_source_id edge) (node_id node) then edge_target_id edge
  else edge_source_id edge.

(** The loop over [node_edges] of [query], for one [node]. *)
Definition expand_step (node : Node) (l : Locals) (edge : Edge) : M Locals :=
  db_boost_edge (edge_id edge) 0.1 ;;
  let edges := l_edges l ++ [edge] in
  let other_id := other_end node edge in
  if bool_decide (other_id ∈ l_expanded_nodes l)
  then ret (mkLocals (l_nodes l) (l_traversed_path l) (l_expanded_nodes l) edges)
  else
    let* other_node := db_get_node other_id in
    match other_node with
    | Some other_node =>
        ret (mkLocals (l_nodes l ++ [other_node]) (l_traversed_path l ++ [other_id])
                      (l_expanded_nodes l ∪ {[other_id]}) edges)
    | None => ret (mkLocals (l_nodes l) (l_traversed_path l) (l_expanded_nodes l) edges)
    end.

(** The same loop in [query_streaming]. *)
Definition expand_step_streaming (node : Node) (l : Locals) (edge : Edge) : M Locals :=
  db_boost_edge (edge_id edge) 0.1 ;;
  let edges := l_edges l ++ [edge] in
  broadcast (traversal_message "edge_expansion" (Some (node_id node))
               (Some (edge_id edge)) None 100) ;;
  let other_id := other_end node edge in
  if bool_decide (other_id ∈ l_expanded_nodes l)
  then ret (mkLocals (l_nodes l) (l_traversed_path l) (l_expanded_nodes l) edges)
  else
    let* other_node := db_get_node other_id in
    match other_node with
    | Some other_node =>
        broadcast (traversal_message "edge_expansion" (Some other_id) None
                     (Some (edge_weight edge * 0.7)%Q) 120) ;;
        ret (mkLocals (l_nodes l ++ [other_node]) (l_traversed_path l ++ [other_id])
                      (l_expanded_nodes l ∪ {[other_id]}) edges)
    | None => ret (mkLocals (l_nodes l) (l_traversed_path l) (l_expanded_nodes l) edges)
    end.

(** The loop over [nodes[:5]]: the edges of one node are fetched, then
    walked. *)
Definition expand_node (l : Locals) (node : Node) : M Locals :=
  let* node_edges := db_get_edges_for_node (node_id node) in
  for_each node_edges (expand_step node) l.

Definition expand_node_streaming (l : Locals) (node : Node) : M Locals :=
  let* node_edges := db_get_edges_for_node (node_id node) in
  for_each node_edges (expand_step_streaming node) l.

(** The loop over [query_entities] of [query]. *)
Definition match_step (l : Locals) (ent : ExtractedEntity) : M Locals :=
  let* matching := db_find_node_by_name (ent_text ent) in
  match matching with
  | Some matching =>
      if bool_decide (node_id matching ∈ l_expanded_nodes l) then ret l
      else ret (mkLocals (l_nodes l ++ [matching])
                         (l_traversed_path l ++ [node_id matching])
                         (l_expanded_nodes l) (l_edges l))
  | None => ret l
  end.

(** The same loop in [query_streaming]. *)
Definition match_step_streaming (l : Locals) (ent : ExtractedEntity) : M Locals :=
  let* matching := db_find_node_by_name (ent_text ent) in
  match matching with
  | Some matching =>
      if bool_decide (node_id matching ∈ l_expanded_nodes l) then ret l
      else
        broadcast (traversal_message "entity_match" (Some (node_id matching)) None
                     (Some 0.95%Q) 120) ;;
        ret (mkLocals (l_nodes l ++ [matching])
                      (l_traversed_path l ++ [node_id matching])
                      (l_expanded_nodes l) (l_edges l))
  | None => ret l
  end.

(** The first three phases of [query]. *)
Definition search_phase (query_text : string) (max_results : Z) : M Locals :=
  let* e := get_embeddings in
  let search_results := emb_search C query_text max_results e in
  let* found := for_each search_results search_step ([], []) in
  ret (mkLocals found.1 found.2 (list_to_set (List.map node_id found.1)) []).

Definition expansion_phase (l : Locals) : M Locals :=
  for_each (firstn 5 (l_nodes l)) expand_node l.

Definition entity_phase (query_text : string) (l : Locals) : M Locals :=
  let query_entities :=
    EntityExtractor.extract_with_context (predict_entities C) query_text None 0.3 in
  for_each query_entities match_step l.

(** The first three phases of [query_streaming]. *)
Definition search_phase_streaming (query_text : string) (max_results : Z) : M Locals :=
  let* e := get_embeddings in
  let search_results := emb_search C query_text max_results e in
  let* found := for_each search_results search_step_streaming ([], []) in
  ret (mkLocals found.1 found.2 (list_to_set (List.map node_id found.1)) []).

Definition expansion_phase_streaming (l : Locals) : M Locals :=
  for_each (firstn 5 (l_nodes l)) expand_node_streaming l.

Definition entity_phase_streaming (query_text : string) (l : Locals) : M Locals :=
  let query_entities :=
    EntityExtractor.extract_with_context (predict_entities C) query_text None 0.3 in
  for_each query_entities match_step_streaming l.

(** The context handed to the generation service. *)
Definition context_nodes_of (nodes : list Node) : list ContextNode :=
  List.map (fun n => mkContextNode (node_name n) (node_entity_type n)
                       (str_or (node_content n) (node_name n)))
           (firstn 10 nodes).

Definition context_edge_step (acc : list ContextEdge) (e : Edge) : M (list ContextEdge) :=
  let* source := db_get_node (edge_source_id e) in
  let* target := db_get_node (edge_target_id e) in
  match source, target with
  | Some source, Some target =>
      ret (acc ++ [mkContextEdge (node_name source) (node_name target)
                                 (edge_relation_type e)])
  | _, _ => ret acc
  end.

Definition context_edges_of (edges : list Edge) : M (list ContextEdge) :=
  for_each (firstn 5 edges) context_edge_step [].

(** The body of the loop of [_check_query_adaptations]. *)
Definition query_promote_step (_ : unit) (item : string * Z) : M unit :=
  let '(entity_type, count) := item in
  if 3 <=? count then
    type_counts_add entity_type count ;;
    let* counts := get_type_counts in
    if TYPE_PROMOTION_THRESHOLD <=? default 0 (counts !! entity_type) then
      let* types := db_get_schema_types in
      let schema_types := List.map stype_name types in
      if existsb (String.eqb entity_type) schema_types then ret tt
      else
        db_create_schema_type entity_type None ;;
        ret tt
    else ret tt
  else ret tt.

(** [GraphService._check_query_adaptations] *)
Definition _check_query_adaptations (query : string) (accessed_nodes : list Node)
    : M unit :=
  let type_access := Counter (List.map node_entity_type accessed_nodes) in
  for_each type_access query_promote_step tt.

(** The condition [use_llm and self.llm.is_available() and nodes]. *)
Definition generation_due (use_llm : bool) (nodes : list Node) : bool :=
  use_llm && llm_is_available C
  && match nodes with [] => false | _ => true end.

(** [GraphService.query] *)
Definition query (query_text : string) (use_llm : bool) (max_results : Z)
    : M QueryResult :=
  let* start := perf_counter in
  let* l1 := search_phase query_text max_results in
  let* l2 := expansion_phase l1 in
  let* l := entity_phase query_text l2 in
  let nodes := l_nodes l in
  let edges := l_edges l in
  let* answer :=
    if generation_due use_llm nodes then
      let context_nodes := context_nodes_of nodes in
      let* context_edges := context_edges_of edges in
      let* response := generate_response query_text context_nodes context_edges in
      ret (Some response, true)
    else ret (None, false) in
  let '(response, used_llm) := answer in
  let* stop := perf_counter in
  let latency_ms := ((stop - start) * 1000)%Q in
  db_record_query latency_ms used_llm ;;
  _check_query_adaptations query_text nodes ;;
  ret (mkQueryResult nodes edges (l_traversed_path l) response latency_ms used_llm).

(** [GraphService.query_streaming]; [broadcast] is the channel of the
    world. *)
Definition query_streaming (query_text : string) (use_llm : bool) (max_results : Z)
    : M QueryResult :=
  let* start := perf_counter in
  let* l1 := search_phase_streaming query_text max_results in
  let* l2 := expansion_phase_streaming l1 in
  let* l := entity_phase_streaming query_text l2 in
  let nodes := l_nodes l in
  let edges := l_edges l in
  let* answer :=
    if generation_due use_llm nodes then
      broadcast (traversal_message "llm_thinking" None None None 250) ;;
      let context_nodes := context_nodes_of nodes in
      let* context_edges := context_edges_of edges in
      let* response := generate_response query_text context_nodes context_edges in
      ret (Some response, true)
    else ret (None, false) in
  let '(response, used_llm) := answer in
  let* stop := perf_counter in
  let latency_ms := ((stop - start) * 1000)%Q in
  db_record_query latency_ms used_llm ;;
  _check_query_adaptations query_text nodes ;;
  broadcast (traversal_message "complete" None None None 50) ;;
  ret (mkQueryResult nodes edges (l_traversed_path l) response latency_ms used_llm).

(** The start reading and the first three phases of [query], and of
    [query_streaming]: the local variables when phase 4 begins. *)
Definition traversal (query_text : string) (max_results : Z) : M Locals :=
  let* start := perf_counter in
  let* l1 := search_phase query_text max_results in
  let* l2 := expansion_phase l1 in
  entity_phase query_text l2.

Definition traversal_streaming (query_text : string) (max_results : Z) : M Locals :=
  let* start := perf_counter in
  let* l1 := search_phase_streaming query_text max_results in
  let* l2 := expansion_phase_streaming l1 in
  entity_phase_streaming query_text l2.

(** *** Start and reset *)

(** [GraphService._refresh_type_counts] *)
Definition _refresh_type_counts : M unit :=
  let* types := db_get_schema_types in
  for_each types
    (fun _ t =>
       let* c := get_type_counts in
       put_type_counts (<[stype_name t := stype_count t]> c))
    tt.

(** The position of a seed type in [seed_types]: the reading of the clock
    that [_init_schema] makes for it. *)
Fixpoint index_of (t : string) (l : list string) : nat :=
  match l with
  | [] => 0
  | x :: l' => if String.eqb x t then 0 else S (index_of t l')
  end.

(** [GraphService.__init__] on the database file [file] and the collection
    [collection]: the world of a service that has just started. *)
Definition start (file : Database) (collection : Collection C) : World C :=
  let now t := utcnow_at C (index_of t seed_types) in
  run _refresh_type_counts
      (mkWorld (_init_schema now file) collection ∅ 0 (length seed_types) [] []).

(** The route [/clear]: [db.clear_all()], [embeddings.clear_all()] leaving
    the empty collection [fresh], [_type_counts.clear()] and
    [_refresh_type_counts()]. *)
Definition clear_graph (fresh : Collection C) : M unit :=
  db_clear_all ;;
  put_embeddings fresh ;;
  put_type_counts ∅ ;;
  _refresh_type_counts.

(** *** Merge *)

(** The body of the loop over the edges of an absorbed node. *)
Definition merge_edge (keep_id merge_id : Id) (_ : unit) (edge : Edge) : M unit :=
  if Nat.eqb (edge_source_id edge) merge_id then
    db_create_edge keep_id (edge_target_id edge) (edge_relation_type edge)
      (edge_weight edge) None ;;
    ret tt
  else
    db_create_edge (edge_source_id edge) keep_id (edge_relation_type edge)
      (edge_weight edge) None ;;
    ret tt.

(** [GraphService.merge_entities]; [None] is the [ValueError] raised when
    [keep_id] names no node. *)
Definition merge_entities (keep_id : Id) (merge_ids : list Id) : M (option Node) :=
  let* keep_node := db_get_node keep_id in
  match keep_node with
  | None => ret None
  | Some keep_node =>
      for_each merge_ids
        (fun _ merge_id =>
           let* merge_node := db_get_node merge_id in
           match merge_node with
           | None => ret tt
           | Some _ =>
               let* edges := db_get_edges_for_node merge_id in
               for_each edges (merge_edge keep_id merge_id) tt ;;
               embeddings_delete_node merge_id
           end)
        tt ;;
      db_log_adaptation "entities_merged"
        ("Merged " ++ Text.str_int (Z.of_nat (length merge_ids)) ++ " entities into '"
         ++ node_name keep_node ++ "'")%string
        (Some [("kept"%string, JId keep_id); ("merged"%string, JIds merge_ids)]) ;;
      ret (Some keep_node)
  end.

(** *** Edge actions *)

(** [GraphService.confirm_edge] *)
Definition confirm_edge (edge_id0 : Id) : M unit :=
  db_boost_edge edge_id0 0.5 ;;
  db_log_adaptation "edge_confirmed" "User confirmed edge"
    (Some [("edge_id"%string, JId edge_id0)]).

(** The statement [UPDATE edges SET weight = 0.1 WHERE id = ?] of
    [reject_edge]. *)
Definition set_weight_floor (edge_id0 : Id) (db : Database) : Database :=
  set_edges db
    (List.map (fun e =>
       if Nat.eqb (edge_id e) edge_id0
       then mkEdge (edge_id e) (edge_source_id e) (edge_target_id e)
                   (edge_relation_type e) 0.1%Q (edge_metadata e) (edge_created_at e)
                   (edge_last_traversed e) (edge_traversal_count e)
       else e) (edges db)).

(** [GraphService.reject_edge] *)
Definition reject_edge (edge_id0 : Id) : M unit :=
  let* db := get_db in
  put_db (set_weight_floor edge_id0 db) ;;
  db_log_adaptation "edge_rejected" "User rejected edge"
    (Some [("edge_id"%string, JId edge_id0)]).

(** *** The calls the routes make on the service *)

Inductive Call : Type :=
| CallAddNote (note : Note)
| CallQuery (query_text : string) (use_llm : bool) (max_results : Z)
| CallQueryStreaming (query_text : string) (use_llm : bool) (max_results : Z)
| CallMergeEntities (keep_id : Id) (merge_ids : list Id)
| CallConfirmEdge (edge_id0 : Id)
| CallRejectEdge (edge_id0 : Id)
| CallClearGraph (fresh : Collection C).

Definition perform (call : Call) : M unit :=
  match call with
  | CallAddNote note => add_note note ;; ret tt
  | CallQuery query_text use_llm max_results =>
      query query_text use_llm max_results ;; ret tt
  | CallQueryStreaming query_text use_llm max_results =>
      query_streaming query_text use_llm max_results ;; ret tt
  | CallMergeEntities keep_id merge_ids => merge_entities keep_id merge_ids ;; ret tt
  | CallConfirmEdge edge_id0 => confirm_edge edge_id0
  | CallRejectEdge edge_id0 => reject_edge edge_id0
  | CallClearGraph fresh => clear_graph fresh
  end.

(** The world after a sequence of calls. *)
Definition perform_all (calls : list Call) (w : World C) : World C :=
  fold_left (fun w call => run (perform call) w) calls w.

End Service.

End GraphService.

(** ** Operations on the store, and the vocabulary of the properties *)

(** One statement-level mutation of the database file: the mutating methods
    of [Database], and the [UPDATE] that [GraphService.reject_edge] issues
    on the connection directly. *)
Inductive Op : Type :=
| OpInitSchema (now : string -> Time)
| OpCreateNode (new_id : Id) (now : Time) (name entity_type : string)
    (content : option string) (metadata : option Dict)
| OpUpdateNodeAccess (now : Time) (node_id0 : Id)
| OpCreateEdge (new_id : Id) (now : Time) (source_id target_id : Id)
    (relation_type : string) (weight : Q) (metadata : option Dict)
| OpBoostEdge (now : Time) (edge_id0 : Id) (boost_amount : Q)
| OpDecayEdges (decay_factor : Q)
| OpCreateSchemaType (now now_log : Time) (name : string) (evolved_from : option string)
| OpLogAdaptation (now : Time) (event_type description : string) (details : option Dict)
| OpRecordQuery (latency_ms : Q) (used_llm : bool)
| OpClearAll
| OpSetWeightFloor (edge_id0 : Id).

Definition apply_op (op : Op) (db : Database) : Database :=
  match op with
  | OpInitSchema now => _init_schema now db
  | OpCreateNode new_id now name entity_type content metadata =>
      (create_node new_id now name entity_type content metadata db).1
  | OpUpdateNodeAccess now node_id0 => update_node_access now node_id0 db
  | OpCreateEdge new_id now source_id target_id relation_type weight metadata =>
      (create_edge new_id now source_id target_id relation_type weight metadata db).1
  | OpBoostEdge now edge_id0 boost_amount => boost_edge now edge_id0 boost_amount db
  | OpDecayEdges decay_factor => decay_edges decay_factor db
  | OpCreateSchemaType now now_log name evolved_from =>
      (create_schema_type now now_log name evolved_from db).1
  | OpLogAdaptation now event_type description details =>
      log_adaptation now event_type description details db
  | OpRecordQuery latency_ms used_llm => record_query latency_ms used_llm db
  | OpClearAll => clear_all db
  | OpSetWeightFloor edge_id0 => GraphService.set_weight_floor edge_id0 db
  end.

Definition run_ops (ops : list Op) (db : Database) : Database :=
  fold_left (fun d op => apply_op op d) ops db.

(** The store of a new installation: [_init_schema] on a file that did not
    exist. *)
Definition new_database (now : string -> Time) : Database :=
  _init_schema now empty_database.

(** Every node's type has a row in the registry. *)
Definition types_registered (db : Database) : Prop :=
  forall n, In n (nodes db) -> is_Some (schema_types db !! node_entity_type n).

(** The seed types are in the registry, as seed rows. *)
Definition seeds_present (db : Database) : Prop :=
  forall t, In t seed_types ->
    exists r, schema_types db !! t = Some r /\ st_is_seed r = true.

(** The weight range of the data model. *)
Definition weight_in_range (e : Edge) : Prop :=
  (0.1 <= edge_weight e)%Q /\ (edge_weight e <= 10)%Q.

(** The number of nodes of a type, as the [Counter] over all nodes has it. *)
Definition count_type (entity_type : string) (l : list Node) : Z :=
  Z.of_nat (length (List.filter (fun n => String.eqb (node_entity_type n) entity_type) l)).

(** The first count a [Counter] lists for a key, 0 when it lists none. *)
Fixpoint counter_get (k : string) (c : list (string * Z)) : Z :=
  match c with
  | [] => 0
  | (k', n) :: c' => if String.eqb k' k then n else counter_get k c'
  end.

(** The row a promotion creates. *)
Definition promoted_row (now : Time) : SchemaRow := mkSchemaRow 0 false None now.

(** The adaptation event of a promotion of [entity_type] at [count] nodes. *)
Definition is_promotion_event (entity_type : string) (count : Z)
    (ev : AdaptationEvent) : Prop :=
  ev_event_type ev = "type_promoted"%string
  /\ ev_details ev = [("type"%string, JStr entity_type); ("count"%string, JInt count)].

(** Between the stores [db] and [db'] the type was promoted: [db'] has the
    row of a promotion for it, and the log grew by events among which is the
    promotion event, with the count of the type's nodes in [db]. *)
Definition promoted (entity_type : string) (db db' : Database) : Prop :=
  (exists now, schema_types db' !! entity_type = Some (promoted_row now))
  /\ exists evs ev,
       adaptation_events db' = adaptation_events db ++ evs
       /\ In ev evs
       /\ is_promotion_event entity_type (count_type entity_type (nodes db)) ev.

(** The order by which [merge_overlapping] sorts: start ascending, then
    score descending. *)
Definition span_le (a b : ExtractedEntity) : Prop :=
  ent_start a < ent_start b
  \/ (ent_start a = ent_start b /\ (ent_score b <= ent_score a)%Q).

(** The sweep of [mergeOverlapping] as the specification words it: a
    candidate that starts before the current span ends overlaps it, and the
    higher-scoring of the two stays current; otherwise the current span is
    emitted and the candidate becomes current. *)
Definition overlaps (candidate current : ExtractedEntity) : bool :=
  ent_start candidate <? ent_end current.

Definition higher_scoring (current candidate : ExtractedEntity) : ExtractedEntity :=
  if Qlt_le_dec (ent_score current) (ent_score candidate) then candidate else current.

Fixpoint spec_sweep (current : ExtractedEntity) (candidates : list ExtractedEntity)
    : list ExtractedEntity :=
  match candidates with
  | [] => [current]
  | candidate :: rest =>
      if overlaps candidate current
      then spec_sweep (higher_scoring current candidate) rest
      else current :: spec_sweep candidate rest
  end.

Definition spec_merge_overlapping (spans : list ExtractedEntity) : list ExtractedEntity :=
  match EntityExtractor.sorted spans with
  | [] => []
  | first :: rest => spec_sweep first rest
  end.

(** ** Sample data *)

Module Sample.

Definition edge (weight : Q) : Edge := mkEdge 0 1 2 "mentions" weight [] 0 None 0.

(** A store with one edge of weight 0.5. *)
Definition one_edge_db : Database := set_edges empty_database [edge 0.5].

Definition clock (t : string) : Time := 0.

End Sample.

Module SampleStore.

(** A new store, then a node of an ad-hoc type. *)
Definition with_concept : Database :=
  apply_op (OpCreateNode 0 7 "attention" "concept" None None) (new_database Sample.clock).

(** A registry holding one ad-hoc type next to the seed types. *)
Definition promoted_once : Database :=
  (create_schema_type 3 4 "concept" None (new_database Sample.clock)).1.

End SampleStore.

Module SampleSpans.

(** The spans (0,5), (3,8) and (10,15) with scores 0.9, 0.6 and 0.8. *)
Definition spans : list ExtractedEntity :=
  [mkEntity "Alice" "person" 0 5 0.9; mkEntity "ce Sm" "person" 3 8 0.6;
   mkEntity "Paris" "location" 10 15 0.8].

Definition bounds (e : ExtractedEntity) : Z * Z := (ent_start e, ent_end e).

End SampleSpans.

(** ** Reasoning about runs of the service *)

Section Runs.

Context {C : Collaborators}.

(** Every run of [m] relates the world before to the world after. *)
Definition respects {A} (R : World C -> World C -> Prop) (m : M C A) : Prop :=
  forall w, R w (m w).2.

(** [m] keeps the state predicate [P]. *)
Definition keeps {A} (P : World C -> Prop) (m : M C A) : Prop :=
  respects (fun w w' => P w -> P w') m.

(** The run left [f] of the world alone. *)
Definition unchanged {X} (f : World C -> X) (w w' : World C) : Prop := f w' = f w.

(** The run broadcast the messages of a trace in the language [L], and
    nothing else. *)
Definition emits (L : list Message -> Prop) (w w' : World C) : Prop :=
  exists evs, w_sent w' = w_sent w ++ evs /\ L evs.

(** The run only appended to the adaptation log. *)
Definition log_extended (w w' : World C) : Prop :=
  exists evs, adaptation_events (w_db w') = adaptation_events (w_db w) ++ evs.

(** The registry has no row for [entity_type], or the row of a promotion. *)
Definition free_or_promoted (entity_type : string) (w : World C) : Prop :=
  schema_types (w_db w) !! entity_type = None
  \/ exists now, schema_types (w_db w) !! entity_type = Some (promoted_row now).

Definition has_promoted_row (entity_type : string) (w : World C) : Prop :=
  exists now, schema_types (w_db w) !! entity_type = Some (promoted_row now).

(** The run changed the store by statements of [Op] only. *)
Definition db_reached (w w' : World C) : Prop :=
  exists ops, w_db w' = run_ops ops (w_db w).

End Runs.

(** What a run broadcast: the messages sent after those of [w]. *)
Definition emitted_since {C : Collaborators} (w w' : World C) : list Message :=
  drop (length (w_sent w)) (w_sent w').

(** A set of traces that has the empty trace and is closed under
    concatenation. *)
Class TraceLanguage (L : list Message -> Prop) : Prop := {
  trace_nil : L [];
  trace_app : forall a b, L a -> L b -> L (a ++ b)
}.

(** The traces of the phases of [query_streaming]. *)
Definition in_phase (phase : string) (evs : list Message) : Prop :=
  Forall (fun ev => msg_type ev = "query_traversal"%string /\ msg_phase ev = phase) evs.

Definition silent (evs : list Message) : Prop := evs = [].

(** An edge event of phase 2: the node being expanded and the edge walked. *)
Definition is_edge_event (ev : Message) : Prop :=
  msg_type ev = "query_traversal"%string
  /\ msg_phase ev = "edge_expansion"%string
  /\ is_Some (msg_node_id ev) /\ is_Some (msg_edge_id ev) /\ msg_score ev = None.

(** A discovery event of phase 2: it names a node and no edge, and carries
    a score. *)
Definition is_discovery_event (ev : Message) : Prop :=
  msg_type ev = "query_traversal"%string
  /\ msg_phase ev = "edge_expansion"%string
  /\ is_Some (msg_node_id ev) /\ msg_edge_id ev = None /\ is_Some (msg_score ev).

(** The edge event [ev] is the one that exposed the node of the discovery
    event [found]: [found] names the other end of the edge [ev] names, seen
    from the node [ev] names, and its score is that edge's weight times 0.7. *)
Definition exposes (ev found : Message) : Prop :=
  exists node edge,
    msg_node_id ev = Some (node_id node)
    /\ msg_edge_id ev = Some (edge_id edge)
    /\ msg_node_id found = Some (GraphService.other_end node edge)
    /\ msg_score found = Some (edge_weight edge * 0.7)%Q.

(** The traces of phase 2: each edge event alone or followed at once by the
    discovery event of the node it exposed. *)
Inductive expansion_trace : list Message -> Prop :=
| expansion_done : expansion_trace []
| expansion_edge ev rest :
    is_edge_event ev -> expansion_trace rest -> expansion_trace (ev :: rest)
| expansion_discovery ev found rest :
    is_edge_event ev -> is_discovery_event found -> exposes ev found ->
    expansion_trace rest -> expansion_trace (ev :: found :: rest).

Section GenerationRule.

Context (C : Collaborators).
Import GraphService.

(** What C7 asks of a query that was run from [w] to [w'] with result [r],
    [l] being the local variables after its first three phases. *)
Definition generation_rule (query_text : string) (use_llm : bool) (l : Locals)
    (r : QueryResult) (w w' : World C) : Prop :=
  (qr_nodes r = l_nodes l /\ qr_edges r = l_edges l
   /\ qr_traversed_path r = l_traversed_path l)
  /\ qr_used_llm r = generation_due C use_llm (qr_nodes r)
  /\ (qr_used_llm r = true ->
      exists call,
        gen_query call = query_text
        /\ qr_response r
           = Some (llm_generate_response C query_text (gen_context_nodes call)
                     (gen_context_edges call))
        /\ w_generated w' = w_generated w ++ [call])
  /\ (qr_used_llm r = false ->
      qr_response r = None /\ w_generated w' = w_generated w)
  /\ (llm_is_available C = false ->
      qr_used_llm r = false /\ qr_response r = None
      /\ w_generated w' = w_generated w).

End GenerationRule.


Definition complete_event : Message :=
  GraphService.traversal_message "complete" None None None 50.




Module SampleService.

(** Collaborators for the examples. The collection is the list of the
    identifiers added with their texts; a search returns the entries whose
    text is the query, with similarity 0.9; no text is similar to another;
    the recognizer knows three texts; the generation service is down. *)
Definition recognize (text : string) (labels : list string) (threshold : Q)
    : list ExtractedEntity :=
  if String.eqb text "Flew to New  York" then
    [mkEntity "New  York" "location" 8 17 0.9]
  else if String.eqb text "Met Alice" then
    [mkEntity "Alice" "person" 4 9 0.9]
  else if String.eqb text "Does Alice know Alice" then
    [mkEntity "Alice" "person" 5 10 0.9; mkEntity "Alice" "person" 16 21 0.9]
  else [].

Definition collaborators : Collaborators :=
  {| Collection := list (Id * string);
     emb_add_node := fun i text _ col => col ++ [(i, text)];
     emb_search := fun q n col =>
       List.map (fun entry : Id * string => mkHit entry.1 0.9)
         (firstn (Z.to_nat n)
            (List.filter (fun entry : Id * string => String.eqb entry.2 q) col));
     emb_get_similar_nodes := fun _ _ _ => [];
     emb_delete_node := fun i col =>
       List.filter (fun entry : Id * string => negb (Nat.eqb entry.1 i)) col;
     emb_compute_similarity := fun _ _ => 0.5%Q;
     predict_entities := recognize;
     llm_is_available := false;
     llm_generate_response := fun _ _ _ => "answer"%string;
     utcnow_at := fun n => Z.of_nat n;
     perf_counter_at := fun n => inject_Z (Z.of_nat n) |}.

(** A service started on a new database file. *)
Definition started : World collaborators :=
  GraphService.start collaborators empty_database [].

(** The service after the note "Met Alice" was added: the note is node 0,
    the person Alice node 1, and a "mentions" edge links them. *)
Definition met_alice : Note := mkNote "Met Alice" None [].

Definition after_alice : World collaborators :=
  run (GraphService.add_note collaborators met_alice) started.


(** The note whose one entity is written with two spaces. *)
Definition new_york : Note := mkNote "Flew to New  York" None [].

Definition ingest (note : Note) (w : World collaborators) : World collaborators :=
  run (GraphService.add_note collaborators note) w.

(** The nodes of a type, as (id, name, normalized name, access count). *)
Definition nodes_of_type (entity_type : string) (w : World collaborators)
    : list (Id * string * string * Z) :=
  List.map (fun n => (node_id n, node_name n, normalize_entity_text (node_name n),
                      node_access_count n))
    (List.filter (fun n => String.eqb (node_entity_type n) entity_type)
                 (nodes (w_db w))).

(** The query whose text names Alice twice. *)
Definition alice_twice : string := "Does Alice know Alice".

Definition alice_matched : Message :=
  GraphService.traversal_message "entity_match" (Some 1%nat) None (Some 0.95%Q) 120.

(** A database file written before [create_node] registered types: five
    nodes of the type "concept", which has no row in the registry. *)
Definition concept_node (i : Id) : Node :=
  mkNode i "idea" "concept" None [] 0 0 0.

Definition legacy_db : Database :=
  mkDatabase (List.map concept_node [10; 11; 12; 13; 14]%nat) []
             (schema_types (new_database Sample.clock)) [] (mkMetrics 0 0 0%Q).

Definition legacy_service : World collaborators :=
  GraphService.start collaborators legacy_db [].

Definition plain_note : Note := mkNote "Nothing to extract" None [].

End SampleService.

(** ** Vocabulary of the further properties *)

(** Every character of a text satisfies [P]. *)
Fixpoint all_chars (P : ascii -> Prop) (s : string) : Prop :=
  match s with
  | EmptyString => True
  | String c rest => P c /\ all_chars P rest
  end.

(** A word as [str.split()] returns them: not empty, without white space. *)
Definition is_word (w : string) : Prop :=
  Text.is_empty w = false /\ all_chars (fun c => Text.isspace c = false) w.

(** Each span of the list ends no later than the next one starts. *)
Definition apart (a b : ExtractedEntity) : Prop := ent_end a <= ent_start b.

Definition no_adjacent_overlap (l : list ExtractedEntity) : Prop := Sorted apart l.

Definition starts_after (a b : ExtractedEntity) : Prop := ent_start a <= ent_start b.

(** The type filter of [find_node_by_name] that is in force: none when
    [entity_type] is absent or empty. *)
Definition type_filter (entity_type : option string) : option string :=
  match entity_type with
  | Some t => if Text.is_empty t then None else Some t
  | None => None
  end.

(** The row [n] answers the lookup of [name] under [entity_type]. *)
Definition name_matches (name : string) (entity_type : option string) (n : Node) : Prop :=
  Text.LOWER (node_name n) = Text.LOWER name
  /\ forall t, type_filter entity_type = Some t -> node_entity_type n = t.

(** The same as a test, as the WHERE clause has it. *)
Definition name_test (name : string) (entity_type : option string) (n : Node) : bool :=
  String.eqb (Text.LOWER (node_name n)) (Text.LOWER name)
  && match type_filter entity_type with
     | Some t => String.eqb (node_entity_type n) t
     | None => true
     end.



(** What no statement but [clear_all] changes of a node row, and of an edge
    row. *)
Definition node_key (n : Node) : Id * string * string * option string * Dict * Time :=
  (node_id n, node_name n, node_entity_type n, node_content n, node_metadata n,
   node_created_at n).

Definition edge_key (e : Edge) : Id * Id * Id * string * Dict * Time :=
  (edge_id e, edge_source_id e, edge_target_id e, edge_relation_type e,
   edge_metadata e, edge_created_at e).

Module SampleRows.

(** The node of [SampleStore.with_concept]. *)
Definition attention : Node := mkNode 0 "attention" "concept" None [] 7 7 0.

End SampleRows.




(** The rows of [db] are rows of [db'], in the same places: nothing was
    deleted, and nothing changed of a row but its counters, time stamps and
    weight. *)
Definition rows_kept (db db' : Database) : Prop :=
  List.map node_key (nodes db) `prefix_of` List.map node_key (nodes db')
  /\ List.map edge_key (edges db) `prefix_of` List.map edge_key (edges db').

(** The same, and no row was added. *)
Definition rows_same (db db' : Database) : Prop :=
  List.map node_key (nodes db') = List.map node_key (nodes db)
  /\ List.map edge_key (edges db') = List.map edge_key (edges db).

(** The statements that delete no row, and those that neither delete nor
    create one. *)
Definition deletes_no_row (op : Op) : Prop :=
  match op with OpClearAll => False | _ => True end.

Definition creates_no_row (op : Op) : Prop :=
  match op with
  | OpClearAll | OpCreateNode _ _ _ _ _ _ | OpCreateEdge _ _ _ _ _ _ _ => False
  | _ => True
  end.

(** The run changed the store by statements among the [allowed] ones. *)
Definition db_reached_by {C : Collaborators} (allowed : Op -> Prop) (w w' : World C)
    : Prop :=
  exists ops, Forall allowed ops /\ w_db w' = run_ops ops (w_db w).

Section Simulation.

Context {C : Collaborators}.

(** Two worlds that differ at most in what was broadcast. *)
Definition agree (w1 w2 : World C) : Prop :=
  w_db w1 = w_db w2
  /\ w_embeddings w1 = w_embeddings w2
  /\ w_type_counts w1 = w_type_counts w2
  /\ w_uuids w1 = w_uuids w2
  /\ w_ticks w1 = w_ticks w2
  /\ w_generated w1 = w_generated w2.

(** Run from worlds that agree, [m1] and [m2] return the same value and
    leave worlds that agree. *)
Definition simulates {A} (m1 m2 : M C A) : Prop :=
  forall w1 w2, agree w1 w2 ->
    (m1 w1).1 = (m2 w2).1 /\ agree (m1 w1).2 (m2 w2).2.

End Simulation.

(** The types the engine gives to the nodes it creates. *)
Definition created_types : list string :=
  ["note"; "person"; "place"; "thing"; "concept"; "project"]%string.

Definition creates_known_type (op : Op) : Prop :=
  match op with
  | OpCreateNode _ _ _ entity_type _ _ => In entity_type created_types
  | _ => True
  end.

Definition known_types (db : Database) : Prop :=
  forall n, In n (nodes db) -> In (node_entity_type n) created_types.

(** A weight of the data model's range. *)
Definition in_weight_range (q : Q) : Prop := (0.1 <= q)%Q /\ (q <= 10)%Q.

(** Every edge of the store of a world has a weight in the range. *)
Definition weights_ok {C : Collaborators} (w : World C) : Prop :=
  Forall weight_in_range (edges (w_db w)).

(** What the engine needs of its collaborators to keep the weights in range:
    the recognizer scores its entities in [0.1, 10], and no similarity is
    above 10 (a score of the recognizer is a probability above its threshold,
    a similarity a cosine). *)
Definition scores_in_range (C : Collaborators) : Prop :=
  (forall text labels threshold e,
     In e (predict_entities C text labels threshold) -> in_weight_range (ent_score e))
  /\ (forall a b, (emb_compute_similarity C a b <= 10)%Q)
  /\ (forall i n collection h,
        In h (emb_get_similar_nodes C i n collection) -> (hit_similarity h <= 10)%Q).

(** The assignment [_refresh_type_counts] makes for one schema type. *)
Definition refresh_step (c : gmap string Z) (t : SchemaType) : gmap string Z :=
  <[stype_name t := stype_count t]> c.

(** The adaptation log of the store of a world, and its nodes. *)
Definition log_of {C : Collaborators} (w : World C) : list AdaptationEvent :=
  adaptation_events (w_db w).

Definition nodes_of {C : Collaborators} (w : World C) : list Node := nodes (w_db w).

(** The run only appended events of the type [event_type] to the log. *)
Definition logs_only {C : Collaborators} (event_type : string) (w w' : World C) : Prop :=
  exists evs,
    log_of w' = log_of w ++ evs
    /\ Forall (fun ev => ev_event_type ev = event_type) evs.

(** The run stored new edges after the ones there were, and left the nodes
    and the adaptation log alone. *)
Definition only_adds_edges {C : Collaborators} (w w' : World C) : Prop :=
  nodes_of w' = nodes_of w
  /\ log_of w' = log_of w
  /\ edges (w_db w) `prefix_of` edges (w_db w').

(** The embeddings [merge_entities] leaves: the vector of every id of
    [merge_ids] that names a node of [db] was deleted, in the order of the
    list. *)
Definition absorbed_deleted (C : Collaborators) (db : Database) (merge_ids : list Id)
    (e : Collection C) : Collection C :=
  fold_left (fun e merge_id =>
               match get_node merge_id db with
               | Some _ => emb_delete_node C merge_id e
               | None => e
               end)
            merge_ids e.

(** ** The WebSocket manager

    [backend/app/api/websocket.py]. A connection is named by its identity:
    a [WebSocket] defines no equality of its own, so [in] and [list.remove]
    compare objects. A broadcast is taken on its own, no other coroutine
    changing the list while it awaits a send; whether the send at a position
    of the iteration raises is a parameter. *)
Module ConnectionManager.

Definition WebSocket : Type := nat.
Bind Scope nat_scope with WebSocket.

(** [list.remove]: the first occurrence goes. *)
Fixpoint remove (websocket : WebSocket) (l : list WebSocket) : list WebSocket :=
  match l with
  | [] => []
  | c :: l' => if Nat.eqb c websocket then l' else c :: remove websocket l'
  end.

(** [ConnectionManager.connect], after [websocket.accept()] returned. *)
Definition connect (websocket : WebSocket) (active_connections : list WebSocket)
    : list WebSocket :=
  active_connections ++ [websocket].

(** [ConnectionManager.disconnect] *)
Definition disconnect (websocket : WebSocket) (active_connections : list WebSocket)
    : list WebSocket :=
  if existsb (Nat.eqb websocket) active_connections
  then remove websocket active_connections
  else active_connections.

(** The first loop of [broadcast] from position [i] on: the list
    [disconnected], and the connections that got the message. *)
Fixpoint disconnected_from (raises : nat -> bool) (i : nat) (l : list WebSocket)
    : list WebSocket :=
  match l with
  | [] => []
  | connection :: l' =>
      if raises i then connection :: disconnected_from raises (S i) l'
      else disconnected_from raises (S i) l'
  end.

Fixpoint delivered_from (raises : nat -> bool) (i : nat) (l : list WebSocket)
    : list WebSocket :=
  match l with
  | [] => []
  | connection :: l' =>
      if raises i then delivered_from raises (S i) l'
      else connection :: delivered_from raises (S i) l'
  end.

(** [ConnectionManager.broadcast]: the active connections it leaves. *)
Definition broadcast (raises : nat -> bool) (active_connections : list WebSocket)
    : list WebSocket :=
  fold_left (fun active conn => disconnect conn active)
            (disconnected_from raises 0 active_connections)
            active_connections.

End ConnectionManager.

(** [m] returns a value that satisfies [P], from any world. *)
Definition returns {C : Collaborators} {A} (P : A -> Prop) (m : M C A) : Prop :=
  forall w, P (value m w).

(** The path lists the ids of the nodes, in their order. *)
Definition path_of_nodes (path : list Id) (nodes : list Node) : Prop :=
  path = List.map node_id nodes.

(** The same of the local variables of a query. *)
Definition locals_ok (l : GraphService.Locals) : Prop :=
  path_of_nodes (GraphService.l_traversed_path l) (GraphService.l_nodes l).

(** The count the registry holds for a type, 0 when it has no row. *)
Definition registry_count (t : string) (db : Database) : Z :=
  default 0 (st_count <$> schema_types db !! t).

(** The registry counts the nodes: the count of every type is the number of
    the nodes of that type, and a type without a row has no node. *)
Definition registry_counts_nodes (db : Database) : Prop :=
  forall t, registry_count t db = count_type t (nodes db).

(** The three kinds of edge the ingestion of a note creates: a "mentions"
    edge from the note, a "co_occurs" edge between two entities whose names
    are more similar than the threshold, and a "similar_to" edge from the
    note to a hit more similar than the threshold. *)
Definition ingestion_edge (note_id : Id) (e : Edge) : Prop :=
  (edge_relation_type e = "mentions"%string /\ edge_source_id e = note_id)
  \/ (edge_relation_type e = "co_occurs"%string
      /\ (GraphService.SIMILARITY_THRESHOLD < edge_weight e)%Q)
  \/ (edge_relation_type e = "similar_to"%string /\ edge_source_id e = note_id
      /\ (GraphService.SIMILARITY_THRESHOLD < edge_weight e)%Q).

(** Run from a world that satisfies [J], [m] leaves a world that satisfies it
    and returns a value that satisfies [P]. *)
Definition yields {C : Collaborators} {A} (J : World C -> Prop) (P : A -> Prop)
    (m : M C A) : Prop :=
  forall w, J w -> J (run m w) /\ P (value m w).

(** The type of the node has a row in the registry of [db0]. *)
Definition type_known (db0 : Database) (n : Node) : Prop :=
  is_Some (schema_types db0 !! node_entity_type n).

(** The store of the world has the registry and the adaptation log of [db0],
    and nodes of types that registry knows. *)
Definition registry_of {C : Collaborators} (db0 : Database) (w : World C) : Prop :=
  schema_types (w_db w) = schema_types db0
  /\ adaptation_events (w_db w) = adaptation_events db0
  /\ forall n, In n (nodes (w_db w)) -> type_known db0 n.

(** The run left the registry, the adaptation log and the types of the nodes
    alone. *)
Definition registry_untouched {C : Collaborators} (w w' : World C) : Prop :=
  schema_types (w_db w') = schema_types (w_db w)
  /\ adaptation_events (w_db w') = adaptation_events (w_db w)
  /\ List.map node_entity_type (nodes (w_db w'))
     = List.map node_entity_type (nodes (w_db w)).


(** The nodes among the local variables of a query have types the registry
    of [db0] knows. *)
Definition locals_known (db0 : Database) (l : GraphService.Locals) : Prop :=
  forall n, In n (GraphService.l_nodes l) -> type_known db0 n.


(** * Properties *)

(** ** Edge weights *)

Lemma boosted_weight_le_10 now amount e : (edge_weight (boosted now amount e) <= 10)%Q.
Proof. simpl. apply Q.le_min_r. Qed.

Lemma decayed_weight_ge_floor factor e : (0.1 <= edge_weight (decayed factor e))%Q.
Proof. simpl. apply Q.le_max_r. Qed.

Lemma boosted_in_range now amount e :
  (0 <= amount)%Q -> weight_in_range e -> weight_in_range (boosted now amount e).
Proof.
  intros Ha [Hlo Hhi]. split; simpl.
  - apply Q.min_glb; lra.
  - apply Q.le_min_r.
Qed.

Lemma decayed_in_range factor e :
  (factor <= 1)%Q -> weight_in_range e -> weight_in_range (decayed factor e).
Proof.
  intros Hf [Hlo Hhi]. split; simpl.
  - apply Q.le_max_r.
  - apply Q.max_lub; [| lra].
    assert (H : (edge_weight e * factor <= edge_weight e * 1)%Q).
    { rewrite !(Qmult_comm (edge_weight e)). apply Qmult_le_compat_r; lra. }
    lra.
Qed.

(** C3, as amended. An edge whose weight lies in [0.1, 10] keeps a weight in
    that range after [boost_edge] with a boost amount of at least 0 and after
    [decay_edges] with a factor of at most 1; whatever the amount, a boosted
    weight is at most 10, and whatever the factor, a decayed weight is at
    least 0.1. *)
Theorem edge_weight_range_preserved
    (db : Database) (now : Time) (edge_id0 : Id) (boost_amount decay_factor : Q) :
  (0 <= boost_amount)%Q ->
  (decay_factor <= 1)%Q ->
  Forall weight_in_range (edges db) ->
  Forall weight_in_range (edges (boost_edge now edge_id0 boost_amount db))
  /\ Forall weight_in_range (edges (decay_edges decay_factor db))
  /\ (forall amount e, (edge_weight (boosted now amount e) <= 10)%Q)
  /\ (forall factor e, (0.1 <= edge_weight (decayed factor e))%Q).
Proof.
  intros Ha Hf Hall. repeat split.
  - simpl. induction Hall as [| e l He _ IH]; simpl; constructor; auto.
    destruct (Nat.eqb (edge_id e) edge_id0); auto using boosted_in_range.
  - simpl. induction Hall as [| e l He _ IH]; simpl; constructor;
      auto using decayed_in_range.
  - intros. apply boosted_weight_le_10.
  - intros. apply decayed_weight_ge_floor.
Qed.

(** C3 as stated fails: a negative boost amount takes a weight of 0.5 below
    0.1, and a decay factor above 1 takes it above 10. *)
Lemma boost_decay_range_counterexample :
  Forall weight_in_range (edges Sample.one_edge_db)
  /\ ~ Forall weight_in_range (edges (boost_edge 0 0 (-1) Sample.one_edge_db))
  /\ ~ Forall weight_in_range (edges (decay_edges 30 Sample.one_edge_db)).
Proof.
  split; [| split].
  - repeat constructor; simpl; lra.
  - intros H. inversion H as [| e l [Hlo _] _]; subst.
    vm_compute in Hlo. apply Hlo. reflexivity.
  - intros H. inversion H as [| e l [_ Hhi] _]; subst.
    vm_compute in Hhi. apply Hhi. reflexivity.
Qed.

Lemma edge_weight_range_preserved_witness :
  Forall weight_in_range (edges (boost_edge 0 0 0.1 Sample.one_edge_db))
  /\ Forall weight_in_range (edges (decay_edges 0.995 Sample.one_edge_db)).
Proof.
  assert (Ha : (0 <= 0.1)%Q) by (vm_compute; discriminate).
  assert (Hf : (0.995 <= 1)%Q) by (vm_compute; discriminate).
  assert (Hall : Forall weight_in_range (edges Sample.one_edge_db)).
  { repeat constructor; vm_compute; discriminate. }
  destruct (edge_weight_range_preserved Sample.one_edge_db 0 0 0.1 0.995 Ha Hf Hall)
    as (H1 & H2 & _).
  exact (conj H1 H2).
Defined.

(** ** The schema-type registry *)

Section Registry.

Implicit Types (m : gmap string SchemaRow) (db : Database).

Lemma insert_or_ignore_taken name row m r :
  m !! name = Some r -> insert_or_ignore name row m = m.
Proof. unfold insert_or_ignore. intros ->. reflexivity. Qed.

Lemma insert_or_ignore_fresh name row m :
  m !! name = None -> insert_or_ignore name row m !! name = Some row.
Proof. unfold insert_or_ignore. intros ->. apply lookup_insert_eq. Qed.

Lemma insert_or_ignore_keeps name row m k r :
  m !! k = Some r -> insert_or_ignore name row m !! k = Some r.
Proof.
  unfold insert_or_ignore. intros Hk.
  destruct (m !! name) eqn:Hn; [exact Hk |].
  rewrite lookup_insert_ne; [exact Hk | congruence].
Qed.

Lemma insert_or_ignore_other name row m k :
  name <> k -> insert_or_ignore name row m !! k = m !! k.
Proof.
  unfold insert_or_ignore. intros Hne.
  destruct (m !! name); [reflexivity | by rewrite lookup_insert_ne].
Qed.

Lemma insert_or_ignore_registers name row m : is_Some (insert_or_ignore name row m !! name).
Proof.
  destruct (m !! name) eqn:Hn.
  - rewrite (insert_or_ignore_taken _ _ _ _ Hn), Hn. eauto.
  - rewrite insert_or_ignore_fresh by done. eauto.
Qed.

Lemma upsert_count_at name now m :
  upsert_count name now m !! name
  = Some (match m !! name with
          | Some r => mkSchemaRow (st_count r + 1) (st_is_seed r) (st_evolved_from r)
                                  (st_created_at r)
          | None => mkSchemaRow 1 false None now
          end).
Proof. unfold upsert_count. destruct (m !! name); apply lookup_insert_eq. Qed.

Lemma upsert_count_other name now m k :
  name <> k -> upsert_count name now m !! k = m !! k.
Proof. unfold upsert_count. intros Hne. destruct (m !! name); by rewrite lookup_insert_ne. Qed.

Lemma upsert_count_keeps_seed name now m k r :
  m !! k = Some r ->
  exists r', upsert_count name now m !! k = Some r' /\ st_is_seed r' = st_is_seed r.
Proof.
  intros Hk. destruct (decide (name = k)) as [-> | Hne].
  - rewrite upsert_count_at, Hk. eauto.
  - rewrite upsert_count_other by done. eauto.
Qed.

Lemma init_fold_keeps now (l : list string) m k r :
  m !! k = Some r ->
  fold_left (fun m t => insert_or_ignore t (mkSchemaRow 0 true None (now t)) m) l m !! k
  = Some r.
Proof.
  revert m. induction l as [| t l IH]; intros m Hk; simpl; [exact Hk |].
  apply IH. by apply insert_or_ignore_keeps.
Qed.

Lemma clear_all_lookup db name :
  schema_types (clear_all db) !! name
  = match schema_types db !! name with
    | Some r =>
        if st_is_seed r
        then Some (mkSchemaRow 0 true (st_evolved_from r) (st_created_at r))
        else None
    | None => None
    end.
Proof.
  unfold clear_all. simpl.
  destruct (schema_types db !! name) as [r |] eqn:Hr.
  - destruct (st_is_seed r) eqn:Hs.
    + apply map_lookup_filter_Some. split; [| reflexivity].
      rewrite lookup_fmap, Hr. simpl. unfold reset_seed_count. by rewrite Hs.
    + apply map_lookup_filter_None. right. intros r' Hr'.
      rewrite lookup_fmap, Hr in Hr'. simpl in Hr'. injection Hr' as <-.
      unfold reset_seed_count. rewrite Hs. simpl. congruence.
  - apply map_lookup_filter_None. left. by rewrite lookup_fmap, Hr.
Qed.

(** *** The seed rows stay *)

Lemma seeds_present_new now : seeds_present (new_database now).
Proof.
  intros t Ht. simpl in Ht.
  destruct Ht as [<- | [<- | [<- | [<- | []]]]];
    eexists; (split; [vm_compute; reflexivity | reflexivity]).
Qed.

Lemma seeds_present_step op db : seeds_present db -> seeds_present (apply_op op db).
Proof.
  intros Hs t Ht. destruct (Hs t Ht) as (r & Hr & Hseed).
  destruct op; try (simpl; eauto; fail).
  - exists r. split; [| done]. exact (init_fold_keeps now seed_types _ _ _ Hr).
  - simpl. destruct (upsert_count_keeps_seed entity_type now (schema_types db) t r Hr)
      as (r' & Hr' & Hs'). exists r'. split; [done | congruence].
  - simpl. exists r. split; [| done]. by apply insert_or_ignore_keeps.
  - cbn [apply_op]. rewrite clear_all_lookup, Hr, Hseed. eexists. split; reflexivity.
Qed.

Lemma seeds_present_run ops db : seeds_present db -> seeds_present (run_ops ops db).
Proof.
  revert db. induction ops as [| op ops IH]; intros db H; simpl; [done |].
  apply IH. by apply seeds_present_step.
Qed.

(** *** Every node's type is registered *)

Lemma types_registered_new now : types_registered (new_database now).
Proof. intros n []. Qed.

Lemma types_registered_step op db : types_registered db -> types_registered (apply_op op db).
Proof.
  intros Hreg. destruct op; try exact Hreg.
  - intros n Hn. destruct (Hreg n Hn) as [r Hr].
    exists r. exact (init_fold_keeps now seed_types _ _ _ Hr).
  - intros n Hn. simpl in *. apply in_app_or in Hn as [Hn | [<- | []]].
    + destruct (Hreg n Hn) as [r Hr].
      destruct (upsert_count_keeps_seed entity_type now _ _ _ Hr) as (r' & Hr' & _).
      by exists r'.
    + simpl. rewrite upsert_count_at. eauto.
  - intros n Hn. simpl in *.
    apply in_map_iff in Hn as (n0 & <- & Hn0).
    destruct (Nat.eqb (node_id n0) node_id0); simpl; by apply Hreg.
  - intros n Hn. destruct (Hreg n Hn) as [r Hr]. simpl.
    exists r. by apply insert_or_ignore_keeps.
  - intros n [].
Qed.

Lemma types_registered_run ops db : types_registered db -> types_registered (run_ops ops db).
Proof.
  revert db. induction ops as [| op ops IH]; intros db H; simpl; [done |].
  apply IH. by apply types_registered_step.
Qed.

End Registry.

Lemma count_unique_key (k : string) (l : list string) :
  List.NoDup l -> In k l -> length (List.filter (String.eqb k) l) = 1%nat.
Proof.
  induction 1 as [| x l Hx Hl IH]; intros Hin; [destruct Hin |].
  simpl. destruct (String.eqb k x) eqn:E.
  - apply String.eqb_eq in E as ->. simpl. f_equal.
    clear IH Hin Hl. induction l as [| y l IH]; [reflexivity |].
    simpl. destruct (String.eqb x y) eqn:E.
    + apply String.eqb_eq in E as ->. exfalso. apply Hx. by left.
    + apply IH. intros H. apply Hx. by right.
  - apply IH. destruct Hin as [-> | H]; [| exact H].
    rewrite String.eqb_refl in E. discriminate.
Qed.

Lemma schema_type_names db :
  List.map stype_name (get_schema_types db) = List.map fst (map_to_list (schema_types db)).
Proof.
  unfold get_schema_types. rewrite List.map_map. reflexivity.
Qed.

Lemma schema_type_names_NoDup db : List.NoDup (List.map stype_name (get_schema_types db)).
Proof.
  rewrite schema_type_names. apply NoDup_ListNoDup.
  apply (NoDup_fst_map_to_list (schema_types db)).
Qed.

Lemma schema_type_names_In db name :
  In name (List.map stype_name (get_schema_types db)) <-> is_Some (schema_types db !! name).
Proof.
  rewrite schema_type_names. split.
  - intros H. apply in_map_iff in H as ([k r] & Hk & Hin). simpl in Hk. subst k.
    apply list_elem_of_In, elem_of_map_to_list in Hin. eauto.
  - intros [r Hr]. apply in_map_iff. exists (name, r). split; [reflexivity |].
    by apply list_elem_of_In, elem_of_map_to_list.
Qed.

(** C9. Calling [create_schema_type] a second time with the same name leaves
    the registry as the first call left it: there is exactly one row of that
    name, and it is the row that was there after the first call, with the
    first call's fields when the first call created it. *)
Theorem create_schema_type_twice
    (db : Database) (now1 log1 now2 log2 : Time) (name : string)
    (evolved1 evolved2 : option string) :
  let db1 := (create_schema_type now1 log1 name evolved1 db).1 in
  let db2 := (create_schema_type now2 log2 name evolved2 db1).1 in
  schema_types db2 = schema_types db1
  /\ length (List.filter (String.eqb name)
               (List.map stype_name (get_schema_types db2))) = 1%nat
  /\ is_Some (schema_types db2 !! name)
  /\ (schema_types db !! name = None ->
      schema_types db2 !! name = Some (mkSchemaRow 0 false evolved1 now1)).
Proof.
  intros db1 db2.
  assert (Hsome : is_Some (schema_types db1 !! name))
    by apply insert_or_ignore_registers.
  assert (Heq : schema_types db2 = schema_types db1).
  { destruct Hsome as [r Hr]. subst db2. simpl.
    apply (insert_or_ignore_taken _ _ _ r). exact Hr. }
  split; [exact Heq |]. split; [| split].
  - apply count_unique_key; [apply schema_type_names_NoDup |].
    apply schema_type_names_In. by rewrite Heq.
  - by rewrite Heq.
  - intros Hnone. rewrite Heq. subst db1. simpl.
    by apply insert_or_ignore_fresh.
Qed.

Lemma create_schema_type_twice_witness :
  schema_types
    (create_schema_type 5 6 "concept" (Some "thing"%string) SampleStore.promoted_once).1
    !! "concept"%string
  = Some (mkSchemaRow 0 false None 3).
Proof.
  apply (create_schema_type_twice (new_database Sample.clock) 3 4 5 6 "concept"
           None (Some "thing"%string)).
  vm_compute. reflexivity.
Defined.

(** ** Merging overlapping spans *)

Section MergeOverlapping.

Import EntityExtractor.

Lemma key_leb_span_le a b : key_leb (key a) (key b) = true <-> span_le a b.
Proof.
  unfold key_leb, key, span_le. simpl.
  rewrite orb_true_iff, andb_true_iff, Z.ltb_lt, Z.eqb_eq, Qle_bool_iff.
  split; (intros [H | [H1 H2]]; [left; exact H | right; split; [exact H1 | lra]]).
Qed.

Lemma key_leb_total a b : key_leb (key a) (key b) = false -> span_le b a.
Proof.
  intros H. apply key_leb_span_le.
  unfold key_leb, key in *. simpl in *.
  apply orb_false_iff in H as [H1 H2]. apply Z.ltb_ge in H1.
  apply orb_true_iff.
  destruct (Z.eq_dec (ent_start a) (ent_start b)) as [E | E].
  - right. rewrite E, Z.eqb_refl in *. simpl in *.
    apply Qle_bool_iff.
    destruct (Qle_bool (- ent_score a) (- ent_score b)) eqn:Q; [discriminate |].
    assert (~ (- ent_score a <= - ent_score b)%Q)
      by (rewrite <- Qle_bool_iff; congruence).
    lra.
  - left. apply Z.ltb_lt. lia.
Qed.

Lemma span_le_trans a b c : span_le a b -> span_le b c -> span_le a c.
Proof.
  unfold span_le. intros [H1 | [H1 H1']] [H2 | [H2 H2']].
  - left. lia.
  - left. lia.
  - left. lia.
  - right. split; [lia | lra].
Qed.

Lemma insert_sorted_perm x l : Permutation (insert_sorted x l) (x :: l).
Proof.
  induction l as [| y l IH]; simpl; [reflexivity |].
  destruct (key_leb (key x) (key y)); [reflexivity |].
  rewrite IH. apply perm_swap.
Qed.

Lemma sorted_perm l : Permutation (sorted l) l.
Proof.
  induction l as [| x l IH]; simpl; [reflexivity |].
  unfold sorted in *. simpl. rewrite insert_sorted_perm. by constructor.
Qed.

Lemma insert_sorted_strongly x l :
  StronglySorted span_le l -> StronglySorted span_le (insert_sorted x l).
Proof.
  induction 1 as [| y l Hl IH Hy]; simpl.
  - repeat constructor.
  - destruct (key_leb (key x) (key y)) eqn:E.
    + apply key_leb_span_le in E.
      constructor; [by constructor |].
      constructor; [exact E |].
      eapply List.Forall_impl; [| exact Hy].
      intros z Hz. eapply span_le_trans; eassumption.
    + apply key_leb_total in E.
      constructor; [exact IH |].
      eapply Permutation_Forall.
      * symmetry. apply insert_sorted_perm.
      * by constructor.
Qed.

Lemma sorted_strongly l : StronglySorted span_le (sorted l).
Proof.
  induction l as [| x l IH]; [constructor |].
  unfold sorted in *. simpl. by apply insert_sorted_strongly.
Qed.

(** The loop of [merge_overlapping], with its accumulator, emits what the
    sweep of the specification emits. *)
Lemma sweep_loop_refines rest : forall merged current,
  (let '(m, c) := fold_left sweep_step rest (merged, current) in m ++ [c])
  = merged ++ spec_sweep current rest.
Proof.
  induction rest as [| ent rest IH]; intros merged current; simpl; [reflexivity |].
  unfold overlaps, higher_scoring.
  destruct (ent_start ent <? ent_end current).
  - destruct (Qlt_le_dec (ent_score current) (ent_score ent)); apply IH.
  - rewrite IH. rewrite <- List.app_assoc. reflexivity.
Qed.

Lemma merge_overlapping_refines entities :
  merge_overlapping entities = spec_merge_overlapping entities.
Proof.
  unfold merge_overlapping, spec_merge_overlapping.
  destruct entities as [| e l]; [reflexivity |].
  destruct (sorted (e :: l)) as [| first rest]; [reflexivity |].
  apply (sweep_loop_refines rest [] first).
Qed.

End MergeOverlapping.

(** C6. [merge_overlapping] sorts the spans by start ascending and, at equal
    starts, score descending; then it sweeps them left to right with a current
    span: a candidate whose start is strictly below the current span's end
    overlaps it and the higher-scoring of the two stays current, any other
    candidate makes the current span be emitted and becomes current. On the
    spans (0,5), (3,8), (10,15) with scores 0.9, 0.6, 0.8 it yields (0,5) and
    (10,15). *)
Theorem merge_overlapping_is_sorted_sweep (entities : list ExtractedEntity) :
  Permutation (EntityExtractor.sorted entities) entities
  /\ StronglySorted span_le (EntityExtractor.sorted entities)
  /\ EntityExtractor.merge_overlapping entities = spec_merge_overlapping entities
  /\ List.map SampleSpans.bounds (EntityExtractor.merge_overlapping SampleSpans.spans)
     = [(0, 5); (10, 15)].
Proof.
  split; [apply sorted_perm |].
  split; [apply sorted_strongly |].
  split; [apply merge_overlapping_refines |].
  vm_compute. reflexivity.
Qed.

(** ** Runs of the service *)

Section RunFacts.

Context {C : Collaborators}.
Import GraphService.

Lemma bind_apply {A B} (m : M C A) (k : A -> M C B) w :
  bind m k w = k (m w).1 (m w).2.
Proof. unfold bind. by destruct (m w). Qed.

Lemma for_each_app {A S} (l1 l2 : list A) (body : S -> A -> M C S) s w :
  for_each C (l1 ++ l2) body s w
  = for_each C l2 body (for_each C l1 body s w).1 (for_each C l1 body s w).2.
Proof.
  revert s w. induction l1 as [| x l1 IH]; intros s w; simpl; [reflexivity |].
  rewrite !bind_apply. apply IH.
Qed.

Lemma respects_ret {A} (R : World C -> World C -> Prop) `{!Reflexive R} (a : A) :
  respects R (ret a).
Proof. intros w. simpl. reflexivity. Qed.

Lemma respects_bind {A B} (R : World C -> World C -> Prop) `{!Transitive R}
    (m : M C A) (k : A -> M C B) :
  respects R m -> (forall a, respects R (k a)) -> respects R (bind m k).
Proof.
  intros Hm Hk w. rewrite bind_apply.
  etransitivity; [apply Hm | apply Hk].
Qed.

Lemma respects_for_each {A S} (R : World C -> World C -> Prop) `{!PreOrder R}
    (l : list A) (body : S -> A -> M C S) :
  (forall s x, In x l -> respects R (body s x)) ->
  forall s, respects R (for_each C l body s).
Proof.
  induction l as [| x l IH]; intros Hbody s; simpl.
  - apply respects_ret; apply _.
  - apply respects_bind; [apply _ | apply Hbody; by left |].
    intros s'. apply IH. intros s0 y Hy. apply Hbody. by right.
Qed.

#[global] Instance keeps_preorder (P : World C -> Prop) :
  PreOrder (fun w w' : World C => P w -> P w').
Proof. split; [intros w; tauto | intros a b c; tauto]. Qed.

#[global] Instance unchanged_preorder {X} (f : World C -> X) : PreOrder (unchanged f).
Proof.
  split; [intros w; reflexivity |].
  intros a b c H1 H2. unfold unchanged in *. congruence.
Qed.

#[global] Instance emits_preorder (L : list Message -> Prop) `{!TraceLanguage L} :
  PreOrder (@emits C L).
Proof.
  split.
  - intros w. exists []. split; [by rewrite List.app_nil_r | apply trace_nil].
  - intros a b c (e1 & H1 & L1) (e2 & H2 & L2). exists (e1 ++ e2).
    split; [by rewrite H2, H1, List.app_assoc | by apply trace_app].
Qed.

Lemma run_ops_app ops1 ops2 db : run_ops (ops1 ++ ops2) db = run_ops ops2 (run_ops ops1 db).
Proof. apply fold_left_app. Qed.

#[global] Instance db_reached_preorder : PreOrder (@db_reached C).
Proof.
  split.
  - intros w. by exists [].
  - intros a b c (o1 & H1) (o2 & H2). exists (o1 ++ o2).
    by rewrite run_ops_app, <- H1.
Qed.

End RunFacts.

#[global] Instance in_phase_language phase : TraceLanguage (in_phase phase).
Proof.
  split; [constructor |].
  intros a b Ha Hb. apply Forall_app. by split.
Qed.

#[global] Instance silent_language : TraceLanguage silent.
Proof. split; [reflexivity | intros a b -> ->; reflexivity]. Qed.

Lemma expansion_trace_app a b :
  expansion_trace a -> expansion_trace b -> expansion_trace (a ++ b).
Proof.
  induction 1 as [| ev rest He _ IH | ev found rest He Hf Hx _ IH]; intros Hb; simpl.
  - exact Hb.
  - apply expansion_edge; auto.
  - apply expansion_discovery; auto.
Qed.

#[global] Instance expansion_language : TraceLanguage expansion_trace.
Proof. split; [constructor | apply expansion_trace_app]. Qed.

(** A run is taken apart along its binds, loops and branches; [leaf] settles
    the calls that are not taken apart. *)
Ltac head_of t := lazymatch t with ?f _ => head_of f | _ => t end.

Ltac respects_with leaf :=
  repeat (cbv zeta;
    lazymatch goal with
    | |- keeps _ _ => unfold keeps
    | |- respects _ (ret _) => apply respects_ret; apply _
    | |- respects _ (bind _ _) => apply respects_bind; [apply _ | | intros ?]
    | |- respects _ (GraphService.for_each _ _ _ _) =>
        apply respects_for_each; [apply _ | intros ? ? _]
    | |- respects _ (match ?x with _ => _ end) => destruct x
    | |- respects _ ?m => first [ leaf | let h := head_of m in progress unfold h ]
    end).

Ltac leaf_unchanged := solve [intros ?; reflexivity].

Ltac bind_step :=
  match goal with
  | |- context [bind ?m ?k ?w] =>
      rewrite (bind_apply m k w);
      lazymatch goal with
      | E : m w = _ |- _ => rewrite !E
      | _ =>
          let a := fresh "a" in
          let w' := fresh "w" in
          let E := fresh "E" in
          destruct (m w) as [a w'] eqn:E
      end;
      cbn [fst snd]
  end.

Ltac bind_step_in H :=
  match type of H with
  | context [bind ?m ?k ?w] =>
      rewrite (bind_apply m k w) in H;
      lazymatch goal with
      | E : m w = _ |- _ => rewrite !E in H
      | _ =>
          let a := fresh "a" in
          let w' := fresh "w" in
          let E := fresh "E" in
          destruct (m w) as [a w'] eqn:E
      end;
      cbn [fst snd] in H
  end.

Ltac ret_inv H := unfold ret in H; injection H as <- <-.

Section Generation.

Context {C : Collaborators}.
Import GraphService.

Lemma respects_eq {A} (R : World C -> World C -> Prop) (m : M C A) w a w' :
  respects R m -> m w = (a, w') -> R w w'.
Proof. intros H E. specialize (H w). by rewrite E in H. Qed.

Lemma perf_counter_generated : respects (unchanged w_generated) (perf_counter C).
Proof. respects_with leaf_unchanged. Qed.

Lemma search_phase_generated q mr :
  respects (unchanged w_generated) (search_phase C q mr).
Proof. respects_with leaf_unchanged. Qed.

Lemma expansion_phase_generated l :
  respects (unchanged w_generated) (expansion_phase C l).
Proof. respects_with leaf_unchanged. Qed.

Lemma entity_phase_generated q l :
  respects (unchanged w_generated) (entity_phase C q l).
Proof. respects_with leaf_unchanged. Qed.

Lemma search_phase_streaming_generated q mr :
  respects (unchanged w_generated) (search_phase_streaming C q mr).
Proof. respects_with leaf_unchanged. Qed.

Lemma expansion_phase_streaming_generated l :
  respects (unchanged w_generated) (expansion_phase_streaming C l).
Proof. respects_with leaf_unchanged. Qed.

Lemma entity_phase_streaming_generated q l :
  respects (unchanged w_generated) (entity_phase_streaming C q l).
Proof. respects_with leaf_unchanged. Qed.

Lemma context_edges_of_generated edges :
  respects (unchanged w_generated) (context_edges_of C edges).
Proof. respects_with leaf_unchanged. Qed.

Lemma check_query_adaptations_generated q nodes :
  respects (unchanged w_generated) (_check_query_adaptations C q nodes).
Proof. respects_with leaf_unchanged. Qed.

Lemma db_record_query_generated latency used :
  respects (unchanged w_generated) (db_record_query C latency used).
Proof. respects_with leaf_unchanged. Qed.

Lemma broadcast_generated msg : respects (unchanged w_generated) (broadcast C msg).
Proof. respects_with leaf_unchanged. Qed.

Lemma generation_due_false_unavailable use_llm nodes :
  llm_is_available C = false -> generation_due C use_llm nodes = false.
Proof. unfold generation_due. intros ->. by destruct use_llm. Qed.

Ltac frame_generated :=
  repeat match goal with
  | E : perf_counter C _ = _ |- _ =>
      apply (respects_eq _ _ _ _ _ perf_counter_generated) in E
  | E : search_phase C _ _ _ = _ |- _ =>
      apply (respects_eq _ _ _ _ _ (search_phase_generated _ _)) in E
  | E : expansion_phase C _ _ = _ |- _ =>
      apply (respects_eq _ _ _ _ _ (expansion_phase_generated _)) in E
  | E : entity_phase C _ _ _ = _ |- _ =>
      apply (respects_eq _ _ _ _ _ (entity_phase_generated _ _)) in E
  | E : search_phase_streaming C _ _ _ = _ |- _ =>
      apply (respects_eq _ _ _ _ _ (search_phase_streaming_generated _ _)) in E
  | E : expansion_phase_streaming C _ _ = _ |- _ =>
      apply (respects_eq _ _ _ _ _ (expansion_phase_streaming_generated _)) in E
  | E : entity_phase_streaming C _ _ _ = _ |- _ =>
      apply (respects_eq _ _ _ _ _ (entity_phase_streaming_generated _ _)) in E
  | E : context_edges_of C _ _ = _ |- _ =>
      apply (respects_eq _ _ _ _ _ (context_edges_of_generated _)) in E
  | E : _check_query_adaptations C _ _ _ = _ |- _ =>
      apply (respects_eq _ _ _ _ _ (check_query_adaptations_generated _ _)) in E
  | E : db_record_query C _ _ _ = _ |- _ =>
      apply (respects_eq _ _ _ _ _ (db_record_query_generated _ _)) in E
  | E : broadcast C _ _ = _ |- _ =>
      apply (respects_eq _ _ _ _ _ (broadcast_generated _)) in E
  end;
  unfold unchanged in *.

Lemma query_generation q use_llm mr w :
  generation_rule C q use_llm (value (traversal C q mr) w)
    (value (query C q use_llm mr) w) w (run (query C q use_llm mr) w).
Proof.
  unfold value, run, query, traversal.
  do 7 bind_step.
  destruct (generation_due C use_llm (l_nodes a2)) eqn:G.
  - bind_step. do 2 bind_step_in E3. ret_inv E3.
    unfold generate_response in E5. injection E5 as <- <-.
    do 3 bind_step. cbn [ret fst snd].
    frame_generated. cbn [w_generated] in E3.
    unfold generation_rule. cbn [qr_nodes qr_edges qr_traversed_path qr_used_llm qr_response].
    split; [done |]. split; [done |]. split; [| split].
    + intros _.
      match goal with
      | |- context [Some (llm_generate_response C q ?cn ?ce)] =>
          exists (mkGenerateCall q cn ce)
      end.
      split; [reflexivity |]. split; [reflexivity |]. congruence.
    + discriminate.
    + intros Hu. by rewrite generation_due_false_unavailable in G.
  - bind_step. ret_inv E3.
    do 3 bind_step. cbn [ret fst snd].
    frame_generated.
    match goal with
    | |- generation_rule _ _ _ _ _ _ ?wf =>
        assert (w_generated wf = w_generated w) by congruence
    end.
    unfold generation_rule. cbn [qr_nodes qr_edges qr_traversed_path qr_used_llm qr_response].
    split; [done |]. split; [done |]. split; [discriminate |]. done.
Qed.

Lemma query_streaming_generation q use_llm mr w :
  generation_rule C q use_llm (value (traversal_streaming C q mr) w)
    (value (query_streaming C q use_llm mr) w) w
    (run (query_streaming C q use_llm mr) w).
Proof.
  unfold value, run, query_streaming, traversal_streaming.
  do 7 bind_step.
  destruct (generation_due C use_llm (l_nodes a2)) eqn:G.
  - bind_step. do 3 bind_step_in E3. ret_inv E3.
    unfold generate_response in E6. injection E6 as <- <-.
    do 4 bind_step. cbn [ret fst snd].
    frame_generated. cbn [w_generated] in E3.
    unfold generation_rule. cbn [qr_nodes qr_edges qr_traversed_path qr_used_llm qr_response].
    split; [done |]. split; [done |]. split; [| split].
    + intros _.
      match goal with
      | |- context [Some (llm_generate_response C q ?cn ?ce)] =>
          exists (mkGenerateCall q cn ce)
      end.
      split; [reflexivity |]. split; [reflexivity |]. congruence.
    + discriminate.
    + intros Hu. by rewrite generation_due_false_unavailable in G.
  - bind_step. ret_inv E3.
    do 4 bind_step. cbn [ret fst snd].
    frame_generated.
    match goal with
    | |- generation_rule _ _ _ _ _ _ ?wf =>
        assert (w_generated wf = w_generated w) by congruence
    end.
    unfold generation_rule. cbn [qr_nodes qr_edges qr_traversed_path qr_used_llm qr_response].
    split; [done |]. split; [done |]. split; [discriminate |]. done.
Qed.

End Generation.

(** C7. A query returns the nodes, edges and path its first three phases
    found, whatever the generation service does; [used_llm] is true exactly
    when [use_llm] was requested, the service is available and the node list
    is not empty, and only then is the service invoked (once) and its answer
    the response; otherwise the response is [None]. So with the service
    unavailable, [used_llm] is false and the response is [None] even when
    [use_llm] was requested. This holds of [query] and of [query_streaming]. *)
Theorem generation_skipped_when_unavailable
    (C : Collaborators) (query_text : string) (use_llm : bool) (max_results : Z)
    (w : World C) :
  generation_rule C query_text use_llm
    (value (GraphService.traversal C query_text max_results) w)
    (value (GraphService.query C query_text use_llm max_results) w) w
    (run (GraphService.query C query_text use_llm max_results) w)
  /\ generation_rule C query_text use_llm
       (value (GraphService.traversal_streaming C query_text max_results) w)
       (value (GraphService.query_streaming C query_text use_llm max_results) w) w
       (run (GraphService.query_streaming C query_text use_llm max_results) w).
Proof. split; [apply query_generation | apply query_streaming_generation]. Qed.

Lemma generation_skipped_when_unavailable_witness :
  let r := value (GraphService.query SampleService.collaborators "who is Alice" true 10)
                 SampleService.started in
  qr_used_llm r = false /\ qr_response r = None.
Proof.
  destruct (generation_skipped_when_unavailable SampleService.collaborators
              "who is Alice" true 10 SampleService.started)
    as [(_ & _ & _ & _ & H) _].
  destruct (H eq_refl) as (H1 & H2 & _). exact (conj H1 H2).
Defined.

(** ** The trace of a streaming query *)



Section Streaming.

Context {C : Collaborators}.
Import GraphService.










End Streaming.






Section StreamingOrder.

Context {C : Collaborators}.
Import GraphService.





End StreamingOrder.






(** ** Promotion at ingestion *)

Section CounterFacts.

Lemma counter_get_add t k c :
  counter_get t (counter_add k c)
  = counter_get t c + (if String.eqb k t then 1 else 0).
Proof.
  induction c as [| [k' n] c IH]; simpl.
  - destruct (String.eqb k t); lia.
  - destruct (String.eqb k' k) eqn:Ek; simpl.
    + apply String.eqb_eq in Ek as ->.
      destruct (String.eqb k t); lia.
    + destruct (String.eqb k' t) eqn:Et; [| exact IH].
      apply String.eqb_eq in Et as ->.
      rewrite String.eqb_sym, Ek. lia.
Qed.

Lemma counter_fold_get t keys : forall c,
  counter_get t (fold_left (fun c k => counter_add k c) keys c)
  = counter_get t c
    + Z.of_nat (length (List.filter (fun k => String.eqb k t) keys)).
Proof.
  induction keys as [| k keys IH]; intros c; simpl; [lia |].
  rewrite IH, counter_get_add.
  destruct (String.eqb k t); simpl; lia.
Qed.

Lemma counter_get_listed t c :
  (exists n, In (t, n) c) -> In (t, counter_get t c) c.
Proof.
  induction c as [| [k' n'] c IH]; intros [n Hn]; [destruct Hn |].
  simpl. destruct (String.eqb k' t) eqn:E.
  - apply String.eqb_eq in E as ->. by left.
  - right. apply IH. destruct Hn as [Hn | Hn]; [| eauto].
    injection Hn as -> _. rewrite String.eqb_refl in E. discriminate.
Qed.

Lemma counter_add_listed t k c :
  t = k \/ (exists n, In (t, n) c) -> exists n, In (t, n) (counter_add k c).
Proof.
  induction c as [| [k' n'] c IH]; simpl.
  - intros [-> | [n []]]. exists 1. by left.
  - intros H. destruct (String.eqb k' k) eqn:E.
    + apply String.eqb_eq in E as ->.
      destruct H as [-> | [n [Hn | Hn]]].
      * eexists. by left.
      * injection Hn as -> _. eexists. by left.
      * exists n. by right.
    + destruct H as [-> | [n [Hn | Hn]]].
      * destruct IH as [n Hn]; [by left |]. exists n. by right.
      * exists n. by left.
      * destruct IH as [m Hm]; [right; eauto |]. exists m. by right.
Qed.

Lemma counter_fold_listed t keys : forall c,
  In t keys \/ (exists n, In (t, n) c) ->
  exists n, In (t, n) (fold_left (fun c k => counter_add k c) keys c).
Proof.
  induction keys as [| k keys IH]; intros c H; simpl.
  - destruct H as [[] | H]. exact H.
  - apply IH. destruct H as [[-> | H] | H].
    + right. apply counter_add_listed. by left.
    + by left.
    + right. apply counter_add_listed. by right.
Qed.

Lemma count_type_keys t l :
  count_type t l
  = Z.of_nat (length (List.filter (fun k => String.eqb k t)
                                  (List.map node_entity_type l))).
Proof.
  unfold count_type. f_equal.
  induction l as [| n l IH]; simpl; [reflexivity |].
  destruct (String.eqb (node_entity_type n) t); simpl; by rewrite IH.
Qed.

(** The [Counter] over the types of all nodes lists every type that has a
    node, with the number of its nodes. *)
Lemma Counter_lists_count t l :
  0 < count_type t l ->
  In (t, count_type t l) (Counter (List.map node_entity_type l)).
Proof.
  intros Hpos.
  assert (Hin : In t (List.map node_entity_type l)).
  { rewrite count_type_keys in Hpos.
    destruct (List.filter (fun k => String.eqb k t) (List.map node_entity_type l))
      as [| k ks] eqn:E; [simpl in Hpos; lia |].
    assert (Hk : In k (k :: ks)) by (by left).
    rewrite <- E in Hk. apply List.filter_In in Hk as [Hk Ht].
    apply String.eqb_eq in Ht as <-. exact Hk. }
  unfold Counter.
  assert (Hget : counter_get t (fold_left (fun c k => counter_add k c)
                                  (List.map node_entity_type l) [])
                 = count_type t l).
  { rewrite counter_fold_get, count_type_keys. simpl. lia. }
  rewrite <- Hget. apply counter_get_listed.
  apply counter_fold_listed. by left.
Qed.

End CounterFacts.

#[global] Instance log_extended_preorder {C : Collaborators} : PreOrder (@log_extended C).
Proof.
  split.
  - intros w. exists []. by rewrite List.app_nil_r.
  - intros a b c (e1 & H1) (e2 & H2). exists (e1 ++ e2).
    by rewrite H2, H1, List.app_assoc.
Qed.

Section Promotion.

Context {C : Collaborators}.
Import GraphService.

Lemma create_schema_type_registry name evolved w :
  exists now,
    schema_types (w_db (db_create_schema_type C name evolved w).2)
    = insert_or_ignore name (mkSchemaRow 0 false evolved now) (schema_types (w_db w)).
Proof. eexists. reflexivity. Qed.

Lemma create_schema_type_free_or_promoted t name :
  keeps (free_or_promoted t) (db_create_schema_type C name None).
Proof.
  intros w H. unfold free_or_promoted in *.
  destruct (create_schema_type_registry name None w) as [now ->].
  destruct H as [H | [now' H]].
  - destruct (decide (name = t)) as [-> | Hne].
    + right. exists now. by apply insert_or_ignore_fresh.
    + left. by rewrite insert_or_ignore_other.
  - right. exists now'. by apply insert_or_ignore_keeps.
Qed.

Lemma create_schema_type_has_row t name :
  keeps (has_promoted_row t) (db_create_schema_type C name None).
Proof.
  intros w [now' H]. unfold has_promoted_row.
  destruct (create_schema_type_registry name None w) as [now ->].
  exists now'. by apply insert_or_ignore_keeps.
Qed.

Lemma create_schema_type_promotes t :
  respects (fun w w' => free_or_promoted t w -> has_promoted_row t w')
           (db_create_schema_type C t None).
Proof.
  intros w H. unfold has_promoted_row.
  destruct (create_schema_type_registry t None w) as [now ->].
  destruct H as [H | [now' H]].
  - exists now. by apply insert_or_ignore_fresh.
  - exists now'. by apply insert_or_ignore_keeps.
Qed.

Lemma log_adaptation_free_or_promoted t event_type description details :
  keeps (free_or_promoted t) (db_log_adaptation C event_type description details).
Proof. intros w H. exact H. Qed.

Lemma log_adaptation_has_row t event_type description details :
  keeps (has_promoted_row t) (db_log_adaptation C event_type description details).
Proof. intros w H. exact H. Qed.

Lemma create_schema_type_log name evolved :
  respects log_extended (db_create_schema_type C name evolved).
Proof. intros w. eexists [_]. reflexivity. Qed.

Lemma log_adaptation_log event_type description details :
  respects log_extended (db_log_adaptation C event_type description details).
Proof. intros w. eexists [_]. reflexivity. Qed.

Ltac leaf_promotion :=
  first [ apply create_schema_type_free_or_promoted
        | apply create_schema_type_has_row
        | apply log_adaptation_free_or_promoted
        | apply log_adaptation_has_row
        | apply create_schema_type_log
        | apply log_adaptation_log ].

Lemma promote_if_due_free_or_promoted t names item :
  keeps (free_or_promoted t) (promote_if_due C names tt item).
Proof. respects_with leaf_promotion. Qed.

Lemma promote_if_due_has_row t names item :
  keeps (has_promoted_row t) (promote_if_due C names tt item).
Proof. respects_with leaf_promotion. Qed.

Lemma promote_if_due_log names item :
  respects log_extended (promote_if_due C names tt item).
Proof. respects_with leaf_promotion. Qed.

Lemma promote_loop_free_or_promoted t names items :
  keeps (free_or_promoted t) (for_each C items (promote_if_due C names) tt).
Proof.
  apply respects_for_each; [apply _ |].
  intros [] x _. apply promote_if_due_free_or_promoted.
Qed.

Lemma promote_loop_has_row t names items :
  keeps (has_promoted_row t) (for_each C items (promote_if_due C names) tt).
Proof.
  apply respects_for_each; [apply _ |].
  intros [] x _. apply promote_if_due_has_row.
Qed.

Lemma promote_loop_log names items :
  respects log_extended (for_each C items (promote_if_due C names) tt).
Proof.
  apply respects_for_each; [apply _ |].
  intros [] x _. apply promote_if_due_log.
Qed.

End Promotion.

Section IngestionPromotion.

Context {C : Collaborators}.
Import GraphService.

Lemma names_of_registry db t :
  existsb (String.eqb t) (List.map stype_name (get_schema_types db)) = false
  <-> schema_types db !! t = None.
Proof.
  rewrite <- not_true_iff_false, existsb_exists. split.
  - intros H. destruct (schema_types db !! t) as [r |] eqn:E; [| reflexivity].
    exfalso. apply H. exists t. split; [| apply String.eqb_refl].
    apply schema_type_names_In. by rewrite E.
  - intros Hnone (x & Hx & Heq). apply String.eqb_eq in Heq as <-.
    apply schema_type_names_In in Hx as [r Hr]. congruence.
Qed.

Lemma promote_due_item t n names w :
  existsb (String.eqb t) names = false ->
  TYPE_PROMOTION_THRESHOLD <= n ->
  free_or_promoted t w ->
  let w' := (promote_if_due C names tt (t, n) w).2 in
  has_promoted_row t w'
  /\ exists pre ev,
       adaptation_events (w_db w') = adaptation_events (w_db w) ++ pre ++ [ev]
       /\ is_promotion_event t n ev.
Proof.
  intros Hnames Hn Hfree. unfold promote_if_due.
  rewrite Hnames. apply Z.leb_le in Hn. rewrite Hn. cbn [negb andb].
  rewrite bind_apply. cbn [fst snd]. split.
  - apply log_adaptation_has_row. by apply create_schema_type_promotes.
  - eexists [_], _. split; [cbn; rewrite <- List.app_assoc; reflexivity |].
    split; reflexivity.
Qed.

(** The scan of [_check_type_promotions]. *)
Lemma check_type_promotions_promotes t w :
  schema_types (w_db w) !! t = None ->
  TYPE_PROMOTION_THRESHOLD <= count_type t (nodes (w_db w)) ->
  promoted t (w_db w) (w_db (_check_type_promotions C w).2).
Proof.
  intros Hnone Hcount.
  set (names := List.map stype_name (get_schema_types (w_db w))).
  set (items := Counter (List.map node_entity_type (nodes (w_db w)))).
  assert (Hrun : (_check_type_promotions C w).2
                 = (for_each C items (promote_if_due C names) tt w).2) by reflexivity.
  rewrite Hrun. clear Hrun.
  assert (Hin : In (t, count_type t (nodes (w_db w))) items).
  { apply Counter_lists_count. unfold TYPE_PROMOTION_THRESHOLD in Hcount. lia. }
  apply in_split in Hin as (l1 & l2 & Hsplit). rewrite Hsplit.
  rewrite for_each_app.
  destruct (for_each C l1 (promote_if_due C names) tt w) as [[] wa] eqn:E1.
  cbn [fst snd for_each]. rewrite bind_apply.
  destruct (promote_if_due C names tt (t, count_type t (nodes (w_db w))) wa)
    as [[] wb] eqn:E2.
  cbn [fst snd].
  destruct (for_each C l2 (promote_if_due C names) tt wb) as [[] wc] eqn:E3.
  cbn [snd].
  assert (Ha : free_or_promoted t wa).
  { pose proof (respects_eq _ _ _ _ _ (promote_loop_free_or_promoted t names l1) E1) as K.
    apply K. by left. }
  assert (La : log_extended w wa).
  { exact (respects_eq _ _ _ _ _ (promote_loop_log names l1) E1). }
  assert (Hnames : existsb (String.eqb t) names = false) by (by apply names_of_registry).
  destruct (promote_due_item t _ names wa Hnames Hcount Ha) as (Hb & pre & ev & Lb & Hev).
  rewrite E2 in Hb, Lb. cbn [snd] in Hb, Lb.
  assert (Hc : has_promoted_row t wc).
  { pose proof (respects_eq _ _ _ _ _ (promote_loop_has_row t names l2) E3) as K.
    by apply K. }
  assert (Lc : log_extended wb wc).
  { exact (respects_eq _ _ _ _ _ (promote_loop_log names l2) E3). }
  split; [exact Hc |].
  destruct La as [ea La]. destruct Lc as [ec Lc].
  exists (ea ++ pre ++ [ev] ++ ec), ev. split; [| split; [| exact Hev]].
  - rewrite Lc, Lb, La. by rewrite <- !List.app_assoc.
  - apply in_or_app. right. apply in_or_app. right. by left.
Qed.

Lemma promoted_later t db db1 db2 :
  promoted t db db1 ->
  schema_types db2 = schema_types db1 ->
  (exists evs, adaptation_events db2 = adaptation_events db1 ++ evs) ->
  promoted t db db2.
Proof.
  intros [Hrow (evs & ev & Hlog & Hin & Hev)] Hreg [more Hmore]. split.
  - by rewrite Hreg.
  - exists (evs ++ more), ev. split; [| split; [| exact Hev]].
    + by rewrite Hmore, Hlog, List.app_assoc.
    + apply in_or_app. by left.
Qed.

Lemma add_note_promotes note w t :
  let linked := run (add_note_link C note) w in
  schema_types (w_db linked) !! t = None ->
  TYPE_PROMOTION_THRESHOLD <= count_type t (nodes (w_db linked)) ->
  promoted t (w_db linked) (w_db (run (add_note C note) w)).
Proof.
  intros linked Hnone Hcount. subst linked.
  unfold run in *. unfold add_note. rewrite bind_apply.
  destruct (add_note_link C note w) as [[start [[note_node entity_nodes] created]] w1].
  cbn [fst snd] in *.
  unfold _check_adaptations. rewrite !bind_apply. cbn [fst snd].
  eapply promoted_later.
  - apply (check_type_promotions_promotes t w1 Hnone Hcount).
  - reflexivity.
  - eexists [_]. reflexivity.
Qed.

End IngestionPromotion.

(** C1. When [add_note] has linked the note's entities, the scan counts the
    nodes of every type over all nodes of the store; a type that has no row
    in the registry then and at least 5 nodes is promoted: when [add_note]
    returns the registry has a row for it, with count 0 and not a seed, and
    the adaptation log has grown by events among which is one of type
    [type_promoted] for that type, with that count. *)
Theorem ingestion_promotes_due_types
    (C : Collaborators) (note : Note) (w : World C) (entity_type : string) :
  let linked := run (GraphService.add_note_link C note) w in
  let final := run (GraphService.add_note C note) w in
  schema_types (w_db linked) !! entity_type = None ->
  GraphService.TYPE_PROMOTION_THRESHOLD <= count_type entity_type (nodes (w_db linked)) ->
  promoted entity_type (w_db linked) (w_db final).
Proof. intros linked final. apply add_note_promotes. Qed.

Lemma ingestion_promotes_due_types_witness :
  promoted "concept"
    (w_db (run (GraphService.add_note_link SampleService.collaborators
                  SampleService.plain_note) SampleService.legacy_service))
    (w_db (run (GraphService.add_note SampleService.collaborators
                  SampleService.plain_note) SampleService.legacy_service)).
Proof.
  apply (ingestion_promotes_due_types SampleService.collaborators
           SampleService.plain_note SampleService.legacy_service "concept").
  - vm_compute. reflexivity.
  - vm_compute. discriminate.
Defined.

(** C5 at its failing input. The note "Flew to New  York", whose entity is
    written with two spaces, is ingested twice: the two note nodes are
    distinct, and so are the two entity nodes, though both names normalize to
    "new york". The note "Met Alice" ingested twice leaves one entity node,
    accessed once. *)
Theorem duplicate_entity_after_reingestion :
  let w := SampleService.ingest SampleService.new_york
             (SampleService.ingest SampleService.new_york SampleService.started) in
  let w' := SampleService.ingest SampleService.met_alice SampleService.after_alice in
  List.map (fun r => r.1.1.1) (SampleService.nodes_of_type "note" w) = [0; 3]%nat
  /\ List.map (fun r => r.1) (SampleService.nodes_of_type "place" w)
     = [(1%nat, "New  York", "new york"); (4%nat, "New  York", "new york")]%string
  /\ SampleService.nodes_of_type "person" w' = [(1%nat, "Alice", "alice", 1)]%string.
Proof. vm_compute. repeat split. Qed.

(** C10 at its failing input. The store holds the node Alice, which the
    first two phases of a query for "Does Alice know Alice" do not reach; the
    recognizer finds Alice twice in the text, and phase 3 adds the node to the
    result and to the path twice, with two [entity_match] events of score
    0.95 in streaming mode. *)
Theorem entity_match_adds_node_twice :
  let r := value (GraphService.query SampleService.collaborators
                    SampleService.alice_twice false 10) SampleService.after_alice in
  let m := GraphService.query_streaming SampleService.collaborators
             SampleService.alice_twice false 10 in
  List.map node_id (qr_nodes r) = [1; 1]%nat
  /\ qr_traversed_path r = [1; 1]%nat
  /\ List.map node_id (qr_nodes (value m SampleService.after_alice)) = [1; 1]%nat
  /\ emitted_since SampleService.after_alice (run m SampleService.after_alice)
     = [SampleService.alice_matched; SampleService.alice_matched; complete_event].
Proof. vm_compute. repeat split. Qed.

(** ** Every call changes the store by statements of [Op] *)

Section ServiceReach.

Context {C : Collaborators}.
Import GraphService.

Lemma db_create_node_reached name entity_type content metadata :
  respects db_reached (db_create_node C name entity_type content metadata).
Proof. intros w. eexists [OpCreateNode _ _ _ _ _ _]. reflexivity. Qed.

Lemma db_update_node_access_reached node_id0 :
  respects db_reached (db_update_node_access C node_id0).
Proof. intros w. eexists [OpUpdateNodeAccess _ _]. reflexivity. Qed.

Lemma db_create_edge_reached source_id target_id relation_type weight metadata :
  respects db_reached (db_create_edge C source_id target_id relation_type weight metadata).
Proof. intros w. eexists [OpCreateEdge _ _ _ _ _ _ _]. reflexivity. Qed.

Lemma db_boost_edge_reached edge_id0 amount :
  respects db_reached (db_boost_edge C edge_id0 amount).
Proof. intros w. eexists [OpBoostEdge _ _ _]. reflexivity. Qed.

Lemma db_decay_edges_reached factor : respects db_reached (db_decay_edges C factor).
Proof. intros w. eexists [OpDecayEdges _]. reflexivity. Qed.

Lemma db_log_adaptation_reached event_type description details :
  respects db_reached (db_log_adaptation C event_type description details).
Proof. intros w. eexists [OpLogAdaptation _ _ _ _]. reflexivity. Qed.

Lemma db_create_schema_type_reached name evolved_from :
  respects db_reached (db_create_schema_type C name evolved_from).
Proof. intros w. eexists [OpCreateSchemaType _ _ _ _]. reflexivity. Qed.

Lemma db_record_query_reached latency used :
  respects db_reached (db_record_query C latency used).
Proof. intros w. eexists [OpRecordQuery _ _]. reflexivity. Qed.

Lemma db_clear_all_reached : respects db_reached (db_clear_all C).
Proof. intros w. eexists [OpClearAll]. reflexivity. Qed.

Lemma set_weight_floor_reached edge_id0 w :
  db_reached w (put_db C (set_weight_floor edge_id0 (w_db w)) w).2.
Proof. eexists [OpSetWeightFloor _]. reflexivity. Qed.

Ltac leaf_reached :=
  first [ apply db_create_node_reached
        | apply db_update_node_access_reached
        | apply db_create_edge_reached
        | apply db_boost_edge_reached
        | apply db_decay_edges_reached
        | apply db_log_adaptation_reached
        | apply db_create_schema_type_reached
        | apply db_record_query_reached
        | apply db_clear_all_reached
        | solve [intros ?; exists []; reflexivity] ].

Lemma auto_link_loop_reached entity_nodes : forall edges,
  respects db_reached (auto_link_loop C entity_nodes edges).
Proof.
  induction entity_nodes as [| node_a rest IH]; intros edges; simpl.
  - respects_with leaf_reached.
  - apply respects_bind; [apply _ | | exact IH].
    respects_with leaf_reached.
Qed.

Lemma add_note_reached note : respects db_reached (add_note C note).
Proof.
  respects_with ltac:(first [apply auto_link_loop_reached | leaf_reached]).
Qed.

Lemma query_reached q use_llm mr : respects db_reached (query C q use_llm mr).
Proof. respects_with leaf_reached. Qed.

Lemma query_streaming_reached q use_llm mr :
  respects db_reached (query_streaming C q use_llm mr).
Proof. respects_with leaf_reached. Qed.

Lemma merge_entities_reached keep_id merge_ids :
  respects db_reached (merge_entities C keep_id merge_ids).
Proof. respects_with leaf_reached. Qed.

Lemma confirm_edge_reached edge_id0 : respects db_reached (confirm_edge C edge_id0).
Proof. respects_with leaf_reached. Qed.

Lemma reject_edge_reached edge_id0 : respects db_reached (reject_edge C edge_id0).
Proof.
  intros w. unfold reject_edge. rewrite !bind_apply. cbn [fst snd get_db].
  etransitivity; [apply set_weight_floor_reached | apply db_log_adaptation_reached].
Qed.

Lemma clear_graph_reached fresh : respects db_reached (clear_graph C fresh).
Proof. respects_with leaf_reached. Qed.

Lemma perform_reached call : respects db_reached (perform C call).
Proof.
  destruct call; unfold perform;
    first [ apply respects_bind; [apply _ | | intros ?; apply respects_ret; apply _] | idtac ].
  - apply add_note_reached.
  - apply query_reached.
  - apply query_streaming_reached.
  - apply merge_entities_reached.
  - apply confirm_edge_reached.
  - apply reject_edge_reached.
  - apply clear_graph_reached.
Qed.

Lemma perform_all_reached calls : forall w,
  db_reached w (perform_all C calls w).
Proof.
  induction calls as [| call calls IH]; intros w; simpl; [reflexivity |].
  etransitivity; [apply (perform_reached call w) | apply IH].
Qed.

(** A service started on a new database file, after any calls, has a store
    that statements of [Op] reach from a new store. *)
Lemma service_store_reached collection calls :
  exists now ops,
    w_db (perform_all C calls (start C empty_database collection))
    = run_ops ops (new_database now).
Proof.
  destruct (perform_all_reached calls (start C empty_database collection)) as [ops H].
  eexists _, ops. rewrite H. reflexivity.
Qed.

End ServiceReach.

Section ClearGraph.

Context {C : Collaborators}.
Import GraphService.

Lemma refresh_type_counts_db : respects (unchanged w_db) (_refresh_type_counts C).
Proof. respects_with leaf_unchanged. Qed.

Lemma clear_graph_db fresh w :
  w_db (run (clear_graph C fresh) w) = clear_all (w_db w).
Proof.
  unfold run, clear_graph. rewrite !bind_apply. cbn [fst snd].
  rewrite refresh_type_counts_db. reflexivity.
Qed.

End ClearGraph.

(** C2. [create_node] registers the node's type in the same operation: a
    type without a row gets one with count 1 and [is_seed] false, a type
    with a row has its count incremented and nothing else changed. So every
    node's type has a row in the registry, whatever the promotion threshold:
    in a new store, after every operation on a store where it held
    ([clear_all] included), hence in every store reached from a new one, and
    so in the store of a service started on a new database file after any
    sequence of calls. *)
Theorem node_types_always_registered :
  (forall new_id now name entity_type content metadata db,
     let r := create_node new_id now name entity_type content metadata db in
     In r.2 (nodes r.1)
     /\ node_entity_type r.2 = entity_type
     /\ schema_types r.1 !! entity_type
        = Some (match schema_types db !! entity_type with
                | Some row => mkSchemaRow (st_count row + 1) (st_is_seed row)
                                          (st_evolved_from row) (st_created_at row)
                | None => mkSchemaRow 1 false None now
                end))
  /\ (forall now, types_registered (new_database now))
  /\ (forall op db, types_registered db -> types_registered (apply_op op db))
  /\ (forall db, types_registered (clear_all db))
  /\ (forall now ops, types_registered (run_ops ops (new_database now)))
  /\ (forall (C : Collaborators) collection calls,
        types_registered
          (w_db (GraphService.perform_all C calls
                   (GraphService.start C empty_database collection)))).
Proof.
  split; [| split; [| split; [| split; [| split]]]].
  - intros. subst r. simpl. split; [| split].
    + apply in_or_app. right. by left.
    + reflexivity.
    + apply upsert_count_at.
  - apply types_registered_new.
  - apply types_registered_step.
  - intros db n [].
  - intros. apply types_registered_run, types_registered_new.
  - intros C collection calls.
    destruct (service_store_reached (C := C) collection calls) as (now & ops & ->).
    apply types_registered_run, types_registered_new.
Qed.

Lemma node_types_always_registered_witness :
  types_registered SampleStore.with_concept
  /\ types_registered (apply_op OpClearAll SampleStore.with_concept).
Proof.
  destruct node_types_always_registered as (_ & Hnew & Hstep & _).
  assert (H : types_registered SampleStore.with_concept).
  { apply Hstep. intros n Hn. simpl in Hn. destruct Hn. }
  split; [exact H | apply Hstep, H].
Defined.

(** C8. [clear_all] leaves no node, no edge and no adaptation event, sets
    the three metrics counters to zero, removes every schema type that is not
    a seed and keeps every seed type with its count set to zero; after it the
    four seed types note, person, place and thing are in the registry of any
    store reached from a new one, with count 0, and so they are after the
    route [/clear] on a service started on a new database file, whatever
    calls were made before. *)
Theorem clear_all_resets_store :
  (forall db,
     let db' := clear_all db in
     nodes db' = [] /\ edges db' = [] /\ adaptation_events db' = []
     /\ total_queries (metrics db') = 0 /\ llm_calls (metrics db') = 0
     /\ total_latency_ms (metrics db') = 0%Q
     /\ (forall name,
           schema_types db' !! name
           = match schema_types db !! name with
             | Some r =>
                 if st_is_seed r
                 then Some (mkSchemaRow 0 true (st_evolved_from r) (st_created_at r))
                 else None
             | None => None
             end))
  /\ (forall now ops t,
        In t ["note"; "person"; "place"; "thing"]%string ->
        exists r,
          schema_types (clear_all (run_ops ops (new_database now))) !! t = Some r
          /\ st_is_seed r = true /\ st_count r = 0)
  /\ (forall (C : Collaborators) collection calls fresh t,
        In t ["note"; "person"; "place"; "thing"]%string ->
        let w := GraphService.perform_all C calls
                   (GraphService.start C empty_database collection) in
        let w' := run (GraphService.clear_graph C fresh) w in
        w_db w' = clear_all (w_db w)
        /\ exists r,
             schema_types (w_db w') !! t = Some r
             /\ st_is_seed r = true /\ st_count r = 0).
Proof.
  split; [| split].
  - intros db db'. subst db'. repeat split. apply clear_all_lookup.
  - intros now ops t Ht.
    destruct (seeds_present_run ops _ (seeds_present_new now) t Ht) as (r & Hr & Hs).
    rewrite clear_all_lookup, Hr, Hs. eexists. repeat split.
  - intros C collection calls fresh t Ht w w'.
    assert (Hdb : w_db w' = clear_all (w_db w)) by apply clear_graph_db.
    split; [exact Hdb |]. rewrite Hdb. subst w.
    destruct (service_store_reached (C := C) collection calls) as (now & ops & ->).
    destruct (seeds_present_run ops _ (seeds_present_new now) t Ht) as (r & Hr & Hs).
    rewrite clear_all_lookup, Hr, Hs. eexists. repeat split.
Qed.

Lemma clear_all_resets_store_witness :
  exists r,
    schema_types (clear_all (run_ops [OpCreateNode 0 7 "attention" "concept" None None]
                                     (new_database Sample.clock))) !! "note"%string
    = Some r
    /\ st_is_seed r = true /\ st_count r = 0.
Proof.
  destruct clear_all_resets_store as (_ & H & _).
  apply H. simpl. left. reflexivity.
Defined.


(** * Further properties of the code *)

(** ** Normalizing an entity text *)

Section Normalize.

Import Text.

Lemma py_lower_char_idempotent c : py_lower_char (py_lower_char c) = py_lower_char c.
Proof. destruct c as [[] [] [] [] [] [] [] []]; vm_compute; reflexivity. Qed.

Lemma isspace_py_lower_char c : isspace (py_lower_char c) = isspace c.
Proof. destruct c as [[] [] [] [] [] [] [] []]; vm_compute; reflexivity. Qed.

Lemma append_cons c a b : (String c a ++ b)%string = String c (a ++ b)%string.
Proof. reflexivity. Qed.

Lemma append_nil_left b : ("" ++ b)%string = b.
Proof. reflexivity. Qed.

Lemma append_nil_right s : (s ++ "")%string = s.
Proof.
  induction s as [| c s IH]; [reflexivity |].
  by rewrite append_cons, IH.
Qed.

Lemma append_assoc_string a b c : ((a ++ b) ++ c)%string = (a ++ (b ++ c))%string.
Proof.
  induction a as [| x a IH]; [reflexivity |].
  by rewrite !append_cons, IH.
Qed.

Lemma map_chars_app f a b :
  map_chars f (a ++ b)%string = (map_chars f a ++ map_chars f b)%string.
Proof.
  induction a as [| x a IH]; [reflexivity |].
  rewrite append_cons. cbn [map_chars]. by rewrite append_cons, IH.
Qed.

Lemma all_chars_app P a b : all_chars P (a ++ b)%string <-> all_chars P a /\ all_chars P b.
Proof.
  induction a as [| x a IH]; [rewrite append_nil_left; cbn; tauto |].
  rewrite append_cons. cbn [all_chars]. tauto.
Qed.

Lemma all_chars_lower s : all_chars (fun c => py_lower_char c = c) (lower s).
Proof.
  induction s as [| c s IH]; [done |].
  split; [apply py_lower_char_idempotent | exact IH].
Qed.

Lemma lower_fixed s : all_chars (fun c => py_lower_char c = c) s -> lower s = s.
Proof.
  induction s as [| c s IH]; [done |].
  intros [Hc Hs]. unfold lower in *. cbn [map_chars]. by rewrite Hc, IH.
Qed.

(** The words of a split are words, and keep what holds of every character. *)
Lemma split_from_words P s : forall word,
  all_chars (fun c => isspace c = false) word ->
  all_chars P word -> all_chars P s ->
  Forall (fun w => is_word w /\ all_chars P w) (split_from word s).
Proof.
  induction s as [| c s IH]; intros word Hw HP Hs; cbn [split_from].
  - destruct (is_empty word) eqn:E; [constructor |].
    constructor; [| constructor]. by repeat split.
  - destruct Hs as [Hc Hs]. destruct (isspace c) eqn:Ec.
    + destruct (is_empty word) eqn:E.
      * by apply IH.
      * constructor; [by repeat split | by apply IH].
    + apply IH; [| | exact Hs].
      * apply all_chars_app. cbn. tauto.
      * apply all_chars_app. cbn. tauto.
Qed.

Lemma split_words P s :
  all_chars P s -> Forall (fun w => is_word w /\ all_chars P w) (split s).
Proof. intros H. by apply split_from_words. Qed.

Lemma split_from_word w : forall acc rest,
  all_chars (fun c => isspace c = false) w ->
  split_from acc (w ++ rest)%string = split_from (acc ++ w)%string rest.
Proof.
  induction w as [| c w IH]; intros acc rest Hw.
  - by rewrite append_nil_left, append_nil_right.
  - destruct Hw as [Hc Hw]. rewrite append_cons. cbn [split_from].
    rewrite Hc, IH by done. rewrite append_assoc_string.
    by rewrite append_cons, append_nil_left.
Qed.

Lemma join_cons2 sep w w' ws :
  join sep (w :: w' :: ws) = (w ++ sep ++ join sep (w' :: ws))%string.
Proof. reflexivity. Qed.

(** Splitting what [join] made of words gives the words back. *)
Lemma split_join words : Forall is_word words -> split (join " " words) = words.
Proof.
  unfold split. induction 1 as [| w ws [Hne Hw] Hws IH]; [reflexivity |].
  destruct ws as [| w' ws].
  - cbn [join]. rewrite <- (append_nil_right w) at 1.
    rewrite split_from_word by done. rewrite append_nil_left.
    cbn [split_from]. by rewrite Hne.
  - rewrite join_cons2, split_from_word by done.
    rewrite append_nil_left, append_cons, append_nil_left. cbn [split_from].
    change (isspace " ") with true. cbn iota. by rewrite Hne, IH.
Qed.

Lemma lower_join words :
  lower (join " " words) = join " " (List.map lower words).
Proof.
  induction words as [| w ws IH]; [reflexivity |].
  destruct ws as [| w' ws]; [reflexivity |].
  rewrite join_cons2. cbn [List.map]. rewrite join_cons2.
  unfold lower in *. rewrite !map_chars_app, IH. reflexivity.
Qed.

Lemma normalize_idempotent text :
  normalize_entity_text (normalize_entity_text text) = normalize_entity_text text.
Proof.
  unfold normalize_entity_text.
  pose proof (split_words _ _ (all_chars_lower text)) as Hwords.
  set (words := split (lower text)) in *.
  rewrite lower_join.
  assert (Hfix : List.map lower words = words).
  { clear -Hwords. induction Hwords as [| w ws [_ Hw] _ IH]; [reflexivity |].
    cbn [List.map]. by rewrite (lower_fixed w Hw), IH. }
  rewrite Hfix, split_join; [reflexivity |].
  eapply List.Forall_impl; [| exact Hwords]. by intros w [? _].
Qed.

End Normalize.

(** X1. [normalize_entity_text] is idempotent: a normalized text normalizes
    to itself. *)
Theorem normalize_entity_text_idempotent (text : string) :
  normalize_entity_text (normalize_entity_text text) = normalize_entity_text text.
Proof. apply normalize_idempotent. Qed.

(** ** What the merge of overlapping spans returns *)

Section MergeSelection.

Import EntityExtractor.

Lemma spec_sweep_incl cands : forall cur x,
  In x (spec_sweep cur cands) -> In x (cur :: cands).
Proof.
  induction cands as [| c rest IH]; intros cur x Hx; cbn [spec_sweep] in Hx.
  - exact Hx.
  - destruct (overlaps c cur).
    + apply IH in Hx. unfold higher_scoring in Hx.
      destruct (Qlt_le_dec (ent_score cur) (ent_score c)); destruct Hx as [<- | Hx];
        simpl; auto.
    + destruct Hx as [<- | Hx]; [by left |]. right. by apply IH.
Qed.

Lemma spec_sweep_length cands : forall cur,
  (1 <= length (spec_sweep cur cands) <= S (length cands))%nat.
Proof.
  induction cands as [| c rest IH]; intros cur; cbn [spec_sweep]; [simpl; lia |].
  destruct (overlaps c cur).
  - specialize (IH (higher_scoring cur c)). simpl. lia.
  - specialize (IH c). simpl. lia.
Qed.

Lemma span_le_starts a b : span_le a b -> starts_after a b.
Proof. unfold span_le, starts_after. lia. Qed.

Lemma spec_sweep_apart cands : forall cur,
  StronglySorted starts_after (cur :: cands) ->
  Sorted apart (spec_sweep cur cands).
Proof.
  induction cands as [| c rest IH]; intros cur Hs; cbn [spec_sweep].
  - repeat constructor.
  - apply StronglySorted_inv in Hs as [Hrest Hcur].
    pose proof Hrest as Hrest'.
    apply StronglySorted_inv in Hrest' as [Hrest2 Hc].
    unfold overlaps. destruct (ent_start c <? ent_end cur) eqn:E.
    + apply IH. unfold higher_scoring.
      destruct (Qlt_le_dec (ent_score cur) (ent_score c)); [exact Hrest |].
      constructor; [exact Hrest2 |]. by inversion Hcur.
    + apply Z.ltb_ge in E. constructor; [by apply IH |].
      destruct (spec_sweep c rest) as [| x xs] eqn:Ex; constructor.
      assert (Hin : In x (c :: rest)).
      { apply spec_sweep_incl. rewrite Ex. by left. }
      unfold apart. destruct Hin as [<- | Hin]; [exact E |].
      rewrite List.Forall_forall in Hc. specialize (Hc x Hin).
      unfold starts_after in Hc. lia.
Qed.

Lemma merge_overlapping_selection entities :
  (forall e, In e (merge_overlapping entities) -> In e entities)
  /\ (length (merge_overlapping entities) <= length entities)%nat
  /\ (entities <> [] -> merge_overlapping entities <> [])
  /\ no_adjacent_overlap (merge_overlapping entities).
Proof.
  rewrite merge_overlapping_refines. unfold spec_merge_overlapping.
  pose proof (sorted_perm entities) as Hperm.
  pose proof (sorted_strongly entities) as Hsorted.
  destruct (sorted entities) as [| first rest] eqn:E.
  - apply Permutation_nil in Hperm. subst entities.
    split; [intros e [] |]. split; [simpl; lia |]. split; [done | constructor].
  - split; [| split; [| split]].
    + intros e He. apply spec_sweep_incl in He.
      eapply Permutation_in; [exact Hperm | exact He].
    + pose proof (spec_sweep_length rest first).
      apply Permutation_length in Hperm. simpl in Hperm. lia.
    + intros _ H. pose proof (spec_sweep_length rest first) as L.
      rewrite H in L. simpl in L. lia.
    + apply spec_sweep_apart.
      eapply StronglySorted_ind with (P := StronglySorted starts_after);
        [constructor | | exact Hsorted].
      intros a l _ IH Ha. constructor; [exact IH |].
      eapply List.Forall_impl; [| exact Ha]. intros b. apply span_le_starts.
Qed.

End MergeSelection.

(** X2. [merge_overlapping] selects among its input: every span it returns
    is a span of the input, it returns at least one span when the input has
    one and never more than the input has, and each returned span ends no
    later than the next returned span starts. *)
Theorem merge_overlapping_selects_apart (entities : list ExtractedEntity) :
  (forall e, In e (EntityExtractor.merge_overlapping entities) -> In e entities)
  /\ (length (EntityExtractor.merge_overlapping entities) <= length entities)%nat
  /\ (entities <> [] -> EntityExtractor.merge_overlapping entities <> [])
  /\ no_adjacent_overlap (EntityExtractor.merge_overlapping entities).
Proof. apply merge_overlapping_selection. Qed.

Lemma merge_overlapping_selects_apart_witness :
  EntityExtractor.merge_overlapping SampleSpans.spans <> [].
Proof.
  destruct (merge_overlapping_selects_apart SampleSpans.spans) as (_ & _ & H & _).
  apply H. discriminate.
Defined.

(** ** The labels of a query with context *)

Section ContextLabels.

Import EntityExtractor.

Lemma labels_permutation (l : list string) :
  List.NoDup l ->
  (forall x, In x l <-> In x DEFAULT_LABELS) ->
  Permutation l DEFAULT_LABELS.
Proof.
  intros Hl Hin. apply Stdlib.Sorting.Permutation.NoDup_Permutation; [exact Hl | | exact Hin].
  unfold DEFAULT_LABELS. repeat (constructor; [simpl; intuition discriminate |]).
  constructor.
Qed.

Ltac labels_ok :=
  apply labels_permutation;
  [ repeat (constructor; [simpl; intuition discriminate |]); constructor
  | intros x; simpl; intuition ].

Lemma context_labels query_context :
  exists labels,
    Permutation labels DEFAULT_LABELS
    /\ (forall predict text threshold,
          extract_with_context predict text query_context threshold
          = predict text labels threshold)
    /\ (query_context = None \/ query_context = Some ""%string ->
        labels = DEFAULT_LABELS)
    /\ (forall ctx, query_context = Some ctx ->
        contains "who" (Text.lower ctx) = true ->
        List.firstn 2 labels = ["person"; "organization"]%string).
Proof.
  unfold extract_with_context.
  destruct query_context as [ctx |].
  - destruct ctx as [| c ctx'].
    + exists DEFAULT_LABELS. split; [reflexivity |]. split; [reflexivity |].
      split; [reflexivity |]. intros ctx [= <-]. discriminate.
    + set (ctx := String c ctx'). cbn [Text.is_empty ctx].
      cbn [existsb].
      destruct (contains "who" (Text.lower ctx)) eqn:W;
        destruct (contains "person" (Text.lower ctx));
        destruct (contains "people" (Text.lower ctx));
        destruct (contains "where" (Text.lower ctx));
        destruct (contains "place" (Text.lower ctx));
        destruct (contains "location" (Text.lower ctx));
        destruct (contains "when" (Text.lower ctx));
        destruct (contains "date" (Text.lower ctx));
        destruct (contains "time" (Text.lower ctx));
        cbn [orb];
        (eexists; split; [| split; [intros; reflexivity |
           split; [intros [[=] | [=]] | intros ? [= <-] Hw; first [discriminate | vm_compute; reflexivity | rewrite W in Hw; discriminate]]]]);
        vm_compute; labels_ok.
  - exists DEFAULT_LABELS. split; [reflexivity |]. split; [reflexivity |].
    split; [reflexivity |]. intros ctx [=].
Qed.

End ContextLabels.

(** X3. Whatever the query context, [extract_with_context] hands the
    recognizer each of the eight default labels exactly once: the context
    only reorders them. Without a context, or with an empty one, the order is
    the default one; a context that contains "who" puts person and
    organization first. *)
Theorem extract_with_context_reorders_labels (query_context : option string) :
  exists labels,
    Permutation labels EntityExtractor.DEFAULT_LABELS
    /\ (forall predict text threshold,
          EntityExtractor.extract_with_context predict text query_context threshold
          = predict text labels threshold)
    /\ (query_context = None \/ query_context = Some ""%string ->
        labels = EntityExtractor.DEFAULT_LABELS)
    /\ (forall ctx, query_context = Some ctx ->
        EntityExtractor.contains "who" (Text.lower ctx) = true ->
        List.firstn 2 labels = ["person"; "organization"]%string).
Proof. apply context_labels. Qed.

Lemma extract_with_context_reorders_labels_witness :
  exists labels,
    Permutation labels EntityExtractor.DEFAULT_LABELS
    /\ List.firstn 2 labels = ["person"; "organization"]%string.
Proof.
  destruct (extract_with_context_reorders_labels (Some "Who is Alice"%string))
    as (labels & Hp & _ & _ & Hw).
  exists labels. split; [exact Hp |].
  apply (Hw "Who is Alice"%string); [reflexivity | vm_compute; reflexivity].
Defined.

(** ** Lookups in the store *)

Section Lookups.

Lemma find_first {A} (f : A -> bool) (l : list A) :
  match List.find f l with
  | Some x =>
      exists before after,
        l = before ++ x :: after /\ f x = true
        /\ forall y, In y before -> f y = false
  | None => forall y, In y l -> f y = false
  end.
Proof.
  induction l as [| a l IH]; simpl; [intros y [] |].
  destruct (f a) eqn:E.
  - exists [], l. split; [reflexivity |]. split; [exact E | intros y []].
  - destruct (List.find f l) as [x |].
    + destruct IH as (before & after & -> & Hx & Hb).
      exists (a :: before), after. split; [reflexivity |]. split; [exact Hx |].
      intros y [<- | Hy]; auto.
    + intros y [<- | Hy]; auto.
Qed.

Lemma find_snoc {A} (f : A -> bool) (l : list A) (x : A) :
  List.find f (l ++ [x])
  = match List.find f l with
    | Some y => Some y
    | None => if f x then Some x else None
    end.
Proof.
  induction l as [| a l IH]; simpl; [reflexivity |].
  destruct (f a); [reflexivity | exact IH].
Qed.

Lemma find_pointwise {A} (f g : A -> bool) (l : list A) :
  (forall x, f x = g x) -> List.find f l = List.find g l.
Proof.
  intros H. induction l as [| a l IH]; simpl; [reflexivity |].
  by rewrite H, IH.
Qed.

Lemma find_node_by_name_test name entity_type db :
  find_node_by_name name entity_type db
  = List.find (name_test name entity_type) (nodes db).
Proof.
  unfold find_node_by_name, name_test, type_filter.
  destruct entity_type as [t |]; [destruct (Text.is_empty t) |];
    apply find_pointwise; intros n; by rewrite ?andb_true_r.
Qed.

Lemma name_test_matches name entity_type n :
  name_test name entity_type n = true <-> name_matches name entity_type n.
Proof.
  unfold name_test, name_matches.
  rewrite andb_true_iff, String.eqb_eq.
  destruct (type_filter entity_type) as [t |].
  - rewrite String.eqb_eq. split.
    + intros [H1 H2]. split; [exact H1 |]. by intros t' [= <-].
    + intros [H1 H2]. split; [exact H1 | by apply H2].
  - split; [intros [H1 _]; split; [exact H1 | discriminate] | intros [H1 _]; by split].
Qed.

Lemma name_test_misses name entity_type n :
  name_test name entity_type n = false -> ~ name_matches name entity_type n.
Proof. intros H Hm. apply name_test_matches in Hm. congruence. Qed.

Lemma find_node_by_name_first name entity_type db :
  match find_node_by_name name entity_type db with
  | Some n =>
      exists older newer,
        nodes db = older ++ n :: newer
        /\ name_matches name entity_type n
        /\ forall m, In m older -> ~ name_matches name entity_type m
  | None => forall m, In m (nodes db) -> ~ name_matches name entity_type m
  end.
Proof.
  rewrite find_node_by_name_test.
  pose proof (find_first (name_test name entity_type) (nodes db)) as H.
  destruct (List.find (name_test name entity_type) (nodes db)) as [n |].
  - destruct H as (older & newer & Hsplit & Hn & Hold).
    exists older, newer. split; [exact Hsplit |].
    split; [by apply name_test_matches |].
    intros m Hm. by apply name_test_misses, Hold.
  - intros m Hm. by apply name_test_misses, H.
Qed.

Lemma find_node_by_name_created new_id now name entity_type content metadata db :
  exists n,
    find_node_by_name name None
      (create_node new_id now name entity_type content metadata db).1 = Some n
    /\ Text.LOWER (node_name n) = Text.LOWER name.
Proof.
  rewrite find_node_by_name_test. cbn [create_node fst nodes].
  rewrite find_snoc.
  pose proof (find_first (name_test name None) (nodes db)) as H.
  destruct (List.find (name_test name None) (nodes db)) as [n |].
  - destruct H as (_ & _ & _ & Hn & _). exists n. split; [reflexivity |].
    by apply name_test_matches in Hn as [? _].
  - unfold name_test at 1. cbn [node_name type_filter].
    rewrite String.eqb_refl. cbn [andb]. eexists. split; reflexivity.
Qed.

End Lookups.

(** X4. [find_node_by_name] returns the oldest row whose name equals the
    given one under SQLite's [LOWER] (and whose type is the given one, when a
    non-empty type is given), and [None] exactly when no row matches; after
    [create_node] a lookup of the created name always finds a row. *)
Theorem find_node_by_name_oldest_match
    (name : string) (entity_type : option string) (db : Database) :
  match find_node_by_name name entity_type db with
  | Some n =>
      exists older newer,
        nodes db = older ++ n :: newer
        /\ name_matches name entity_type n
        /\ forall m, In m older -> ~ name_matches name entity_type m
  | None => forall m, In m (nodes db) -> ~ name_matches name entity_type m
  end
  /\ forall new_id now node_type content metadata,
       exists n,
         find_node_by_name name None
           (create_node new_id now name node_type content metadata db).1 = Some n
         /\ Text.LOWER (node_name n) = Text.LOWER name.
Proof.
  split; [apply find_node_by_name_first |].
  intros. apply find_node_by_name_created.
Qed.

Lemma find_node_by_name_oldest_match_witness :
  ~ name_matches "Berlin" None SampleRows.attention.
Proof.
  destruct (find_node_by_name_oldest_match "Berlin" None SampleStore.with_concept)
    as [H _].
  assert (E : find_node_by_name "Berlin" None SampleStore.with_concept = None)
    by (vm_compute; reflexivity).
  rewrite E in H. apply H. vm_compute. left. reflexivity.
Defined.

Section RowLookups.

Lemma get_node_sound node_id0 db n :
  get_node node_id0 db = Some n -> In n (nodes db) /\ node_id n = node_id0.
Proof.
  unfold get_node. intros H.
  pose proof (find_first (fun n => Nat.eqb (node_id n) node_id0) (nodes db)) as F.
  rewrite H in F. destruct F as (before & after & Hsplit & Hid & _).
  split; [rewrite Hsplit; apply in_or_app; right; by left |].
  by apply Nat.eqb_eq.
Qed.

Lemma get_node_missing node_id0 db :
  get_node node_id0 db = None <-> forall n, In n (nodes db) -> node_id n <> node_id0.
Proof.
  unfold get_node. split.
  - intros H n Hn.
    pose proof (find_first (fun n => Nat.eqb (node_id n) node_id0) (nodes db)) as F.
    rewrite H in F. apply Nat.eqb_neq. by apply F.
  - intros H. destruct (List.find _ (nodes db)) as [n |] eqn:E; [| reflexivity].
    destruct (get_node_sound node_id0 db n E) as [Hin Hid].
    destruct (H n Hin Hid).
Qed.

Lemma get_node_created new_id now name entity_type content metadata db :
  let r := create_node new_id now name entity_type content metadata db in
  (get_node new_id db = None -> get_node new_id r.1 = Some r.2)
  /\ (forall other, other <> new_id -> get_node other r.1 = get_node other db)
  /\ (forall other n, get_node other db = Some n -> get_node other r.1 = Some n).
Proof.
  intros r. subst r. unfold get_node. cbn [create_node fst snd nodes].
  split; [| split].
  - intros H. rewrite find_snoc, H. cbn [node_id]. by rewrite Nat.eqb_refl.
  - intros other Hne. rewrite find_snoc.
    destruct (List.find _ (nodes db)); [reflexivity |].
    cbn [node_id]. apply Nat.eqb_neq in Hne. rewrite Nat.eqb_sym in Hne.
    by rewrite Hne.
  - intros other n H. by rewrite find_snoc, H.
Qed.

End RowLookups.

(** X5. [get_node] returns a row of the store with the asked identifier, and
    [None] exactly when no row has it. After [create_node] with an
    identifier that was not in the store, [get_node] of that identifier
    returns the created node; every lookup that found a row before still
    finds the same row. *)
Theorem get_node_after_create_node
    (new_id : Id) (now : Time) (name entity_type : string) (content : option string)
    (metadata : option Dict) (db : Database) :
  let r := create_node new_id now name entity_type content metadata db in
  (forall i n, get_node i db = Some n -> In n (nodes db) /\ node_id n = i)
  /\ (forall i, get_node i db = None <-> forall n, In n (nodes db) -> node_id n <> i)
  /\ (get_node new_id db = None -> get_node new_id r.1 = Some r.2)
  /\ (forall other n, get_node other db = Some n -> get_node other r.1 = Some n).
Proof.
  intros r.
  destruct (get_node_created new_id now name entity_type content metadata db)
    as (H1 & _ & H3).
  split; [intros i n; apply get_node_sound |].
  split; [intros i; apply get_node_missing |].
  split; [exact H1 | exact H3].
Qed.

Lemma get_node_after_create_node_witness :
  get_node 0 SampleStore.with_concept = Some SampleRows.attention.
Proof.
  destruct (get_node_after_create_node 0 7 "attention" "concept" None None
              (new_database Sample.clock)) as (_ & _ & H & _).
  apply H. reflexivity.
Defined.

(** ** Updates of rows *)

Section RowUpdates.

Lemma map_unless {A} (hit : A -> bool) (f : A -> A) (l : list A) :
  (forall x, In x l -> hit x = false) ->
  List.map (fun x => if hit x then f x else x) l = l.
Proof.
  induction l as [| a l IH]; intros H; simpl; [reflexivity |].
  rewrite (H a) by (by left). f_equal. apply IH. intros x Hx. apply H. by right.
Qed.

Lemma update_node_access_unknown now node_id0 db :
  get_node node_id0 db = None -> update_node_access now node_id0 db = db.
Proof.
  intros H. unfold update_node_access, set_nodes.
  rewrite map_unless; [by destruct db |].
  intros n Hn. apply Nat.eqb_neq. by apply (get_node_missing node_id0 db).
Qed.

Lemma boost_edge_unknown now edge_id0 amount db :
  (forall e, In e (edges db) -> edge_id e <> edge_id0) ->
  boost_edge now edge_id0 amount db = db.
Proof.
  intros H. unfold boost_edge, set_edges.
  rewrite map_unless; [by destruct db |].
  intros e He. apply Nat.eqb_neq. by apply H.
Qed.

Lemma set_weight_floor_unknown edge_id0 db :
  (forall e, In e (edges db) -> edge_id e <> edge_id0) ->
  GraphService.set_weight_floor edge_id0 db = db.
Proof.
  intros H. unfold GraphService.set_weight_floor, set_edges.
  rewrite map_unless; [by destruct db |].
  intros e He. apply Nat.eqb_neq. by apply H.
Qed.

End RowUpdates.

(** X6. An update of a row that does not exist changes nothing and raises
    nothing: [update_node_access] with an unknown node identifier and
    [boost_edge] with an unknown edge identifier return the store as it was;
    so [confirm_edge] and [reject_edge] on an unknown edge leave every edge
    as it was and still append their [edge_confirmed] or [edge_rejected]
    event to the adaptation log. *)
Theorem update_of_unknown_row_changes_nothing
    (C : Collaborators) (w : World C) (now : Time) (unknown : Id) (amount : Q) :
  (get_node unknown (w_db w) = None ->
   update_node_access now unknown (w_db w) = w_db w)
  /\ ((forall e, In e (edges (w_db w)) -> edge_id e <> unknown) ->
      boost_edge now unknown amount (w_db w) = w_db w
      /\ (exists ev,
            w_db (run (GraphService.confirm_edge C unknown) w)
            = set_adaptation_events (w_db w) (adaptation_events (w_db w) ++ [ev])
            /\ ev_event_type ev = "edge_confirmed"%string)
      /\ (exists ev,
            w_db (run (GraphService.reject_edge C unknown) w)
            = set_adaptation_events (w_db w) (adaptation_events (w_db w) ++ [ev])
            /\ ev_event_type ev = "edge_rejected"%string)).
Proof.
  split; [apply update_node_access_unknown |].
  intros H. split; [by apply boost_edge_unknown |]. split.
  - eexists. split.
    + unfold run, GraphService.confirm_edge. rewrite !bind_apply. cbn.
      rewrite boost_edge_unknown by exact H. reflexivity.
    + reflexivity.
  - eexists. split.
    + unfold run, GraphService.reject_edge. rewrite !bind_apply. cbn.
      rewrite set_weight_floor_unknown by exact H. reflexivity.
    + reflexivity.
Qed.

Lemma update_of_unknown_row_changes_nothing_witness :
  boost_edge 9 5 0.5 (w_db SampleService.started) = w_db SampleService.started.
Proof.
  destruct (update_of_unknown_row_changes_nothing SampleService.collaborators
              SampleService.started 9 5%nat 0.5) as [_ H].
  apply H. intros e He. vm_compute in He. destruct He.
Defined.

Section EdgeLookup.




End EdgeLookup.



(** ** Metrics *)


Section MetricsFacts.




Context {C : Collaborators}.
Import GraphService.




End MetricsFacts.



(** ** Rows are only appended *)

#[global] Instance db_reached_by_preorder {C : Collaborators} (allowed : Op -> Prop) :
  PreOrder (@db_reached_by C allowed).
Proof.
  split.
  - intros w. exists []. split; [constructor | reflexivity].
  - intros a b c (o1 & A1 & H1) (o2 & A2 & H2). exists (o1 ++ o2).
    split; [by apply Forall_app | by rewrite run_ops_app, <- H1].
Qed.

Section Rows.

Lemma map_key_unless {A K} (key : A -> K) (hit : A -> bool) (f : A -> A) (l : list A) :
  (forall x, key (f x) = key x) ->
  List.map key (List.map (fun x => if hit x then f x else x) l) = List.map key l.
Proof.
  intros H. induction l as [| a l IH]; simpl; [reflexivity |].
  rewrite IH. by destruct (hit a); rewrite ?H.
Qed.

Lemma map_key_all {A K} (key : A -> K) (f : A -> A) (l : list A) :
  (forall x, key (f x) = key x) ->
  List.map key (List.map f l) = List.map key l.
Proof.
  intros H. induction l as [| a l IH]; simpl; [reflexivity |]. by rewrite IH, H.
Qed.

Lemma rows_same_kept db db' : rows_same db db' -> rows_kept db db'.
Proof. intros [H1 H2]. split; [by rewrite H1 | by rewrite H2]. Qed.

Lemma rows_same_step op db : creates_no_row op -> rows_same db (apply_op op db).
Proof.
  destruct op; intros H; try destruct H; split; try reflexivity; cbn.
  - by apply map_key_unless.
  - by apply map_key_unless.
  - by apply map_key_all.
  - by apply map_key_unless.
Qed.

Lemma rows_kept_step op db : deletes_no_row op -> rows_kept db (apply_op op db).
Proof.
  intros H.
  destruct op; try destruct H;
    try (apply rows_same_kept, rows_same_step; exact I).
  - split; cbn; [| reflexivity].
    rewrite List.map_app. by apply prefix_app_r.
  - split; cbn; [reflexivity |].
    rewrite List.map_app. by apply prefix_app_r.
Qed.

Lemma rows_same_run ops : forall db,
  Forall creates_no_row ops -> rows_same db (run_ops ops db).
Proof.
  induction ops as [| op ops IH]; intros db H; [by split |].
  apply Forall_cons in H as [Hop Hops]. simpl.
  destruct (rows_same_step op db Hop) as [A1 A2].
  destruct (IH (apply_op op db) Hops) as [B1 B2].
  split; congruence.
Qed.

Lemma rows_kept_run ops : forall db,
  Forall deletes_no_row ops -> rows_kept db (run_ops ops db).
Proof.
  induction ops as [| op ops IH]; intros db H; [by split |].
  apply Forall_cons in H as [Hop Hops]. simpl.
  destruct (rows_kept_step op db Hop) as [A1 A2].
  destruct (IH (apply_op op db) Hops) as [B1 B2].
  split; etransitivity; eassumption.
Qed.

Context {C : Collaborators}.
Import GraphService.

Lemma by_create_node allowed name entity_type content metadata :
  (forall i t, allowed (OpCreateNode i t name entity_type content metadata)) ->
  respects (db_reached_by allowed) (db_create_node C name entity_type content metadata).
Proof. intros H w. eexists [_]. split; [constructor; [apply H | constructor] | reflexivity]. Qed.

Lemma by_update_node_access allowed node_id0 :
  (forall t, allowed (OpUpdateNodeAccess t node_id0)) ->
  respects (db_reached_by allowed) (db_update_node_access C node_id0).
Proof. intros H w. eexists [_]. split; [constructor; [apply H | constructor] | reflexivity]. Qed.

Lemma by_create_edge allowed source_id target_id relation_type weight metadata :
  (forall i t, allowed (OpCreateEdge i t source_id target_id relation_type weight metadata)) ->
  respects (db_reached_by allowed)
    (db_create_edge C source_id target_id relation_type weight metadata).
Proof. intros H w. eexists [_]. split; [constructor; [apply H | constructor] | reflexivity]. Qed.

Lemma by_boost_edge allowed edge_id0 amount :
  (forall t, allowed (OpBoostEdge t edge_id0 amount)) ->
  respects (db_reached_by allowed) (db_boost_edge C edge_id0 amount).
Proof. intros H w. eexists [_]. split; [constructor; [apply H | constructor] | reflexivity]. Qed.

Lemma by_decay_edges allowed factor :
  allowed (OpDecayEdges factor) ->
  respects (db_reached_by allowed) (db_decay_edges C factor).
Proof. intros H w. eexists [_]. split; [constructor; [apply H | constructor] | reflexivity]. Qed.

Lemma by_log_adaptation allowed event_type description details :
  (forall t, allowed (OpLogAdaptation t event_type description details)) ->
  respects (db_reached_by allowed) (db_log_adaptation C event_type description details).
Proof. intros H w. eexists [_]. split; [constructor; [apply H | constructor] | reflexivity]. Qed.

Lemma by_create_schema_type allowed name evolved_from :
  (forall t t', allowed (OpCreateSchemaType t t' name evolved_from)) ->
  respects (db_reached_by allowed) (db_create_schema_type C name evolved_from).
Proof. intros H w. eexists [_]. split; [constructor; [apply H | constructor] | reflexivity]. Qed.

Lemma by_record_query allowed latency used :
  allowed (OpRecordQuery latency used) ->
  respects (db_reached_by allowed) (db_record_query C latency used).
Proof. intros H w. eexists [_]. split; [constructor; [apply H | constructor] | reflexivity]. Qed.

Lemma by_set_weight_floor allowed edge_id0 w :
  allowed (OpSetWeightFloor edge_id0) ->
  db_reached_by allowed w (put_db C (set_weight_floor edge_id0 (w_db w)) w).2.
Proof. intros H. eexists [_]. split; [constructor; [apply H | constructor] | reflexivity]. Qed.

End Rows.

Ltac leaf_by :=
  first [ apply by_create_node; intros; exact I
        | apply by_update_node_access; intros; exact I
        | apply by_create_edge; intros; exact I
        | apply by_boost_edge; intros; exact I
        | apply by_decay_edges; exact I
        | apply by_log_adaptation; intros; exact I
        | apply by_create_schema_type; intros; exact I
        | apply by_record_query; exact I
        | solve [intros ?; exists []; split; [constructor | reflexivity]] ].

Section RowsOfCalls.

Context {C : Collaborators}.
Import GraphService.

Lemma query_creates_no_row q use_llm mr :
  respects (db_reached_by creates_no_row) (query C q use_llm mr).
Proof. respects_with leaf_by. Qed.

Lemma query_streaming_creates_no_row q use_llm mr :
  respects (db_reached_by creates_no_row) (query_streaming C q use_llm mr).
Proof. respects_with leaf_by. Qed.

Lemma auto_link_loop_deletes_no_row entity_nodes : forall edges,
  respects (db_reached_by deletes_no_row) (auto_link_loop C entity_nodes edges).
Proof.
  induction entity_nodes as [| node_a rest IH]; intros edges; simpl.
  - respects_with leaf_by.
  - apply respects_bind; [apply _ | | exact IH].
    respects_with leaf_by.
Qed.

Lemma add_note_deletes_no_row note :
  respects (db_reached_by deletes_no_row) (add_note C note).
Proof.
  respects_with ltac:(first [apply auto_link_loop_deletes_no_row | leaf_by]).
Qed.

Lemma merge_entities_deletes_no_row keep_id merge_ids :
  respects (db_reached_by deletes_no_row) (merge_entities C keep_id merge_ids).
Proof. respects_with leaf_by. Qed.

Lemma confirm_edge_creates_no_row edge_id0 :
  respects (db_reached_by creates_no_row) (confirm_edge C edge_id0).
Proof. respects_with leaf_by. Qed.

Lemma reject_edge_creates_no_row edge_id0 :
  respects (db_reached_by creates_no_row) (reject_edge C edge_id0).
Proof.
  intros w. unfold reject_edge. rewrite !bind_apply. cbn [fst snd get_db].
  etransitivity; [by apply by_set_weight_floor | by apply by_log_adaptation].
Qed.

Lemma creates_no_row_deletes_none op : creates_no_row op -> deletes_no_row op.
Proof. by destruct op. Qed.

Lemma db_reached_by_weaken (P Q : Op -> Prop) (w w' : World C) :
  (forall op, P op -> Q op) -> db_reached_by P w w' -> db_reached_by Q w w'.
Proof.
  intros H (ops & Hops & E). exists ops. split; [| exact E].
  eapply List.Forall_impl; [exact H | exact Hops].
Qed.

Lemma perform_deletes_no_row call :
  (forall fresh, call <> CallClearGraph C fresh) ->
  respects (db_reached_by deletes_no_row) (perform C call).
Proof.
  intros Hcall. destruct call; unfold perform;
    first [ apply respects_bind; [apply _ | | intros ?; apply respects_ret; apply _]
          | idtac ].
  - apply add_note_deletes_no_row.
  - intros w. eapply db_reached_by_weaken;
      [apply creates_no_row_deletes_none | apply query_creates_no_row].
  - intros w. eapply db_reached_by_weaken;
      [apply creates_no_row_deletes_none | apply query_streaming_creates_no_row].
  - apply merge_entities_deletes_no_row.
  - intros w. eapply db_reached_by_weaken;
      [apply creates_no_row_deletes_none | apply confirm_edge_creates_no_row].
  - intros w. eapply db_reached_by_weaken;
      [apply creates_no_row_deletes_none | apply reject_edge_creates_no_row].
  - destruct (Hcall fresh eq_refl).
Qed.

End RowsOfCalls.

(** X9. No call on the service but the reset deletes a row or changes what
    identifies one: after [add_note], [query], [query_streaming],
    [merge_entities], [confirm_edge] or [reject_edge] the node rows of before
    are still there, in the same places, with the same identifier, name, type,
    content, metadata and creation time, and so are the edge rows with their
    identifier, end points, relation type, metadata and creation time. The
    same holds of every statement on the store but [clear_all]. *)
Theorem rows_are_never_deleted :
  (forall op db, deletes_no_row op -> rows_kept db (apply_op op db))
  /\ (forall (C : Collaborators) (call : GraphService.Call C) (w : World C),
        (forall fresh, call <> GraphService.CallClearGraph C fresh) ->
        rows_kept (w_db w) (w_db (run (GraphService.perform C call) w))).
Proof.
  split; [apply rows_kept_step |].
  intros C call w Hcall.
  destruct (perform_deletes_no_row call Hcall w) as (ops & Hops & E).
  unfold run. rewrite E. by apply rows_kept_run.
Qed.

Lemma rows_are_never_deleted_witness :
  rows_kept (w_db SampleService.started)
    (w_db (run (GraphService.perform SampleService.collaborators
                  (GraphService.CallAddNote SampleService.collaborators
                     SampleService.met_alice))
               SampleService.started)).
Proof.
  destruct rows_are_never_deleted as [_ H].
  apply H. intros fresh. discriminate.
Defined.

(** X11. A query creates no node and no edge: after [query] and after
    [query_streaming] the store has the node rows and the edge rows of before,
    changed in nothing that identifies them. The same holds of
    [confirm_edge] and [reject_edge]. *)
Theorem query_creates_no_rows
    (C : Collaborators) (query_text : string) (use_llm : bool) (max_results : Z)
    (edge_id0 : Id) (w : World C) :
  rows_same (w_db w) (w_db (run (GraphService.query C query_text use_llm max_results) w))
  /\ rows_same (w_db w)
       (w_db (run (GraphService.query_streaming C query_text use_llm max_results) w))
  /\ rows_same (w_db w) (w_db (run (GraphService.confirm_edge C edge_id0) w))
  /\ rows_same (w_db w) (w_db (run (GraphService.reject_edge C edge_id0) w)).
Proof.
  unfold run.
  destruct (query_creates_no_row query_text use_llm max_results w) as (o1 & H1 & ->).
  destruct (query_streaming_creates_no_row query_text use_llm max_results w)
    as (o2 & H2 & ->).
  destruct (confirm_edge_creates_no_row edge_id0 w) as (o3 & H3 & ->).
  destruct (reject_edge_creates_no_row edge_id0 w) as (o4 & H4 & ->).
  repeat split; by apply rows_same_run.
Qed.

(** ** A streaming query is a query that also broadcasts *)

Section SimulationFacts.

Context {C : Collaborators}.
Import GraphService.

Lemma agree_refl (w : World C) : agree w w.
Proof. by repeat split. Qed.

Lemma sim_ret {A} (a : A) : simulates (C := C) (ret a) (ret a).
Proof. intros w1 w2 H. by split. Qed.

Lemma sim_bind {A B} (m1 m2 : M C A) (k1 k2 : A -> M C B) :
  simulates m1 m2 -> (forall a, simulates (k1 a) (k2 a)) ->
  simulates (bind m1 k1) (bind m2 k2).
Proof.
  intros Hm Hk w1 w2 H. rewrite !bind_apply.
  destruct (Hm w1 w2 H) as [Hv Hw]. rewrite Hv. by apply Hk.
Qed.

Lemma sim_for_each {A S} (l : list A) (b1 b2 : S -> A -> M C S) :
  (forall s x, simulates (b1 s x) (b2 s x)) ->
  forall s, simulates (for_each C l b1 s) (for_each C l b2 s).
Proof.
  intros Hb. induction l as [| x l IH]; intros s; simpl.
  - apply sim_ret.
  - apply sim_bind; [apply Hb | exact IH].
Qed.

Lemma sim_broadcast {A} msg (m1 m2 : M C A) :
  simulates m1 m2 -> simulates m1 (bind (broadcast C msg) (fun _ => m2)).
Proof.
  intros Hm w1 w2 H. rewrite bind_apply. apply Hm.
  destruct H as (? & ? & ? & ? & ? & ?). by repeat split.
Qed.

End SimulationFacts.

Ltac leaf_sim :=
  solve [ intros [? ? ? ? ? ? ?] [? ? ? ? ? ? ?] (? & ? & ? & ? & ? & ?);
          cbn in *; subst; split; [reflexivity | by repeat split] ].

Ltac sim_with leaf :=
  repeat (cbv zeta;
    lazymatch goal with
    | |- simulates (ret _) (ret _) => apply sim_ret
    | |- simulates _ (bind (GraphService.broadcast _ _) _) => apply sim_broadcast
    | |- simulates (bind _ _) (bind _ _) => apply sim_bind; [| intros ?]
    | |- simulates (GraphService.for_each _ _ _ _) (GraphService.for_each _ _ _ _) =>
        apply sim_for_each; intros ? ?
    | |- simulates (match ?x with _ => _ end) _ => destruct x
    | |- simulates ?m1 ?m2 =>
        first [ leaf
              | let h1 := head_of m1 in let h2 := head_of m2 in
                progress (unfold h1, h2) ]
    end).

Section QueryAgreement.

Context {C : Collaborators}.
Import GraphService.

Lemma query_streaming_simulates q use_llm mr :
  simulates (query C q use_llm mr) (query_streaming C q use_llm mr).
Proof. sim_with leaf_sim. Qed.

End QueryAgreement.

Section QuerySilent.

Context {C : Collaborators}.
Import GraphService.


End QuerySilent.


(** ** The types of the nodes *)

Section NodeTypes.

Lemma type_mapping_range label :
  In (GraphService.dict_get GraphService.type_mapping label "thing") created_types.
Proof.
  unfold GraphService.type_mapping. cbn [GraphService.dict_get].
  repeat match goal with
  | |- context [String.eqb ?a label] => destruct (String.eqb a label)
  end; simpl; tauto.
Qed.

Lemma known_types_step op db :
  creates_known_type op -> known_types db -> known_types (apply_op op db).
Proof.
  intros Hop H. destruct op; try exact H.
  - intros n Hn. cbn in Hn. apply in_app_or in Hn as [Hn | [<- | []]]; [by apply H |].
    exact Hop.
  - intros n Hn. cbn in Hn. apply in_map_iff in Hn as (n0 & <- & Hn0).
    destruct (Nat.eqb (node_id n0) node_id0); cbn; exact (H n0 Hn0).
  - intros n [].
Qed.

Lemma known_types_run ops : forall db,
  Forall creates_known_type ops -> known_types db -> known_types (run_ops ops db).
Proof.
  induction ops as [| op ops IH]; intros db Hops H; [exact H |].
  apply Forall_cons in Hops as [Hop Hops]. simpl.
  apply IH; [exact Hops | by apply known_types_step].
Qed.

End NodeTypes.

Ltac leaf_types :=
  first [ apply by_create_node; intros; first [apply type_mapping_range | simpl; tauto]
        | apply by_update_node_access; intros; exact I
        | apply by_create_edge; intros; exact I
        | apply by_boost_edge; intros; exact I
        | apply by_decay_edges; exact I
        | apply by_log_adaptation; intros; exact I
        | apply by_create_schema_type; intros; exact I
        | apply by_record_query; exact I
        | solve [intros ?; eexists [OpClearAll]; split; [by repeat constructor | reflexivity]]
        | solve [intros ?; exists []; split; [constructor | reflexivity]] ].

Section NodeTypesOfCalls.

Context {C : Collaborators}.
Import GraphService.

Lemma auto_link_loop_types entity_nodes : forall edges,
  respects (db_reached_by creates_known_type) (auto_link_loop C entity_nodes edges).
Proof.
  induction entity_nodes as [| node_a rest IH]; intros edges; simpl.
  - respects_with leaf_types.
  - apply respects_bind; [apply _ | | exact IH].
    respects_with leaf_types.
Qed.

Lemma by_reject_edge allowed edge_id0 :
  allowed (OpSetWeightFloor edge_id0) ->
  (forall t e d x, allowed (OpLogAdaptation t e d x)) ->
  respects (db_reached_by allowed) (reject_edge C edge_id0).
Proof.
  intros H1 H2 w. unfold reject_edge. rewrite !bind_apply. cbn [fst snd get_db].
  etransitivity; [by apply by_set_weight_floor | by apply by_log_adaptation].
Qed.

Lemma perform_types call :
  respects (db_reached_by creates_known_type) (perform C call).
Proof.
  destruct call; unfold perform.
  - respects_with ltac:(first [apply auto_link_loop_types | leaf_types]).
  - respects_with leaf_types.
  - respects_with leaf_types.
  - respects_with leaf_types.
  - respects_with leaf_types.
  - apply by_reject_edge; intros; exact I.
  - respects_with leaf_types.
Qed.

Lemma perform_all_types calls : forall w,
  db_reached_by creates_known_type w (perform_all C calls w).
Proof.
  induction calls as [| call calls IH]; intros w; simpl; [reflexivity |].
  etransitivity; [apply (perform_types call w) | apply IH].
Qed.

End NodeTypesOfCalls.

(** X12. The engine gives a node one of six types: note to a note, and to
    an entity the type its label maps to, which is person, place, thing,
    concept or project, thing standing for every label the mapping does not
    know. So in the store of a service started on a new database file every
    node has one of these six types, whatever calls were made and whatever
    labels the recognizer returned. *)
Theorem nodes_have_one_of_six_types :
  (forall label,
     In (GraphService.dict_get GraphService.type_mapping label "thing") created_types)
  /\ (forall (C : Collaborators) (call : GraphService.Call C) (w : World C),
        known_types (w_db w) ->
        known_types (w_db (run (GraphService.perform C call) w)))
  /\ (forall (C : Collaborators) collection calls,
        known_types
          (w_db (GraphService.perform_all C calls
                   (GraphService.start C empty_database collection)))).
Proof.
  split; [apply type_mapping_range |]. split.
  - intros C call w H.
    destruct (perform_types call w) as (ops & Hops & E).
    unfold run. rewrite E. by apply known_types_run.
  - intros C collection calls.
    destruct (perform_all_types calls (GraphService.start C empty_database collection))
      as (ops & Hops & E).
    rewrite E. apply known_types_run; [exact Hops |].
    intros n Hn. assert (E0 : w_db (GraphService.start C empty_database collection)
                              = _init_schema (fun t => utcnow_at C (GraphService.index_of t seed_types)) empty_database).
    { unfold GraphService.start. apply refresh_type_counts_db. }
    rewrite E0 in Hn. destruct Hn.
Qed.

Lemma nodes_have_one_of_six_types_witness :
  known_types
    (w_db (run (GraphService.perform SampleService.collaborators
                  (GraphService.CallAddNote SampleService.collaborators
                     SampleService.new_york))
               SampleService.started)).
Proof.
  destruct nodes_have_one_of_six_types as (_ & H & _).
  apply H. intros n Hn. vm_compute in Hn. destruct Hn.
Defined.

(** ** Edge weights of the service *)

Ltac respects_keeping pre leaf :=
  repeat (cbv zeta;
    first
      [ pre
      | lazymatch goal with
        | |- keeps _ _ => unfold keeps
        | |- respects _ (ret _) => apply respects_ret; apply _
        | |- respects _ (bind _ _) => apply respects_bind; [apply _ | | intros ?]
        | |- respects _ (GraphService.for_each _ _ _ _) =>
            apply respects_for_each; [apply _ | intros ? ? ?]
        | |- respects _ (match ?x with _ => _ end) => destruct x
        | |- respects _ ?m => first [ leaf | let h := head_of m in progress unfold h ]
        end ]).

Section ServiceWeights.

Context {C : Collaborators}.
Import GraphService.

Lemma keeps_create_edge source_id target_id relation_type weight metadata :
  in_weight_range weight ->
  keeps weights_ok (db_create_edge C source_id target_id relation_type weight metadata).
Proof.
  intros Hr w H. unfold weights_ok in *. cbn.
  apply Forall_app. split; [exact H |]. constructor; [exact Hr | constructor].
Qed.

Lemma keeps_boost_edge edge_id0 amount :
  (0 <= amount)%Q -> keeps weights_ok (db_boost_edge C edge_id0 amount).
Proof.
  intros Ha w H. unfold weights_ok in *. cbn.
  induction H as [| e l He _ IH]; simpl; constructor; auto.
  destruct (Nat.eqb (edge_id e) edge_id0); auto using boosted_in_range.
Qed.

Lemma keeps_decay_edges factor :
  (factor <= 1)%Q -> keeps weights_ok (db_decay_edges C factor).
Proof.
  intros Hf w H. unfold weights_ok in *. cbn.
  induction H as [| e l He _ IH]; simpl; constructor; auto using decayed_in_range.
Qed.

Lemma keeps_clear_all : keeps weights_ok (db_clear_all C).
Proof. intros w H. constructor. Qed.

Lemma keeps_reject_edge edge_id0 : keeps weights_ok (reject_edge C edge_id0).
Proof.
  intros w H. unfold weights_ok in *. cbn.
  induction H as [| e l He _ IH]; simpl; constructor; auto.
  destruct (Nat.eqb (edge_id e) edge_id0); [| exact He].
  split; cbn; lra.
Qed.

Lemma get_edges_for_node_ok node_id0 (w : World C) :
  weights_ok w -> Forall weight_in_range (get_edges_for_node node_id0 (w_db w)).
Proof.
  unfold weights_ok, get_edges_for_node. intros H.
  induction H as [| e l He _ IH]; simpl; [constructor |].
  destruct (_ || _); [by constructor | exact IH].
Qed.

Lemma keeps_merge_edge keep_id merge_id edge :
  weight_in_range edge -> keeps weights_ok (merge_edge C keep_id merge_id tt edge).
Proof.
  intros He. unfold merge_edge.
  respects_keeping fail
    ltac:(first [by apply keeps_create_edge
                | solve [let K := fresh in intros ? K; exact K]]).
Qed.

Lemma keeps_merge_block keep_id merge_id :
  keeps weights_ok
    (bind (db_get_edges_for_node C merge_id)
       (fun edges =>
          bind (for_each C edges (merge_edge C keep_id merge_id) tt)
            (fun _ => embeddings_delete_node C merge_id))).
Proof.
  intros w H. rewrite bind_apply.
  change (db_get_edges_for_node C merge_id w).1
    with (get_edges_for_node merge_id (w_db w)).
  change (db_get_edges_for_node C merge_id w).2 with w.
  pose proof (get_edges_for_node_ok merge_id w H) as Hl.
  rewrite List.Forall_forall in Hl.
  set (l := get_edges_for_node merge_id (w_db w)) in *. clearbody l.
  assert (K : keeps weights_ok
                (bind (for_each C l (merge_edge C keep_id merge_id) tt)
                      (fun _ => embeddings_delete_node C merge_id))).
  { unfold keeps. apply respects_bind; [apply _ | |].
    - apply respects_for_each; [apply _ |].
      intros [] edge Hin. apply keeps_merge_edge. by apply Hl.
    - intros _ w1 H1. exact H1. }
  exact (K w H).
Qed.

Lemma extract_clean_scores text labels threshold e :
  scores_in_range C ->
  In e (EntityExtractor.extract_clean (predict_entities C) text labels threshold) ->
  in_weight_range (ent_score e).
Proof.
  intros (Hs & _) He. unfold EntityExtractor.extract_clean in He.
  apply merge_overlapping_selection in He.
  unfold EntityExtractor.extract in He. by apply Hs in He.
Qed.

End ServiceWeights.

Ltac range_ok Hc :=
  first
    [ eapply extract_clean_scores; [exact Hc | eassumption]
    | split;
      [ unfold GraphService.SIMILARITY_THRESHOLD in *; lra
      | first [ apply Hc | destruct Hc as (_ & _ & H3); eapply H3; eassumption ] ] ].

Ltac leaf_weights Hc :=
  first
    [ apply keeps_create_edge; range_ok Hc
    | apply keeps_boost_edge; first [lra | vm_compute; discriminate]
    | apply keeps_decay_edges; first [lra | vm_compute; discriminate]
    | apply keeps_clear_all
    | apply keeps_reject_edge
    | solve [let K := fresh in intros ? K; exact K] ].

Section ServiceWeightsOfCalls.

Context {C : Collaborators}.
Import GraphService.

Lemma auto_link_loop_weights entity_nodes :
  scores_in_range C ->
  forall edges, keeps weights_ok (auto_link_loop C entity_nodes edges).
Proof.
  intros Hc.
  induction entity_nodes as [| node_a rest IH]; intros edges; simpl.
  - respects_keeping fail ltac:(leaf_weights Hc).
  - unfold keeps. apply respects_bind; [apply _ | | exact IH].
    respects_keeping fail ltac:(leaf_weights Hc).
Qed.

Lemma perform_weights call :
  scores_in_range C -> keeps weights_ok (perform C call).
Proof.
  intros Hc. destruct call; unfold perform.
  - respects_keeping fail
      ltac:(first [by apply auto_link_loop_weights | leaf_weights Hc]).
  - respects_keeping fail ltac:(leaf_weights Hc).
  - respects_keeping fail ltac:(leaf_weights Hc).
  - respects_keeping ltac:(apply keeps_merge_block) ltac:(leaf_weights Hc).
  - respects_keeping fail ltac:(leaf_weights Hc).
  - respects_keeping fail ltac:(leaf_weights Hc).
  - respects_keeping fail ltac:(leaf_weights Hc).
Qed.

Lemma perform_all_weights calls :
  scores_in_range C ->
  forall w, weights_ok w -> weights_ok (perform_all C calls w).
Proof.
  intros Hc. induction calls as [| call calls IH]; intros w H; simpl; [exact H |].
  apply IH. by apply (perform_weights call Hc w).
Qed.

End ServiceWeightsOfCalls.

(** X13. With a recognizer that scores its entities in [0.1, 10] and
    similarities of at most 10, every call on the service keeps the weights of
    all edges in [0.1, 10]: the edges [add_note] creates take a score of the
    recognizer or a similarity above the threshold 0.7, [merge_entities]
    copies the weights of edges of the store, every boost the service makes
    is positive, its decay factor is below 1, and [reject_edge] sets the
    floor 0.1. So the weights are in range in the store of a service started
    on a new database file, whatever calls were made. *)
Theorem service_keeps_weights_in_range
    (C : Collaborators) (collection : Collection C)
    (calls : list (GraphService.Call C)) (call : GraphService.Call C) (w : World C) :
  scores_in_range C ->
  (weights_ok w -> weights_ok (run (GraphService.perform C call) w))
  /\ weights_ok (GraphService.perform_all C calls
                   (GraphService.start C empty_database collection)).
Proof.
  intros Hc. split.
  - apply (perform_weights call Hc w).
  - apply perform_all_weights; [exact Hc |].
    unfold weights_ok.
    assert (E0 : w_db (GraphService.start C empty_database collection)
                 = _init_schema (fun t => utcnow_at C (GraphService.index_of t seed_types))
                                empty_database).
    { unfold GraphService.start. apply refresh_type_counts_db. }
    rewrite E0. constructor.
Qed.

Lemma sample_scores_in_range : scores_in_range SampleService.collaborators.
Proof.
  split; [| split].
  - intros text labels threshold e He. cbn in He. unfold SampleService.recognize in He.
    repeat match type of He with
    | In _ (if ?b then _ else _) => destruct b
    end;
    simpl in He; intuition (subst; split; vm_compute; discriminate).
  - intros a b. vm_compute. discriminate.
  - intros i n collection h [].
Qed.

Lemma service_keeps_weights_in_range_witness :
  weights_ok
    (GraphService.perform_all SampleService.collaborators
       [GraphService.CallAddNote SampleService.collaborators SampleService.met_alice;
        GraphService.CallConfirmEdge SampleService.collaborators 2]
       (GraphService.start SampleService.collaborators empty_database [])).
Proof.
  apply (service_keeps_weights_in_range SampleService.collaborators []
           _ (GraphService.CallRejectEdge SampleService.collaborators 2)
           SampleService.started).
  apply sample_scores_in_range.
Defined.

(** ** The type counters *)

Section TypeCounters.

Context {C : Collaborators}.
Import GraphService.

Lemma refresh_loop l : forall w : World C,
  (for_each C l
     (fun _ t =>
        bind (get_type_counts C)
             (fun c => put_type_counts C (<[stype_name t := stype_count t]> c)))
     tt w).2
  = mkWorld (w_db w) (w_embeddings w) (fold_left refresh_step l (w_type_counts w))
            (w_uuids w) (w_ticks w) (w_sent w) (w_generated w).
Proof.
  induction l as [| t l IH]; intros w; [by destruct w |].
  cbn [for_each]. rewrite bind_apply. rewrite IH. reflexivity.
Qed.

Lemma refresh_fold_lookup l k : forall c,
  List.NoDup (List.map stype_name l) ->
  fold_left refresh_step l c !! k
  = match List.find (fun t => String.eqb (stype_name t) k) l with
    | Some t => Some (stype_count t)
    | None => c !! k
    end.
Proof.
  induction l as [| t l IH]; intros c Hnd; [reflexivity |].
  apply List.NoDup_cons_iff in Hnd as [Hnotin Hnd].
  cbn [fold_left List.find]. rewrite (IH _ Hnd). unfold refresh_step at 1.
  destruct (String.eqb (stype_name t) k) eqn:E.
  - apply String.eqb_eq in E. subst k.
    pose proof (find_first (fun t0 => String.eqb (stype_name t0) (stype_name t)) l) as F.
    destruct (List.find _ l) as [t' |].
    + destruct F as (before & after & -> & Ht' & _). apply String.eqb_eq in Ht'.
      exfalso. apply Hnotin. rewrite <- Ht'. apply in_map, in_or_app. right. by left.
    + apply lookup_insert_eq.
  - apply String.eqb_neq in E.
    destruct (List.find _ l); [reflexivity | by apply lookup_insert_ne].
Qed.

Lemma find_schema_type db k :
  stype_count <$> List.find (fun t => String.eqb (stype_name t) k) (get_schema_types db)
  = st_count <$> schema_types db !! k.
Proof.
  pose proof (find_first (fun t => String.eqb (stype_name t) k) (get_schema_types db)) as F.
  destruct (List.find _ (get_schema_types db)) as [t |] eqn:E.
  - destruct F as (before & after & Hsplit & Hk & _). apply String.eqb_eq in Hk.
    assert (Hin : In t (get_schema_types db)).
    { rewrite Hsplit. apply in_or_app. right. by left. }
    unfold get_schema_types in Hin. apply in_map_iff in Hin as ([k' r] & <- & Hin).
    cbn in Hk. subst k'.
    apply list_elem_of_In, elem_of_map_to_list in Hin. by rewrite Hin.
  - destruct (schema_types db !! k) as [r |] eqn:Hr; [| reflexivity].
    exfalso.
    assert (Hin : In (mkSchemaType k (st_count r) (st_is_seed r) (st_evolved_from r)
                                   (st_created_at r)) (get_schema_types db)).
    { unfold get_schema_types. apply in_map_iff. exists (k, r). split; [reflexivity |].
      by apply list_elem_of_In, elem_of_map_to_list. }
    specialize (F _ Hin). cbn in F. rewrite String.eqb_refl in F. discriminate.
Qed.

Lemma refresh_type_counts_lookup (w : World C) k :
  w_type_counts (run (_refresh_type_counts C) w) !! k
  = match schema_types (w_db w) !! k with
    | Some r => Some (st_count r)
    | None => w_type_counts w !! k
    end.
Proof.
  unfold run, _refresh_type_counts. rewrite bind_apply.
  change (db_get_schema_types C w).1 with (get_schema_types (w_db w)).
  change (db_get_schema_types C w).2 with w.
  rewrite refresh_loop. cbn [w_type_counts].
  rewrite refresh_fold_lookup by apply schema_type_names_NoDup.
  pose proof (find_schema_type (w_db w) k) as F.
  destruct (List.find _ (get_schema_types (w_db w))) as [t |];
    destruct (schema_types (w_db w) !! k) as [r |]; cbn in F; congruence.
Qed.

Lemma refresh_from_empty (w : World C) :
  w_type_counts w = ∅ ->
  w_type_counts (run (_refresh_type_counts C) w) = st_count <$> schema_types (w_db w).
Proof.
  intros He. apply map_eq. intros k.
  rewrite refresh_type_counts_lookup, lookup_fmap, He, lookup_empty.
  by destruct (schema_types (w_db w) !! k).
Qed.

Lemma refresh_db (w : World C) : w_db (run (_refresh_type_counts C) w) = w_db w.
Proof. apply refresh_type_counts_db. Qed.

End TypeCounters.

(** X14. [_refresh_type_counts] sets the counter of every schema type to the
    count of its row and leaves the other counters alone. So a service that
    has just started, and a service after the route [/clear], count for
    every type what the registry counts, and have no other counter. *)
Theorem type_counters_follow_registry (C : Collaborators) (w : World C) :
  (forall k,
     w_type_counts (run (GraphService._refresh_type_counts C) w) !! k
     = match schema_types (w_db w) !! k with
       | Some r => Some (st_count r)
       | None => w_type_counts w !! k
       end)
  /\ (forall file collection,
        w_type_counts (GraphService.start C file collection)
        = st_count <$> schema_types (w_db (GraphService.start C file collection)))
  /\ (forall fresh,
        w_type_counts (run (GraphService.clear_graph C fresh) w)
        = st_count <$> schema_types (w_db (run (GraphService.clear_graph C fresh) w))).
Proof.
  split; [apply refresh_type_counts_lookup |]. split.
  - intros file collection. unfold GraphService.start.
    rewrite refresh_from_empty by reflexivity. by rewrite refresh_db.
  - intros fresh. unfold run, GraphService.clear_graph.
    rewrite !bind_apply. cbn [fst snd].
    match goal with
    | |- context [(GraphService._refresh_type_counts C ?w0).2] =>
        change ((GraphService._refresh_type_counts C w0).2)
          with (run (GraphService._refresh_type_counts C) w0);
        rewrite (refresh_from_empty w0) by reflexivity; by rewrite refresh_db
    end.
Qed.

(** ** The promotion checks *)

#[global] Instance logs_only_preorder {C : Collaborators} (event_type : string) :
  PreOrder (@logs_only C event_type).
Proof.
  split.
  - intros w. exists []. split; [by rewrite List.app_nil_r | constructor].
  - intros a b c (e1 & H1 & L1) (e2 & H2 & L2). exists (e1 ++ e2).
    split; [by rewrite H2, H1, List.app_assoc | by apply Forall_app].
Qed.

Section CounterExact.

Lemma counter_add_keys k c x :
  In x (List.map fst (counter_add k c)) <-> x = k \/ In x (List.map fst c).
Proof.
  induction c as [| [k' n] c IH]; simpl.
  - intuition.
  - destruct (String.eqb k' k) eqn:E; simpl.
    + apply String.eqb_eq in E as ->. intuition.
    + rewrite IH. intuition.
Qed.

Lemma counter_add_NoDup k c :
  List.NoDup (List.map fst c) -> List.NoDup (List.map fst (counter_add k c)).
Proof.
  induction c as [| [k' n] c IH]; simpl; intros H.
  - constructor; [intros [] | constructor].
  - apply List.NoDup_cons_iff in H as [Hk Hc].
    destruct (String.eqb k' k) eqn:E; simpl.
    + by constructor.
    + constructor; [| by apply IH].
      rewrite counter_add_keys. intros [-> | H]; [| by apply Hk].
      rewrite String.eqb_refl in E. discriminate.
Qed.

Lemma counter_fold_invariant keys : forall c,
  List.NoDup (List.map fst c) ->
  List.NoDup (List.map fst (fold_left (fun c k => counter_add k c) keys c))
  /\ forall x, In x (List.map fst (fold_left (fun c k => counter_add k c) keys c)) ->
       In x keys \/ In x (List.map fst c).
Proof.
  induction keys as [| k keys IH]; intros c H; simpl; [by split; auto |].
  destruct (IH (counter_add k c) (counter_add_NoDup k c H)) as [H1 H2].
  split; [exact H1 |]. intros x Hx. apply H2 in Hx as [Hx | Hx]; [by left; right |].
  apply counter_add_keys in Hx as [-> | Hx]; auto.
Qed.

Lemma counter_get_unique t n c :
  List.NoDup (List.map fst c) -> In (t, n) c -> counter_get t c = n.
Proof.
  induction c as [| [k' n'] c IH]; intros Hnd Hin; [destruct Hin |].
  simpl in *. apply List.NoDup_cons_iff in Hnd as [Hk Hc].
  destruct Hin as [Heq | Hin].
  - injection Heq as -> ->. by rewrite String.eqb_refl.
  - destruct (String.eqb k' t) eqn:E; [| by apply IH].
    apply String.eqb_eq in E as ->. exfalso. apply Hk.
    apply in_map_iff. by exists (t, n).
Qed.

(** An item of the [Counter] over the types of some nodes is a type of one
    of them with the number of the nodes that have it. *)
Lemma Counter_item t n l :
  In (t, n) (Counter (List.map node_entity_type l)) ->
  n = count_type t l /\ exists node, In node l /\ node_entity_type node = t.
Proof.
  intros Hin. unfold Counter in *.
  destruct (counter_fold_invariant (List.map node_entity_type l) [])
    as [Hnd Hkeys]; [constructor |].
  split.
  - rewrite <- (counter_get_unique t n _ Hnd Hin).
    rewrite counter_fold_get, count_type_keys. simpl. lia.
  - destruct (Hkeys t) as [Hk | []].
    + apply in_map_iff. by exists (t, n).
    + apply in_map_iff in Hk as (node & <- & Hnode). eauto.
Qed.

End CounterExact.

Section IdleChecks.

Context {C : Collaborators}.
Import GraphService.

Lemma for_each_idle {A S} (l : list A) (body : S -> A -> M C S) s w :
  (forall x, In x l -> body s x w = (s, w)) ->
  for_each C l body s w = (s, w).
Proof.
  induction l as [| x l IH]; intros H; [reflexivity |].
  cbn [for_each]. rewrite bind_apply, (H x) by (by left). cbn [fst snd].
  apply IH. intros y Hy. apply H. by right.
Qed.

Lemma check_query_adaptations_idle q accessed w :
  (forall t, count_type t accessed < 3) ->
  _check_query_adaptations C q accessed w = (tt, w).
Proof.
  intros H. unfold _check_query_adaptations. apply for_each_idle.
  intros [t n] Hin. apply Counter_item in Hin as [-> _].
  unfold query_promote_step. specialize (H t).
  apply Z.leb_gt in H. by rewrite H.
Qed.

Lemma check_type_promotions_idle w :
  types_registered (w_db w) -> _check_type_promotions C w = (tt, w).
Proof.
  intros H. unfold _check_type_promotions. rewrite !bind_apply.
  cbn [db_get_schema_types get_db bind ret fst snd].
  apply for_each_idle. intros [t n] Hin.
  apply Counter_item in Hin as [_ (node & Hnode & <-)].
  unfold promote_if_due.
  assert (E : existsb (String.eqb (node_entity_type node))
                (List.map stype_name (get_schema_types (w_db w))) = true).
  { apply not_false_iff_true. rewrite names_of_registry.
    destruct (H node Hnode) as [r Hr]. congruence. }
  by rewrite E.
Qed.

Lemma check_query_adaptations_logs q accessed :
  respects (logs_only "type_created") (_check_query_adaptations C q accessed).
Proof.
  respects_with ltac:(first
    [ solve [intros ?; eexists [_]; split; [reflexivity | by repeat constructor]]
    | solve [intros ?; exists []; split; [cbn; by rewrite List.app_nil_r | constructor]] ]).
Qed.

Lemma query_logs q use_llm mr :
  respects (logs_only "type_created") (query C q use_llm mr).
Proof.
  respects_with ltac:(first
    [ solve [intros ?; eexists [_]; split; [reflexivity | by repeat constructor]]
    | solve [intros ?; exists []; split; [cbn; by rewrite List.app_nil_r | constructor]] ]).
Qed.

Lemma query_streaming_logs q use_llm mr :
  respects (logs_only "type_created") (query_streaming C q use_llm mr).
Proof.
  respects_with ltac:(first
    [ solve [intros ?; eexists [_]; split; [reflexivity | by repeat constructor]]
    | solve [intros ?; exists []; split; [cbn; by rewrite List.app_nil_r | constructor]] ]).
Qed.

End IdleChecks.

Lemma count_type_le_length t l : count_type t l <= Z.of_nat (length l).
Proof.
  unfold count_type. apply inj_le. apply List.filter_length_le.
Qed.

(** X15. The promotion check of a query does nothing at all when the query
    accessed fewer than three nodes of every type: the access counters, the
    registry and the adaptation log are as before. *)
Theorem query_check_needs_three_of_a_type (C : Collaborators) (q : string)
    (accessed : list Node) (w : World C) :
  (forall t, count_type t accessed < 3) ->
  GraphService._check_query_adaptations C q accessed w = (tt, w).
Proof.
  apply check_query_adaptations_idle.
Qed.

Lemma query_check_needs_three_of_a_type_witness :
  GraphService._check_query_adaptations SampleService.collaborators "Alice"
    (nodes_of SampleService.after_alice) SampleService.after_alice
  = (tt, SampleService.after_alice).
Proof.
  apply query_check_needs_three_of_a_type.
  intros t. pose proof (count_type_le_length t (nodes_of SampleService.after_alice)) as H.
  vm_compute (length _) in H. lia.
Defined.

(** X16. The promotion scan of the ingestion does nothing on a store in
    which every node's type has a row in the registry, so there
    [_check_adaptations] amounts to the decay of the edges alone. *)
Theorem ingestion_scan_idle_on_registered_store (C : Collaborators) (w : World C) :
  types_registered (w_db w) ->
  GraphService._check_type_promotions C w = (tt, w)
  /\ GraphService._check_adaptations C w = GraphService.db_decay_edges C 0.995 w.
Proof.
  intros H. split; [by apply check_type_promotions_idle |].
  unfold GraphService._check_adaptations.
  by rewrite bind_apply, check_type_promotions_idle.
Qed.

Lemma ingestion_scan_idle_on_registered_store_witness :
  GraphService._check_type_promotions SampleService.collaborators
    SampleService.after_alice = (tt, SampleService.after_alice)
  /\ GraphService._check_adaptations SampleService.collaborators
       SampleService.after_alice
     = GraphService.db_decay_edges SampleService.collaborators 0.995
         SampleService.after_alice.
Proof.
  apply ingestion_scan_idle_on_registered_store.
  assert (H : exists now ops,
             w_db (GraphService.start SampleService.collaborators empty_database [])
             = run_ops ops (new_database now))
    by exact (service_store_reached (C := SampleService.collaborators) [] []).
  destruct H as (now & ops & H).
  destruct (add_note_reached (C := SampleService.collaborators)
              SampleService.met_alice SampleService.started) as [ops' H'].
  unfold SampleService.after_alice, run. rewrite H'.
  unfold SampleService.started. rewrite H, <- run_ops_app.
  apply types_registered_run, types_registered_new.
Defined.

(** X17. A query, streamed or not, appends to the adaptation log nothing but
    events of the type "type_created": it never logs a promotion or a
    merge. *)
Theorem query_logs_only_type_created (C : Collaborators) (q : string)
    (use_llm : bool) (max_results : Z) (w : World C) :
  logs_only "type_created" w (run (GraphService.query C q use_llm max_results) w)
  /\ logs_only "type_created" w
       (run (GraphService.query_streaming C q use_llm max_results) w).
Proof.
  split; [apply query_logs | apply query_streaming_logs].
Qed.

(** ** Merging entities *)

#[global] Instance only_adds_edges_preorder {C : Collaborators} :
  PreOrder (@only_adds_edges C).
Proof.
  split.
  - intros w. by repeat split.
  - intros a b c (N1 & L1 & E1) (N2 & L2 & E2).
    split; [congruence | split; [congruence | by etransitivity]].
Qed.

Section Merge.

Context {C : Collaborators}.
Import GraphService.
Local Open Scope service_scope.

Ltac leaf_edges :=
  solve [ intros ?; split; [reflexivity | split; [reflexivity | reflexivity]]
        | intros ?; split; [reflexivity | split; [reflexivity |]];
          cbn; eexists; reflexivity ].

Lemma merge_edges_loop keep_id merge_id l :
  respects only_adds_edges (for_each C l (merge_edge C keep_id merge_id) tt)
  /\ respects (unchanged w_embeddings) (for_each C l (merge_edge C keep_id merge_id) tt).
Proof.
  split.
  - respects_with leaf_edges.
  - respects_with leaf_unchanged.
Qed.

Lemma get_node_nodes i db db' : nodes db' = nodes db -> get_node i db' = get_node i db.
Proof. unfold get_node. by intros ->. Qed.

Lemma absorbed_deleted_nodes db db' l e :
  nodes db' = nodes db -> absorbed_deleted C db' l e = absorbed_deleted C db l e.
Proof.
  intros H. unfold absorbed_deleted. revert e.
  induction l as [| i l IH]; intros e; [reflexivity |].
  cbn [fold_left]. by rewrite (get_node_nodes i db db' H), IH.
Qed.

(** The loop of [merge_entities] over the absorbed ids. *)
Lemma merge_loop keep_id merge_ids : forall w,
  let body := fun (_ : unit) merge_id =>
    let* merge_node := db_get_node C merge_id in
    match merge_node with
    | None => ret tt
    | Some _ =>
        let* edges := db_get_edges_for_node C merge_id in
        for_each C edges (merge_edge C keep_id merge_id) tt ;;
        embeddings_delete_node C merge_id
    end in
  let w' := (for_each C merge_ids body tt w).2 in
  only_adds_edges w w'
  /\ w_embeddings w' = absorbed_deleted C (w_db w) merge_ids (w_embeddings w).
Proof.
  induction merge_ids as [| i l IH]; intros w body w'; subst w'.
  - split; reflexivity.
  - cbn [for_each]. rewrite bind_apply.
    assert (Hstep : only_adds_edges w (body tt i w).2
                    /\ w_embeddings (body tt i w).2
                       = match get_node i (w_db w) with
                         | Some _ => emb_delete_node C i (w_embeddings w)
                         | None => w_embeddings w
                         end).
    { subst body. cbv beta. rewrite bind_apply.
      change (db_get_node C i w) with (get_node i (w_db w), w). cbn [fst snd].
      destruct (get_node i (w_db w)) as [n |]; [| by split].
      rewrite !bind_apply.
      change (db_get_edges_for_node C i w) with (get_edges_for_node i (w_db w), w).
      cbn [fst snd].
      destruct (merge_edges_loop keep_id i (get_edges_for_node i (w_db w))) as [H1 H2].
      specialize (H1 w). specialize (H2 w). unfold unchanged in H2.
      set (w1 := (for_each C _ _ tt w).2) in *.
      split.
      - destruct H1 as (N & L & E). by repeat split.
      - cbn. by rewrite H2. }
    destruct Hstep as [H1 H2].
    replace ((body tt i w).1) with tt by (by destruct ((body tt i w).1)).
    destruct (IH (body tt i w).2) as [H3 H4].
    split; [by etransitivity |].
    cbv zeta in H4. fold body in H4. rewrite H4, H2.
    destruct H1 as (N & _ & _).
    rewrite (absorbed_deleted_nodes (w_db w) _ l _ N).
    reflexivity.
Qed.

End Merge.

(** X18. [merge_entities] returns the node [keep_id] names, and when there is
    none it changes nothing. Otherwise it deletes the embedding of every
    absorbed id that names a node, logs one "entities_merged" event, and
    stores new edges after the old ones: the absorbed nodes and their edges
    stay in the store. *)
Theorem merge_entities_keeps_absorbed_rows (C : Collaborators) (keep_id : Id)
    (merge_ids : list Id) (w : World C) :
  let r := GraphService.merge_entities C keep_id merge_ids w in
  r.1 = get_node keep_id (w_db w)
  /\ nodes_of r.2 = nodes_of w
  /\ edges (w_db w) `prefix_of` edges (w_db r.2)
  /\ match r.1 with
     | None => r.2 = w
     | Some _ =>
         w_embeddings r.2 = absorbed_deleted C (w_db w) merge_ids (w_embeddings w)
         /\ exists ev, log_of r.2 = log_of w ++ [ev]
                       /\ ev_event_type ev = "entities_merged"%string
     end.
Proof.
  unfold GraphService.merge_entities. cbv zeta. rewrite bind_apply.
  change (GraphService.db_get_node C keep_id w) with (get_node keep_id (w_db w), w).
  cbn [fst snd].
  destruct (get_node keep_id (w_db w)) as [keep_node |].
  - rewrite !bind_apply.
    destruct (merge_loop (C := C) keep_id merge_ids w) as [(N & L & E) He].
    cbv zeta in N, L, E, He.
    set (w1 := (GraphService.for_each C merge_ids _ tt w).2) in *.
    cbn. unfold nodes_of, log_of in *. cbn.
    split; [reflexivity |]. split; [exact N |]. split; [exact E |].
    split; [exact He |]. eexists. split; [by rewrite L | reflexivity].
  - by repeat split.
Qed.

(** ** What the ingestion of a note stores *)

Section AddNote.

Context {C : Collaborators}.
Import GraphService.
Local Open Scope service_scope.

Lemma for_each_measure {A S} (mu : S -> nat) (l : list A) (body : S -> A -> M C S) :
  (forall st x w, mu (body st x w).1 = Datatypes.S (mu st)) ->
  forall st w, mu (for_each C l body st w).1 = (mu st + length l)%nat.
Proof.
  intros H. induction l as [| x l IH]; intros st w; cbn [for_each length].
  - cbn. lia.
  - rewrite bind_apply, IH, H. lia.
Qed.

Lemma db_create_node_spec name entity_type content metadata w :
  let r := db_create_node C name entity_type content metadata w in
  node_name r.1 = name /\ node_entity_type r.1 = entity_type
  /\ node_content r.1 = content
  /\ nodes_of r.2 = nodes_of w ++ [r.1]
  /\ log_of r.2 = log_of w.
Proof. cbv zeta. unfold db_create_node. rewrite !bind_apply. by cbn. Qed.

Lemma mentions_loop_lengths (note_id : Id) (l : list ExtractedEntity) w :
  let linked :=
    (for_each C l
       (fun (st : list Node * list Edge) ent =>
          let* entity_node := _find_or_create_entity C ent in
          let* edge :=
            db_create_edge C note_id (node_id entity_node) "mentions" (ent_score ent)
              (Some [("extraction_score"%string, JFloat (ent_score ent))]) in
          ret (st.1 ++ [entity_node], st.2 ++ [edge]))
       ([], []) w).1 in
  length linked.1 = length l /\ length linked.2 = length l.
Proof.
  cbv zeta. split.
  - rewrite (for_each_measure (fun st : list Node * list Edge => length st.1)); [reflexivity |].
    intros. rewrite !bind_apply. cbn. rewrite List.length_app. cbn. lia.
  - rewrite (for_each_measure (fun st : list Node * list Edge => length st.2)); [reflexivity |].
    intros. rewrite !bind_apply. cbn. rewrite List.length_app. cbn. lia.
Qed.

Ltac leaf_log :=
  first [ solve [intros ?; exists []; cbn; by rewrite List.app_nil_r]
        | solve [intros ?; eexists [_]; reflexivity] ].

Lemma auto_link_loop_log entity_nodes : forall edges,
  respects log_extended (auto_link_loop C entity_nodes edges).
Proof.
  induction entity_nodes as [| node_a rest IH]; intros edges; simpl.
  - respects_with leaf_log.
  - apply respects_bind; [apply _ | | exact IH].
    respects_with leaf_log.
Qed.

Ltac frame_log :=
  repeat match goal with
  | E : ?m ?w = (?a, ?w') |- _ =>
      let H := fresh "F" in
      assert (H : respects log_extended m)
        by (respects_with ltac:(first [apply auto_link_loop_log | leaf_log]));
      apply (respects_eq _ _ _ _ _ H) in E; clear H
  end.

Ltac frame_rows :=
  repeat match goal with
  | E : ?m ?w = (?a, ?w') |- _ =>
      let H := fresh "F" in
      assert (H : respects (db_reached_by deletes_no_row) m)
        by (respects_with ltac:(first [apply auto_link_loop_deletes_no_row | leaf_by]));
      apply (respects_eq _ _ _ _ _ H) in E; clear H
  end.

Lemma add_note_rows note w :
  let r := add_note C note w in
  node_entity_type r.1.1.1 = "note"%string
  /\ node_content r.1.1.1 = Some (note_content note)
  /\ node_name r.1.1.1
     = str_or (note_title note) (Text.prefix 50 (note_content note) ++ "...")%string
  /\ (List.map node_key (nodes_of w) ++ [node_key r.1.1.1])
       `prefix_of` List.map node_key (nodes_of r.2)
  /\ length r.1.1.2
     = length (EntityExtractor.extract_clean (predict_entities C) (note_content note)
                 None 0.3)
  /\ (length r.1.1.2 <= length r.1.2)%nat
  /\ exists evs ev, log_of r.2 = log_of w ++ evs ++ [ev]
                    /\ ev_event_type ev = "note_added"%string.
Proof.
  cbv zeta. unfold add_note. rewrite bind_apply.
  destruct (add_note_link C note w) as [[start [[note_node entity_nodes] created_edges]] wl]
    eqn:E.
  cbn [fst snd].
  repeat bind_step. cbn [fst snd ret].
  unfold add_note_link in E.
  repeat bind_step_in E.
  unfold ret in E. injection E as <- <- <- <- <-.
  match type of E4 with
  | db_create_node _ ?n ?t ?c ?m _ = _ =>
      pose proof (db_create_node_spec n t c m w3) as Hn
  end.
  cbv zeta in Hn.
  rewrite E4 in Hn. cbn [fst snd] in Hn. destruct Hn as (Hname & Htype & Hcontent & Hnodes & Hlog).
  assert (P : respects (unchanged w_db) (perf_counter C))
    by (respects_with leaf_unchanged).
  pose proof (respects_eq _ _ _ _ _ P E3) as H3. unfold unchanged in H3. clear P.
  pose proof (mentions_loop_lengths (node_id a3)
                (EntityExtractor.extract_clean (predict_entities C) (note_content note)
                   None 0.3) w5) as Len.
  cbv zeta in Len. rewrite E6 in Len. cbn [fst snd] in Len. destruct Len as [Len1 Len2].
  assert (Hev : exists ev, log_of w2 = log_of w1 ++ [ev]
                           /\ ev_event_type ev = "note_added"%string).
  { apply (f_equal snd) in E2. cbn [snd] in E2. subst w2. eexists. split; reflexivity. }
  assert (Rows : rows_kept (w_db w4) (w_db w2)).
  { clear Hev Len1 Len2. frame_rows.
    assert (R : db_reached_by deletes_no_row w4 w2)
      by (repeat (etransitivity; [eassumption |]); reflexivity).
    destruct R as (ops & Hops & ->). by apply rows_kept_run. }
  assert (Log : log_extended w4 w1).
  { clear Hev Len1 Len2 Rows E2. frame_log.
    repeat (etransitivity; [eassumption |]). reflexivity. }
  split; [exact Htype |]. split; [exact Hcontent |]. split; [exact Hname |].
  split; [| split; [exact Len1 | split]].
  - destruct Rows as [Rn _]. unfold nodes_of in *.
    by rewrite Hnodes, H3, List.map_app in Rn.
  - rewrite !List.length_app. lia.
  - destruct Hev as (ev & Hev & Ht). destruct Log as [evs Hl].
    exists evs, ev. split; [| exact Ht].
    unfold log_of in *. by rewrite Hev, Hl, Hlog, H3, List.app_assoc.
Qed.

End AddNote.

(** X19. [add_note] always stores a new node for the note, whatever the store
    holds: a node of the type "note" with the note's content, named by the
    title or, without one, by the first 50 characters of the content and
    "...", right after the nodes there were, which stay as they are. It
    returns one entity node for each extracted entity and at least as many
    edges, and the last event it logs is "note_added". *)
Theorem add_note_always_stores_a_note (C : Collaborators) (note : Note) (w : World C) :
  let r := GraphService.add_note C note w in
  node_entity_type r.1.1.1 = "note"%string
  /\ node_content r.1.1.1 = Some (note_content note)
  /\ node_name r.1.1.1
     = GraphService.str_or (note_title note)
         (Text.prefix 50 (note_content note) ++ "...")%string
  /\ (List.map node_key (nodes_of w) ++ [node_key r.1.1.1])
       `prefix_of` List.map node_key (nodes_of r.2)
  /\ length r.1.1.2
     = length (EntityExtractor.extract_clean (predict_entities C) (note_content note)
                 None 0.3)
  /\ (length r.1.1.2 <= length r.1.2)%nat
  /\ exists evs ev, log_of r.2 = log_of w ++ evs ++ [ev]
                    /\ ev_event_type ev = "note_added"%string.
Proof.
  apply add_note_rows.
Qed.

(** ** The WebSocket manager *)

Section Connections.

Import ConnectionManager.

Lemma remove_present x l : In x l -> Permutation l (x :: remove x l).
Proof.
  induction l as [| c l IH]; intros H; [destruct H |].
  cbn [remove]. destruct (Nat.eqb c x) eqn:E.
  - apply Nat.eqb_eq in E as ->. reflexivity.
  - destruct H as [-> | H]; [by rewrite Nat.eqb_refl in E |].
    etransitivity; [| apply perm_swap]. constructor. by apply IH.
Qed.

Lemma disconnect_present x l : In x l -> disconnect x l = remove x l.
Proof.
  intros H. unfold disconnect.
  assert (E : existsb (Nat.eqb x) l = true).
  { apply existsb_exists. exists x. split; [exact H | apply Nat.eqb_refl]. }
  by rewrite E.
Qed.

Lemma disconnect_absent x l : ~ In x l -> disconnect x l = l.
Proof.
  intros H. unfold disconnect.
  destruct (existsb (Nat.eqb x) l) eqn:E; [| reflexivity].
  apply existsb_exists in E as (y & Hy & E). apply Nat.eqb_eq in E as ->. contradiction.
Qed.

Lemma disconnect_all_perm failed : forall l rest,
  Permutation l (failed ++ rest) ->
  Permutation (fold_left (fun active conn => disconnect conn active) failed l) rest.
Proof.
  induction failed as [| x failed IH]; intros l rest H; cbn [fold_left].
  - exact H.
  - assert (Hx : In x l).
    { eapply Permutation_in; [symmetry; exact H | by left]. }
    apply IH. rewrite (disconnect_present x l Hx).
    apply (Permutation_cons_inv (a := x)).
    etransitivity; [symmetry; apply (remove_present x l Hx) | exact H].
Qed.

Lemma split_sends raises l : forall i,
  Permutation l (disconnected_from raises i l ++ delivered_from raises i l).
Proof.
  induction l as [| c l IH]; intros i; cbn; [constructor |].
  destruct (raises i); cbn.
  - constructor. apply IH.
  - etransitivity; [| apply Permutation_middle]. constructor. apply IH.
Qed.

Lemma disconnected_in raises l : forall i x,
  In x (disconnected_from raises i l) -> In x l.
Proof.
  induction l as [| c l IH]; intros i x H; [destruct H |].
  cbn in H. destruct (raises i).
  - destruct H as [-> | H]; [by left | right; eauto].
  - right. eauto.
Qed.

Lemma disconnect_all_head c failed : forall l,
  ~ In c failed ->
  fold_left (fun active conn => disconnect conn active) failed (c :: l)
  = c :: fold_left (fun active conn => disconnect conn active) failed l.
Proof.
  induction failed as [| x failed IH]; intros l H; [reflexivity |].
  cbn [fold_left].
  assert (Hx : x <> c) by (intros ->; apply H; by left).
  assert (E : disconnect x (c :: l) = c :: disconnect x l).
  { unfold disconnect. cbn [existsb remove].
    destruct (Nat.eqb x c) eqn:E1; [by apply Nat.eqb_eq in E1 |].
    destruct (Nat.eqb c x) eqn:E2; [by apply Nat.eqb_eq in E2 |].
    cbn [orb]. by destruct (existsb (Nat.eqb x) l). }
  rewrite E. apply IH. intros Hc. apply H. by right.
Qed.

Lemma broadcast_distinct raises l : forall i,
  List.NoDup l ->
  fold_left (fun active conn => disconnect conn active) (disconnected_from raises i l) l
  = delivered_from raises i l.
Proof.
  induction l as [| c l IH]; intros i H; [reflexivity |].
  apply List.NoDup_cons_iff in H as [Hc Hl].
  cbn [disconnected_from delivered_from]. destruct (raises i).
  - cbn [fold_left]. rewrite disconnect_present by (by left).
    cbn [remove]. rewrite Nat.eqb_refl. by apply IH.
  - rewrite disconnect_all_head; [by rewrite IH |].
    intros H. apply Hc. eapply disconnected_in, H.
Qed.

End Connections.

(** X20. A broadcast drops from the active connections one entry for each
    send that raised and nothing else: what it leaves is a rearrangement of
    the connections whose send passed. When no connection is listed twice,
    what it leaves is exactly those connections in their order; and
    disconnecting a connection right after connecting it gives back the
    list, when it was not listed before. *)
Theorem broadcast_drops_failed_connections (raises : nat -> bool)
    (active_connections : list ConnectionManager.WebSocket) :
  Permutation (ConnectionManager.broadcast raises active_connections)
              (ConnectionManager.delivered_from raises 0 active_connections)
  /\ (List.NoDup active_connections ->
      ConnectionManager.broadcast raises active_connections
      = ConnectionManager.delivered_from raises 0 active_connections)
  /\ (forall websocket,
        ~ In websocket active_connections ->
        ConnectionManager.disconnect websocket
          (ConnectionManager.connect websocket active_connections)
        = active_connections).
Proof.
  split; [| split].
  - apply disconnect_all_perm, split_sends.
  - apply broadcast_distinct.
  - intros x H. unfold ConnectionManager.connect.
    rewrite disconnect_present by (apply in_or_app; right; by left).
    induction active_connections as [| c l IH]; cbn.
    + by rewrite Nat.eqb_refl.
    + destruct (Nat.eqb c x) eqn:E.
      * apply Nat.eqb_eq in E as ->. exfalso. apply H. by left.
      * f_equal. apply IH. intros Hx. apply H. by right.
Qed.

Lemma broadcast_drops_failed_connections_witness :
  ConnectionManager.broadcast (fun i => Nat.eqb i 1) [7; 8; 9]%nat = [7; 9]%nat
  /\ ConnectionManager.disconnect 5%nat (ConnectionManager.connect 5%nat [7; 8]%nat)
     = [7; 8]%nat.
Proof.
  destruct (broadcast_drops_failed_connections (fun i => Nat.eqb i 1) [7; 8; 9]%nat)
    as (_ & H & _).
  destruct (broadcast_drops_failed_connections (fun i => Nat.eqb i 1) [7; 8]%nat)
    as (_ & _ & H').
  split.
  - rewrite H; [reflexivity |]. repeat constructor; cbn; intuition lia.
  - apply H'. cbn. intuition lia.
Defined.

(** ** The path of a query *)

Section QueryPath.

Context {C : Collaborators}.
Import GraphService.

Lemma returns_ret {A} (P : A -> Prop) a : P a -> returns (C := C) P (ret a).
Proof. intros H w. exact H. Qed.

Lemma returns_bind {A B} (Q : A -> Prop) (P : B -> Prop) (m : M C A) (k : A -> M C B) :
  returns Q m -> (forall a, Q a -> returns P (k a)) -> returns P (bind m k).
Proof.
  intros Hm Hk w. unfold value. rewrite bind_apply. apply Hk, Hm.
Qed.

Lemma returns_any {A} (m : M C A) : returns (fun _ => True) m.
Proof. intros w. exact I. Qed.

Lemma returns_for_each {A S} (P : S -> Prop) (l : list A) (body : S -> A -> M C S) :
  (forall s x, P s -> returns P (body s x)) ->
  forall s, P s -> returns P (for_each C l body s).
Proof.
  intros Hbody. induction l as [| x l IH]; intros s Hs; cbn [for_each].
  - by apply returns_ret.
  - apply (returns_bind P); [by apply Hbody | exact IH].
Qed.

Lemma get_node_id i db n : get_node i db = Some n -> node_id n = i.
Proof.
  unfold get_node. intros H. apply List.find_some in H as [_ H].
  by apply Nat.eqb_eq in H.
Qed.

Lemma db_get_node_returns i :
  returns (fun o => forall n, o = Some n -> node_id n = i) (db_get_node C i).
Proof. intros w n H. by apply (get_node_id i (w_db w)). Qed.

Lemma path_snoc path nodes n :
  path_of_nodes path nodes -> path_of_nodes (path ++ [node_id n]) (nodes ++ [n]).
Proof. unfold path_of_nodes. intros ->. by rewrite List.map_app. Qed.

Lemma search_phase_path q mr : returns locals_ok (search_phase C q mr).
Proof.
  unfold search_phase.
  apply (returns_bind (fun _ => True)); [apply returns_any | intros e _].
  cbv zeta.
  apply (returns_bind (fun acc : list Node * list Id => path_of_nodes acc.2 acc.1)).
  - apply returns_for_each; [| reflexivity].
    intros acc hit Hacc. unfold search_step.
    apply (returns_bind (fun _ => True)); [apply returns_any | intros [n |] _].
    + apply (returns_bind (fun _ => True)); [apply returns_any | intros _ _].
      apply returns_ret. by apply path_snoc.
    + by apply returns_ret.
  - intros acc Hacc. by apply returns_ret.
Qed.

Lemma expansion_phase_path l : locals_ok l -> returns locals_ok (expansion_phase C l).
Proof.
  intros Hl. unfold expansion_phase. apply returns_for_each; [| exact Hl].
  intros l1 node H1. unfold expand_node.
  apply (returns_bind (fun _ => True)); [apply returns_any | intros node_edges _].
  apply returns_for_each; [| exact H1].
  intros l2 edge H2. unfold expand_step.
  apply (returns_bind (fun _ => True)); [apply returns_any | intros _ _].
  cbv zeta. destruct (bool_decide _); [by apply returns_ret |].
  eapply returns_bind; [apply db_get_node_returns |].
  intros [n |] Hn; [| by apply returns_ret].
  apply returns_ret. unfold locals_ok. cbn.
  rewrite <- (Hn n eq_refl). by apply path_snoc.
Qed.

Lemma entity_phase_path q l : locals_ok l -> returns locals_ok (entity_phase C q l).
Proof.
  intros Hl. unfold entity_phase. cbv zeta. apply returns_for_each; [| exact Hl].
  intros l1 ent H1. unfold match_step.
  apply (returns_bind (fun _ => True)); [apply returns_any | intros [n |] _].
  - destruct (bool_decide _); apply returns_ret; [exact H1 |].
    unfold locals_ok. cbn. by apply path_snoc.
  - by apply returns_ret.
Qed.

Lemma query_path q use_llm mr :
  returns (fun r => path_of_nodes (qr_traversed_path r) (qr_nodes r))
          (query C q use_llm mr).
Proof.
  unfold query.
  apply (returns_bind (fun _ => True)); [apply returns_any | intros start _].
  eapply returns_bind; [apply search_phase_path | intros l1 H1].
  eapply returns_bind; [by apply expansion_phase_path | intros l2 H2].
  eapply returns_bind; [by apply entity_phase_path | intros l H].
  cbv zeta.
  apply (returns_bind (fun _ => True)); [apply returns_any | intros [response used] _].
  apply (returns_bind (fun _ => True)); [apply returns_any | intros stop _].
  apply (returns_bind (fun _ => True)); [apply returns_any | intros _ _].
  apply (returns_bind (fun _ => True)); [apply returns_any | intros _ _].
  apply returns_ret. exact H.
Qed.

End QueryPath.

(** X21. The path a query returns lists the ids of the nodes it returns, one
    for one and in the same order, whatever the store, the search hits and
    the recognized entities are; so does the path of a streamed query. *)
Theorem query_path_lists_returned_nodes (C : Collaborators) (query_text : string)
    (use_llm : bool) (max_results : Z) (w : World C) :
  qr_traversed_path (value (GraphService.query C query_text use_llm max_results) w)
  = List.map node_id
      (qr_nodes (value (GraphService.query C query_text use_llm max_results) w))
  /\ qr_traversed_path
       (value (GraphService.query_streaming C query_text use_llm max_results) w)
     = List.map node_id
         (qr_nodes
            (value (GraphService.query_streaming C query_text use_llm max_results) w)).
Proof.
  pose proof (query_path (C := C) query_text use_llm max_results w) as H.
  split; [exact H |].
  destruct (query_streaming_simulates query_text use_llm max_results w w (agree_refl w))
    as [Hv _].
  unfold value in *. rewrite <- Hv. exact H.
Qed.

(** ** The counts of the registry *)

Section RegistryCounts.

Lemma count_type_snoc t l n :
  count_type t (l ++ [n])
  = count_type t l + (if String.eqb (node_entity_type n) t then 1 else 0).
Proof.
  unfold count_type. rewrite List.filter_app, List.length_app. cbn [List.filter].
  destruct (String.eqb (node_entity_type n) t); cbn [length]; lia.
Qed.

Lemma count_type_same_types t (f : Node -> Node) l :
  (forall n, node_entity_type (f n) = node_entity_type n) ->
  count_type t (List.map f l) = count_type t l.
Proof.
  intros H. unfold count_type. f_equal.
  induction l as [| n l IH]; [reflexivity |].
  cbn [List.map List.filter]. rewrite H.
  destruct (String.eqb (node_entity_type n) t); cbn [length]; by rewrite IH.
Qed.

Lemma insert_or_ignore_count t name row m :
  st_count row = 0 ->
  default 0 (st_count <$> insert_or_ignore name row m !! t)
  = default 0 (st_count <$> m !! t).
Proof.
  intros H. unfold insert_or_ignore.
  destruct (m !! name) as [r |] eqn:E; [reflexivity |].
  destruct (decide (name = t)) as [-> | Hne].
  - by rewrite lookup_insert_eq, E.
  - by rewrite lookup_insert_ne.
Qed.

Lemma init_fold_count now t (l : list string) : forall m,
  default 0 (st_count <$>
     fold_left (fun m t => insert_or_ignore t (mkSchemaRow 0 true None (now t)) m) l m !! t)
  = default 0 (st_count <$> m !! t).
Proof.
  induction l as [| s l IH]; intros m; [reflexivity |].
  cbn [fold_left]. rewrite IH. by apply insert_or_ignore_count.
Qed.

Lemma upsert_count_count t name now m :
  default 0 (st_count <$> upsert_count name now m !! t)
  = default 0 (st_count <$> m !! t) + (if String.eqb name t then 1 else 0).
Proof.
  destruct (String.eqb name t) eqn:E.
  - apply String.eqb_eq in E as ->. rewrite upsert_count_at.
    destruct (m !! t); cbn; lia.
  - assert (Hne : name <> t) by (intros ->; by rewrite String.eqb_refl in E).
    unfold upsert_count. destruct (m !! name); rewrite lookup_insert_ne by done; lia.
Qed.

Lemma clear_all_count t db : registry_count t (clear_all db) = 0.
Proof.
  unfold registry_count, clear_all. cbn [schema_types].
  destruct (filter _ _ !! t) as [r |] eqn:E; [| reflexivity].
  apply map_lookup_filter_Some in E as [E Hs]. cbn in Hs.
  rewrite lookup_fmap in E.
  destruct (schema_types db !! t) as [r0 |]; [| discriminate].
  injection E as <-. cbn. unfold reset_seed_count in *.
  destruct (st_is_seed r0) eqn:S0; [reflexivity |]. congruence.
Qed.

Lemma registry_counts_new now : registry_counts_nodes (new_database now).
Proof.
  intros t. unfold registry_count, new_database, _init_schema. cbn [schema_types nodes set_schema_types].
  by rewrite init_fold_count.
Qed.

Lemma registry_counts_step op db :
  registry_counts_nodes db -> registry_counts_nodes (apply_op op db).
Proof.
  intros H t. specialize (H t). unfold registry_count in *.
  destruct op; cbn [apply_op]; try exact H.
  - unfold _init_schema. cbn [schema_types nodes set_schema_types].
    by rewrite init_fold_count.
  - cbn [create_node fst schema_types nodes].
    by rewrite upsert_count_count, count_type_snoc, H.
  - unfold update_node_access. cbn [schema_types nodes set_nodes].
    rewrite count_type_same_types; [exact H |].
    intros n. by destruct (Nat.eqb (node_id n) node_id0).
  - cbn [create_schema_type fst log_adaptation set_adaptation_events set_schema_types
           schema_types nodes].
    by rewrite insert_or_ignore_count.
  - pose proof (clear_all_count t db) as E. unfold registry_count in E.
    by rewrite E.
Qed.

Lemma registry_counts_run ops : forall db,
  registry_counts_nodes db -> registry_counts_nodes (run_ops ops db).
Proof.
  induction ops as [| op ops IH]; intros db H; [exact H |].
  cbn [run_ops fold_left]. apply IH. by apply registry_counts_step.
Qed.

End RegistryCounts.

(** X22. In a store the engine built from a new database file, the count the
    registry holds for a type is the number of the nodes of that type, and a
    type without a row has no node: a new store has it so, and every
    statement of the store keeps it, [clear_all] included; so has the store
    of a service started on a new file, after any calls. *)
Theorem registry_counts_the_nodes :
  (forall now, registry_counts_nodes (new_database now))
  /\ (forall op db, registry_counts_nodes db -> registry_counts_nodes (apply_op op db))
  /\ (forall (C : Collaborators) collection calls t,
        registry_count t
          (w_db (GraphService.perform_all C calls
                   (GraphService.start C empty_database collection)))
        = count_type t
            (nodes (w_db (GraphService.perform_all C calls
                            (GraphService.start C empty_database collection))))).
Proof.
  split; [apply registry_counts_new |]. split; [apply registry_counts_step |].
  intros C collection calls.
  destruct (service_store_reached (C := C) collection calls) as (now & ops & ->).
  apply registry_counts_run, registry_counts_new.
Qed.

Lemma registry_counts_the_nodes_witness :
  registry_counts_nodes
    (apply_op (OpCreateNode 1 8 "Alice" "person" None None) SampleStore.with_concept).
Proof.
  destruct registry_counts_the_nodes as (Hnew & Hstep & _).
  apply Hstep, Hstep, Hnew.
Defined.

(** ** Edges after [create_edge] *)



(** ** The edges of an ingestion *)

Section IngestionEdges.

Context {C : Collaborators}.
Import GraphService.

Lemma db_create_edge_returns source_id target_id relation_type weight metadata :
  returns (fun e => edge_source_id e = source_id /\ edge_target_id e = target_id
                    /\ edge_relation_type e = relation_type /\ edge_weight e = weight)
          (db_create_edge C source_id target_id relation_type weight metadata).
Proof. intros w. unfold value, db_create_edge. rewrite !bind_apply. by cbn. Qed.

Lemma auto_link_pair_edges note_id node_a node_b edges :
  Forall (ingestion_edge note_id) edges ->
  returns (Forall (ingestion_edge note_id)) (auto_link_pair C node_a edges node_b).
Proof.
  intros H. unfold auto_link_pair.
  apply (returns_bind (fun _ => True)); [apply returns_any | intros [existing |] _].
  - apply (returns_bind (fun _ => True)); [apply returns_any | intros _ _].
    by apply returns_ret.
  - cbv zeta. destruct (Qlt_le_dec _ _) as [Hlt |]; [| by apply returns_ret].
    eapply returns_bind; [apply db_create_edge_returns |].
    intros e (_ & _ & Hr & Hw). apply returns_ret.
    apply Forall_app. split; [exact H |]. constructor; [| constructor].
    right. left. by rewrite Hr, Hw.
Qed.

Lemma auto_link_loop_edges note_id entity_nodes : forall edges,
  Forall (ingestion_edge note_id) edges ->
  returns (Forall (ingestion_edge note_id)) (auto_link_loop C entity_nodes edges).
Proof.
  induction entity_nodes as [| node_a rest IH]; intros edges H; cbn [auto_link_loop].
  - by apply returns_ret.
  - eapply returns_bind; [| exact IH].
    apply returns_for_each; [| exact H].
    intros es node_b Hes. by apply auto_link_pair_edges.
Qed.

Lemma link_to_similar_notes_edges note_node :
  returns (Forall (ingestion_edge (node_id note_node)))
          (_link_to_similar_notes C note_node).
Proof.
  unfold _link_to_similar_notes.
  apply (returns_bind (fun _ => True)); [apply returns_any | intros e _].
  cbv zeta. apply returns_for_each; [| constructor].
  intros edges sim H.
  destruct (Qlt_le_dec _ _) as [Hlt |]; [| by apply returns_ret].
  apply (returns_bind (fun _ => True)); [apply returns_any | intros [n |] _];
    [| by apply returns_ret].
  destruct (String.eqb _ _); [| by apply returns_ret].
  eapply returns_bind; [apply db_create_edge_returns |].
  intros edge (Hs & _ & Hr & Hw). apply returns_ret.
  apply Forall_app. split; [exact H |]. constructor; [| constructor].
  right. right. by rewrite Hr, Hw, Hs.
Qed.

Lemma add_note_edges note :
  returns (fun r : Node * list Node * list Edge =>
             Forall (ingestion_edge (node_id r.1.1)) r.2)
          (add_note C note).
Proof.
  unfold add_note.
  apply (returns_bind
           (fun linked : Q * (Node * list Node * list Edge) =>
              Forall (ingestion_edge (node_id linked.2.1.1)) linked.2.2)).
  - unfold add_note_link.
    apply (returns_bind (fun _ => True)); [apply returns_any | intros start _].
    cbv zeta.
    apply (returns_bind (fun _ => True)); [apply returns_any | intros note_node _].
    apply (returns_bind (fun _ => True)); [apply returns_any | intros _ _].
    apply (returns_bind (fun st : list Node * list Edge =>
                           Forall (ingestion_edge (node_id note_node)) st.2)).
    + apply returns_for_each; [| constructor].
      intros st ent Hst.
      apply (returns_bind (fun _ => True)); [apply returns_any | intros entity_node _].
      eapply returns_bind; [apply db_create_edge_returns |].
      intros edge (Hs & _ & Hr & _). apply returns_ret. cbn [snd].
      apply Forall_app. split; [exact Hst |]. constructor; [| constructor].
      left. by split.
    + intros linked Hl.
      apply (returns_bind (Forall (ingestion_edge (node_id note_node)))).
      * unfold _auto_link_similar. apply auto_link_loop_edges. constructor.
      * intros auto_edges Ha.
        eapply returns_bind; [apply link_to_similar_notes_edges |].
        intros similar_edges Hs. apply returns_ret. cbn [fst snd].
        apply Forall_app. split; [| exact Hs]. apply Forall_app. by split.
  - intros [start [[note_node entity_nodes] created_edges]] H.
    apply (returns_bind (fun _ => True)); [apply returns_any | intros _ _].
    apply (returns_bind (fun _ => True)); [apply returns_any | intros stop _].
    cbv zeta.
    apply (returns_bind (fun _ => True)); [apply returns_any | intros _ _].
    apply returns_ret. exact H.
Qed.

End IngestionEdges.

(** X24. Every edge [add_note] returns is of one of three kinds: a "mentions"
    edge that starts at the note, a "co_occurs" edge whose weight, the
    similarity of two entity names, is above the threshold 0.7, or a
    "similar_to" edge that starts at the note and whose weight, the
    similarity of the hit, is above the threshold. *)
Theorem add_note_returns_ingestion_edges (C : Collaborators) (note : Note) (w : World C) :
  let r := value (GraphService.add_note C note) w in
  forall e, In e r.2 -> ingestion_edge (node_id r.1.1) e.
Proof.
  cbv zeta. intros e He.
  pose proof (add_note_edges (C := C) note w) as H. cbv beta in H.
  rewrite Forall_forall in H. apply H. by apply list_elem_of_In.
Qed.

Lemma add_note_returns_ingestion_edges_witness :
  let r := value (GraphService.add_note SampleService.collaborators
                    SampleService.met_alice) SampleService.started in
  match r.2 with
  | e :: _ => ingestion_edge (node_id r.1.1) e
  | [] => False
  end.
Proof.
  pose proof (add_note_returns_ingestion_edges SampleService.collaborators
                SampleService.met_alice SampleService.started) as H.
  cbv zeta in *.
  destruct (value _ _).2 as [| e l] eqn:E.
  - vm_compute in E. discriminate.
  - apply H. by left.
Defined.

(** ** The registry under queries *)

#[global] Instance registry_untouched_preorder {C : Collaborators} :
  PreOrder (@registry_untouched C).
Proof.
  split.
  - intros w. by repeat split.
  - intros a b c (S1 & L1 & N1) (S2 & L2 & N2).
    split; [congruence | split; congruence].
Qed.

Section QueryRegistry.

Context {C : Collaborators}.
Import GraphService.

Variable db0 : Database.

Lemma yields_ret {A} (J : World C -> Prop) (P : A -> Prop) a :
  P a -> yields J P (ret a).
Proof. intros H w Hw. by split. Qed.

Lemma yields_bind {A B} (J : World C -> Prop) (Q : A -> Prop) (P : B -> Prop)
    (m : M C A) (k : A -> M C B) :
  yields J Q m -> (forall a, Q a -> yields J P (k a)) -> yields J P (bind m k).
Proof.
  intros Hm Hk w Hw. unfold run, value. rewrite bind_apply.
  destruct (Hm w Hw) as [H1 H2]. exact (Hk _ H2 _ H1).
Qed.

Lemma yields_for_each {A S} (J : World C -> Prop) (P : S -> Prop) (l : list A)
    (body : S -> A -> M C S) :
  (forall s x, P s -> yields J P (body s x)) ->
  forall s, P s -> yields J P (for_each C l body s).
Proof.
  intros Hbody. induction l as [| x l IH]; intros s Hs; cbn [for_each].
  - by apply yields_ret.
  - apply (yields_bind J P); [by apply Hbody | exact IH].
Qed.

Lemma registry_of_untouched (w w' : World C) :
  registry_of db0 w -> registry_untouched w w' -> registry_of db0 w'.
Proof.
  intros (S0 & L0 & N0) (S1 & L1 & N1).
  split; [congruence | split; [congruence |]].
  intros n Hn. unfold type_known.
  assert (Ht : In (node_entity_type n) (List.map node_entity_type (nodes (w_db w')))).
  { apply in_map_iff. by exists n. }
  rewrite N1 in Ht. apply in_map_iff in Ht as (n' & <- & Hn'). by apply N0.
Qed.

Lemma yields_untouched {A} (m : M C A) :
  respects registry_untouched m -> yields (registry_of (C := C) db0) (fun _ => True) m.
Proof.
  intros H w Hw. split; [| exact I].
  apply (registry_of_untouched w); [exact Hw | apply H].
Qed.

Lemma update_node_access_types now i db :
  List.map node_entity_type (nodes (update_node_access now i db))
  = List.map node_entity_type (nodes db).
Proof.
  unfold update_node_access. cbn [nodes set_nodes]. rewrite List.map_map.
  apply List.map_ext. intros n. by destruct (Nat.eqb (node_id n) i).
Qed.

Ltac leaf_untouched :=
  first [ solve [intros ?; split; [reflexivity | split; reflexivity]]
        | solve [intros ?; split; [reflexivity | split; [reflexivity |]];
                 apply update_node_access_types] ].

Ltac untouched := apply yields_untouched; respects_with leaf_untouched.

Lemma yields_get_node i :
  yields (registry_of (C := C) db0) (fun o => forall n, o = Some n -> type_known db0 n)
         (db_get_node C i).
Proof.
  intros w Hw. split; [exact Hw |]. intros n Hn.
  destruct Hw as (_ & _ & N0). apply N0.
  by apply (get_node_sound i (w_db w) n).
Qed.

Lemma yields_find_node_by_name name :
  yields (registry_of (C := C) db0) (fun o => forall n, o = Some n -> type_known db0 n)
         (db_find_node_by_name C name).
Proof.
  intros w Hw. split; [exact Hw |]. intros n Hn.
  destruct Hw as (_ & _ & N0). apply N0.
  change (find_node_by_name name None (w_db w) = Some n) in Hn.
  rewrite find_node_by_name_test in Hn. by apply List.find_some in Hn as [Hn _].
Qed.

Lemma known_snoc (l : list Node) n :
  (forall x, In x l -> type_known db0 x) -> type_known db0 n ->
  forall x, In x (l ++ [n]) -> type_known db0 x.
Proof.
  intros Hl Hn x Hx. apply in_app_or in Hx as [Hx | [<- | []]]; auto.
Qed.

Lemma search_phase_known q mr :
  yields (registry_of (C := C) db0) (locals_known db0) (search_phase C q mr).
Proof.
  unfold search_phase.
  apply (yields_bind _ (fun _ => True)); [untouched | intros e _].
  cbv zeta.
  apply (yields_bind _ (fun acc : list Node * list Id =>
                          forall n, In n acc.1 -> type_known db0 n)).
  - apply yields_for_each; [| intros n []].
    intros acc hit Hacc. unfold search_step.
    eapply yields_bind; [apply yields_get_node | intros [n |] Hn].
    + apply (yields_bind _ (fun _ => True)); [untouched | intros _ _].
      apply yields_ret. cbn [fst]. apply known_snoc; [exact Hacc | by apply Hn].
    + by apply yields_ret.
  - intros acc Hacc. by apply yields_ret.
Qed.

Lemma expansion_phase_known l :
  (locals_known db0) l -> yields (registry_of (C := C) db0) (locals_known db0) (expansion_phase C l).
Proof.
  intros Hl. unfold expansion_phase. apply yields_for_each; [| exact Hl].
  intros l1 node H1. unfold expand_node.
  apply (yields_bind _ (fun _ => True)); [untouched | intros node_edges _].
  apply yields_for_each; [| exact H1].
  intros l2 edge H2. unfold expand_step.
  apply (yields_bind _ (fun _ => True)); [untouched | intros _ _].
  cbv zeta. destruct (bool_decide _); [by apply yields_ret |].
  eapply yields_bind; [apply yields_get_node |].
  intros [n |] Hn; [| by apply yields_ret].
  apply yields_ret. unfold locals_known. cbn [l_nodes].
  apply known_snoc; [exact H2 | by apply Hn].
Qed.

Lemma entity_phase_known q l :
  (locals_known db0) l -> yields (registry_of (C := C) db0) (locals_known db0) (entity_phase C q l).
Proof.
  intros Hl. unfold entity_phase. cbv zeta. apply yields_for_each; [| exact Hl].
  intros l1 ent H1. unfold match_step.
  eapply yields_bind; [apply yields_find_node_by_name | intros [n |] Hn].
  - destruct (bool_decide _); apply yields_ret; [exact H1 |].
    unfold locals_known. cbn [l_nodes]. apply known_snoc; [exact H1 | by apply Hn].
  - by apply yields_ret.
Qed.

Lemma query_promote_step_db t n w :
  is_Some (schema_types (w_db w) !! t) ->
  w_db (query_promote_step C tt (t, n) w).2 = w_db w.
Proof.
  intros Ht. unfold query_promote_step.
  destruct (3 <=? n); [| reflexivity].
  rewrite !bind_apply. cbn [type_counts_add get_type_counts put_type_counts bind fst snd].
  match goal with |- context [if ?b then _ else _] => destruct b end; [| reflexivity].
  rewrite !bind_apply. cbn [db_get_schema_types get_db bind ret fst snd w_db].
  assert (E : existsb (String.eqb t) (List.map stype_name (get_schema_types (w_db w)))
              = true).
  { apply not_false_iff_true. rewrite names_of_registry.
    destruct Ht as [r Hr]. congruence. }
  by rewrite E.
Qed.

Lemma query_promote_loop_db items : forall w,
  (forall t n, In (t, n) items -> is_Some (schema_types (w_db w) !! t)) ->
  w_db (for_each C items (query_promote_step C) tt w).2 = w_db w.
Proof.
  induction items as [| [t n] items IH]; intros w H; [reflexivity |].
  cbn [for_each]. rewrite bind_apply.
  pose proof (query_promote_step_db t n w (H t n ltac:(by left))) as E.
  destruct (query_promote_step C tt (t, n) w) as [[] w1]. cbn [fst snd] in *.
  rewrite IH; [exact E |].
  intros t' n' Hin. rewrite E. apply (H t' n'). by right.
Qed.

Lemma check_query_adaptations_known q accessed :
  (forall n, In n accessed -> type_known db0 n) ->
  yields (registry_of (C := C) db0) (fun _ => True) (_check_query_adaptations C q accessed).
Proof.
  intros Hacc w Hw. split; [| exact I].
  assert (E : w_db (run (_check_query_adaptations C q accessed) w) = w_db w).
  { unfold run, _check_query_adaptations. apply query_promote_loop_db.
    intros t n Hin. apply Counter_item in Hin as [_ (node & Hnode & <-)].
    destruct Hw as (S0 & _). rewrite S0. by apply Hacc. }
  unfold registry_of in *. by rewrite E.
Qed.

Lemma query_known q use_llm mr :
  yields (registry_of (C := C) db0) (fun _ => True) (query C q use_llm mr).
Proof.
  unfold query.
  apply (yields_bind _ (fun _ => True)); [untouched | intros start _].
  eapply yields_bind; [apply search_phase_known | intros l1 H1].
  eapply yields_bind; [by apply expansion_phase_known | intros l2 H2].
  eapply yields_bind; [by apply entity_phase_known | intros l H].
  cbv zeta.
  apply (yields_bind _ (fun _ => True)); [untouched | intros [response used] _].
  apply (yields_bind _ (fun _ => True)); [untouched | intros stop _].
  apply (yields_bind _ (fun _ => True)); [untouched | intros _ _].
  apply (yields_bind _ (fun _ => True));
    [by apply check_query_adaptations_known | intros _ _].
  by apply yields_ret.
Qed.

End QueryRegistry.

(** X25. On a store in which every node's type has a row in the registry, a
    query, streamed or not, leaves the registry and the adaptation log as
    they are: the nodes it accesses are read from the store, so its
    promotion check finds each of their types registered and creates
    none. *)
Theorem query_leaves_registry_of_registered_store (C : Collaborators)
    (query_text : string) (use_llm : bool) (max_results : Z) (w : World C) :
  types_registered (w_db w) ->
  (schema_types (w_db (run (GraphService.query C query_text use_llm max_results) w))
   = schema_types (w_db w)
   /\ log_of (run (GraphService.query C query_text use_llm max_results) w) = log_of w)
  /\ (schema_types
        (w_db (run (GraphService.query_streaming C query_text use_llm max_results) w))
      = schema_types (w_db w)
      /\ log_of (run (GraphService.query_streaming C query_text use_llm max_results) w)
         = log_of w).
Proof.
  intros H.
  assert (H0 : registry_of (w_db w) w) by (by repeat split).
  destruct (query_known (w_db w) query_text use_llm max_results w H0)
    as [(S1 & L1 & _) _].
  destruct (query_streaming_simulates query_text use_llm max_results w w (agree_refl w))
    as [_ Ha].
  assert (E : w_db (run (GraphService.query_streaming C query_text use_llm max_results) w)
              = w_db (run (GraphService.query C query_text use_llm max_results) w)).
  { symmetry. apply Ha. }
  unfold log_of. rewrite E. by repeat split.
Qed.

Lemma sample_store_registered : types_registered (w_db SampleService.after_alice).
Proof.
  assert (H : exists now ops,
             w_db (GraphService.start SampleService.collaborators empty_database [])
             = run_ops ops (new_database now))
    by exact (service_store_reached (C := SampleService.collaborators) [] []).
  destruct H as (now & ops & H).
  destruct (add_note_reached (C := SampleService.collaborators)
              SampleService.met_alice SampleService.started) as [ops' H'].
  unfold SampleService.after_alice, run. rewrite H'.
  unfold SampleService.started. rewrite H, <- run_ops_app.
  apply types_registered_run, types_registered_new.
Qed.

Lemma query_leaves_registry_of_registered_store_witness :
  log_of (run (GraphService.query SampleService.collaborators "Met Alice" false 10)
              SampleService.after_alice)
  = log_of SampleService.after_alice.
Proof.
  destruct (query_leaves_registry_of_registered_store SampleService.collaborators
              "Met Alice" false 10 SampleService.after_alice sample_store_registered)
    as [[_ H] _].
  exact H.
Defined.

(** ** The adaptation log of a new installation *)

Section QuietLog.

Context {C : Collaborators}.
Import GraphService.









End QuietLog.



(** ** Restarting the service *)

Section Restart.

Lemma init_fold_fixed now (l : list string) (m : gmap string SchemaRow) :
  (forall t, In t l -> is_Some (m !! t)) ->
  fold_left (fun m t => insert_or_ignore t (mkSchemaRow 0 true None (now t)) m) l m = m.
Proof.
  induction l as [| s l IH]; intros H; [reflexivity |].
  cbn [fold_left]. destruct (H s ltac:(by left)) as [r Hr].
  rewrite (insert_or_ignore_taken _ _ _ _ Hr). apply IH.
  intros t Ht. apply H. by right.
Qed.

Lemma init_fold_registers now (l : list string) : forall (m : gmap string SchemaRow) t,
  In t l ->
  is_Some (fold_left (fun m t => insert_or_ignore t (mkSchemaRow 0 true None (now t)) m)
                     l m !! t).
Proof.
  induction l as [| s l IH]; intros m t Ht; [destruct Ht |].
  cbn [fold_left]. destruct (List.in_dec string_dec t l) as [Hl | Hl]; [by apply IH |].
  destruct Ht as [-> | Ht]; [| contradiction].
  destruct (insert_or_ignore_registers t (mkSchemaRow 0 true None (now t)) m) as [r Hr].
  exists r. by apply init_fold_keeps.
Qed.

Lemma init_schema_fixed now db :
  (forall t, In t seed_types -> is_Some (schema_types db !! t)) ->
  _init_schema now db = db.
Proof.
  intros H. unfold _init_schema. rewrite init_fold_fixed by exact H. by destruct db.
Qed.

Lemma init_schema_twice now now' db :
  _init_schema now' (_init_schema now db) = _init_schema now db.
Proof.
  apply init_schema_fixed. intros t Ht.
  unfold _init_schema. cbn [schema_types set_schema_types].
  by apply init_fold_registers.
Qed.

End Restart.

(** X27. Opening a database file a second time changes nothing:
    [_init_schema] leaves a file it has initialised as it is, rows of the
    registry that were there are never replaced, and a service started on
    the file another service built from a new one, by any calls, has the
    store that service left. *)
Theorem restart_leaves_store (now now' : string -> Time) (db : Database) :
  _init_schema now' (_init_schema now db) = _init_schema now db
  /\ (forall t r, schema_types db !! t = Some r ->
        schema_types (_init_schema now db) !! t = Some r)
  /\ (forall (C : Collaborators) collection collection' calls,
        w_db (GraphService.start C
                (w_db (GraphService.perform_all C calls
                         (GraphService.start C empty_database collection)))
                collection')
        = w_db (GraphService.perform_all C calls
                  (GraphService.start C empty_database collection))).
Proof.
  split; [apply init_schema_twice |]. split.
  - intros t r Hr. unfold _init_schema. cbn [schema_types set_schema_types].
    by apply init_fold_keeps.
  - intros C collection collection' calls.
    destruct (service_store_reached (C := C) collection calls) as (now0 & ops & E).
    unfold GraphService.start at 1. cbv zeta. rewrite refresh_db. cbn [w_db].
    apply init_schema_fixed. intros t Ht. rewrite E.
    destruct (seeds_present_run ops _ (seeds_present_new now0) t Ht) as (r & Hr & _).
    by exists r.
Qed.

Lemma restart_leaves_store_witness :
  schema_types (_init_schema Sample.clock SampleStore.promoted_once) !! "concept"%string
  = schema_types SampleStore.promoted_once !! "concept"%string.
Proof.
  destruct (restart_leaves_store Sample.clock Sample.clock SampleStore.promoted_once)
    as (_ & H & _).
  destruct (schema_types SampleStore.promoted_once !! "concept"%string) as [r |] eqn:E.
  - by apply H.
  - vm_compute in E. discriminate.
Defined.
